(** * gear.js: involute spur gears and gear-train kinematics

    A shallow embedding of [src/gear.js].  JavaScript numbers are read as
    real numbers ([R]): every statement below is a statement of real
    arithmetic, and rounding is not modelled.  Division is the total
    division of [R]; where the value of a quotient matters, the
    statements assume what keeps the divisor away from zero.  A number of
    teeth is a natural number.  Objects with identity (the gears) live in
    a heap and are named by their index; arrays and the three.js value
    objects the geometry code builds are pure lists and records. *)

From Stdlib Require Import Reals Lra Lia.
From stdpp Require Import base option list relations gmap.

Local Open Scope R_scope.

(** ** Completions

    A call either returns, throws, or is still running when the fuel that
    bounds the [while] loop is spent.  The source has no [throw] of its
    own; the only exception the model can produce is the [TypeError] that
    JavaScript raises when a property is read from [undefined]. *)

Inductive JsError : Type := TypeError.

Inductive Completion (A : Type) : Type :=
| Normal (a : A)
| Throw (e : JsError)
| OutOfFuel.

Arguments Normal {A} a.
Arguments Throw {A} e.
Arguments OutOfFuel {A}.

#[global] Instance Completion_ret : MRet Completion := @Normal.
#[global] Instance Completion_bind : MBind Completion :=
  fun A B f c =>
    match c with
    | Normal a => f a
    | Throw e => Throw e
    | OutOfFuel => OutOfFuel
    end.

(** ** Arithmetic of JavaScript numbers, over the reals *)

(** Rounding towards zero. *)
Definition Rtrunc (r : R) : Z :=
  if Rle_dec 0 r then Int_part r else (- Int_part (- r))%Z.

(** The remainder operator [%]: the result has the sign of the dividend. *)
Definition js_rem (a b : R) : R := a - b * IZR (Rtrunc (a / b)).

(** ** Constants of the module *)

Definition INVOLUTE_STEP : R := 0.05.

(** ** The part of three.js the source relies on *)

Module THREE.

(** [THREE.Vector2]. *)
Record Vector2 : Type := mkVector2 { x : R; y : R }.

(** [Vector2.length()]. *)
Definition length (v : Vector2) : R := sqrt (x v * x v + y v * y v).

(** [Vector2.rotateAround(center, angle)].  The library overwrites the
    receiver; the source only calls it on the fresh points that
    [getPoints] hands out, so the result is all that is observed. *)
Definition rotateAround (center : Vector2) (angle : R) (v : Vector2) : Vector2 :=
  let c := cos angle in
  let s := sin angle in
  let dx := x v - x center in
  let dy := y v - y center in
  mkVector2 (dx * c - dy * s + x center) (dx * s + dy * c + y center).

(** [Vector2.equals(v)]: both coordinates agree. *)
Definition equals (v w : Vector2) : bool :=
  if Req_dec_T (x v) (x w) then
    if Req_dec_T (y v) (y w) then true else false
  else false.

(** [THREE.Path], as far as straight segments go: the list of
    [LineCurve]s laid down so far, each with its two end points, and the
    pen position.  [THREE.Shape] adds nothing the source uses. *)
Record Path : Type := mkPath {
  curves : list (Vector2 * Vector2);
  currentPoint : Vector2
}.

(** [new THREE.Shape()]. *)
Definition emptyPath : Path := mkPath [] (mkVector2 0 0).

(** [Path.moveTo(x, y)] only moves the pen. *)
Definition moveTo (px py : R) (s : Path) : Path :=
  mkPath (curves s) (mkVector2 px py).

(** [Path.lineTo(x, y)] appends a segment from the pen to the point. *)
Definition lineTo (px py : R) (s : Path) : Path :=
  mkPath (curves s ++ [(currentPoint s, mkVector2 px py)]) (mkVector2 px py).

(** [Path.setFromPoints(points)]: [moveTo] the first point, [lineTo] the
    others.  Reading [points[0].x] of an empty array throws. *)
Definition setFromPoints (points : list Vector2) (s : Path) : Completion Path :=
  match points with
  | [] => Throw TypeError
  | p0 :: rest =>
      Normal (fold_left (fun s' p => lineTo (x p) (y p) s') rest
                (moveTo (x p0) (y p0) s))
  end.

(** [new THREE.Shape(points)]. *)
Definition Shape (points : list Vector2) : Completion Path :=
  setFromPoints points emptyPath.

(** One step of the inner loop of [CurvePath.getPoints]: a point equal
    to the last one kept is skipped. *)
Definition pushPoint (acc : list Vector2 * option Vector2) (point : Vector2)
    : list Vector2 * option Vector2 :=
  match snd acc with
  | Some last =>
      if equals last point then acc else (fst acc ++ [point], Some point)
  | None => (fst acc ++ [point], Some point)
  end.

(** [CurvePath.getPoints()]: a [LineCurve] contributes its two end
    points; [autoClose] is off for paths and shapes. *)
Definition getPoints (s : Path) : list Vector2 :=
  fst (fold_left
         (fun acc curve => fold_left pushPoint [fst curve; snd curve] acc)
         (curves s) ([], None)).

End THREE.

Definition ORIGIN_VEC2 : THREE.Vector2 := THREE.mkVector2 0 0.

(** ** Involute curve *)

Definition involutePoint (t baseRadius : R) : THREE.Vector2 :=
  THREE.mkVector2
    (baseRadius * (cos t + t * sin t))
    (baseRadius * (sin t - t * cos t)).

(** The [while] loop of [generateInvoluteCurve].  The loop state is
    [(t, point, pointsArray)]; the guard is tested first, and an iteration
    costs one unit of fuel.  [OutOfFuel] means the fuel ran out. *)
Fixpoint involuteLoop (fuel : nat) (baseRadius maxRadius step : R)
    (t : R) (point : THREE.Vector2) (pointsArray : list THREE.Vector2)
    {struct fuel} : Completion (list THREE.Vector2) :=
  if Rlt_dec (THREE.length point) maxRadius then
    match fuel with
    | O => OutOfFuel
    | S fuel' =>
        let point' := involutePoint t baseRadius in
        involuteLoop fuel' baseRadius maxRadius step
          (t + step) point' (pointsArray ++ [point'])
    end
  else Normal pointsArray.

(** [generateInvoluteCurve].  The reals have no [NaN] and no [Infinity]:
    where the source would compute with them (a base radius of 0 with a
    huge step, [maxRadius < baseRadius]) the model does not follow it.
    The statements about the sampler assume [0 < baseRadius <= maxRadius],
    or concern the loop at step 0 or at the default step. *)
Definition generateInvoluteCurve (fuel : nat) (baseRadius maxRadius step : R)
    : Completion (list THREE.Vector2) :=
  let endPointParam := sqrt (maxRadius ^ 2 / baseRadius ^ 2 - 1) in
  pointsArray ← involuteLoop fuel baseRadius maxRadius step
                  0 (involutePoint 0 baseRadius) [];
  mret (pointsArray ++ [involutePoint endPointParam baseRadius]).

(** ** Conversion utilities *)

Definition polToCar (r w : R) : THREE.Vector2 :=
  THREE.mkVector2 (r * cos w) (r * sin w).

Definition degToRad (angle : R) : R := angle * PI / 180.

Definition radToDeg (angle : R) : R := 180 * angle / PI.

(** ** Rotating and reflecting point arrays *)

Definition rotateVec2Array (array : list THREE.Vector2) (angle : R)
    (origin : THREE.Vector2) : list THREE.Vector2 :=
  map (fun vec => THREE.rotateAround origin angle vec) array.

(** [rotateShape].  The test [rotationAngle % (2 * PI) == 0] is read over
    the reals, where it holds at every whole number of turns; with
    floating-point numbers it is certain at the angle 0 only. *)
Definition rotateShape (shape : THREE.Path) (rotationAngle : R)
    : Completion THREE.Path :=
  if Req_dec_T (js_rem rotationAngle (2 * PI)) 0 then
    mret shape
  else
    THREE.Shape (rotateVec2Array (THREE.getPoints shape) rotationAngle ORIGIN_VEC2).

Definition reflectVec2Array (array : list THREE.Vector2) (angle : R)
    : list THREE.Vector2 :=
  map (fun vec =>
         THREE.mkVector2
           (cos (2 * angle) * THREE.x vec + sin (2 * angle) * THREE.y vec)
           (sin (2 * angle) * THREE.x vec - cos (2 * angle) * THREE.y vec))
      array.

(** ** Gear parameters *)

Module Params.

(** The object [generateGearParams] returns.  [mod] is a keyword of
    Rocq, so the module of the gear is spelled [mod_]. *)
Record t : Type := mk {
  pressureAngle : R;
  pressureAngleDeg : R;
  pitchAngle : R;
  pitchCircleRadius : R;
  baseCircleRadius : R;
  addendum : R;
  dedendum : R;
  maxRadius : R;
  minRadius : R;
  alpha : R;
  teeth : nat;
  mod_ : R
}.

End Params.

Definition generateGearParams (teeth : nat) (mod_ : R) (pressureAngleDeg : R)
    : Params.t :=
  let pressureAngle := degToRad pressureAngleDeg in
  let pitchAngle := 2 * PI / INR teeth in
  let pitchCircleRadius := mod_ * INR teeth / 2 in
  let baseCircleRadius := pitchCircleRadius * cos pressureAngle in
  let addendum := mod_ in
  let dedendum := 1.2 * mod_ in
  let maxRadius := pitchCircleRadius + addendum in
  let minRadius := pitchCircleRadius - dedendum in
  let alpha :=
    sqrt (pitchCircleRadius ^ 2 - baseCircleRadius ^ 2) / baseCircleRadius
    - pressureAngle in
  {| Params.pressureAngle := pressureAngle;
     Params.pressureAngleDeg := pressureAngleDeg;
     Params.pitchAngle := pitchAngle;
     Params.pitchCircleRadius := pitchCircleRadius;
     Params.baseCircleRadius := baseCircleRadius;
     Params.addendum := addendum;
     Params.dedendum := dedendum;
     Params.maxRadius := maxRadius;
     Params.minRadius := minRadius;
     Params.alpha := alpha;
     Params.teeth := teeth;
     Params.mod_ := mod_ |}.

(** ** Tooth segment and gear outline *)

Definition generateGearSegment (fuel : nat)
    (pitchAngle baseRadius maxRadius minRadius alpha : R)
    : Completion THREE.Path :=
  involutePoints1 ← generateInvoluteCurve fuel baseRadius maxRadius INVOLUTE_STEP;
  let involutePoints2 := reflectVec2Array involutePoints1 (pitchAngle / 4 + alpha) in
  let involuteToothProfile := involutePoints1 ++ rev involutePoints2 in
  let segmentShape := THREE.emptyPath in
  let segmentShape := THREE.moveTo baseRadius 0 segmentShape in
  segmentShape ← THREE.setFromPoints involuteToothProfile segmentShape;
  let pt := polToCar minRadius (pitchAngle * 0.5 + 2 * alpha) in
  let segmentShape := THREE.lineTo (THREE.x pt) (THREE.y pt) segmentShape in
  let pt := polToCar minRadius pitchAngle in
  let segmentShape := THREE.lineTo (THREE.x pt) (THREE.y pt) segmentShape in
  let segmentShape := THREE.lineTo 0 0 segmentShape in
  rotateShape segmentShape (-1 * alpha).

(** The [for] loop of [generateGearShapeFromParams], counting [i] up from
    its current value for [n] more rounds. *)
Fixpoint pushSegments (segment : THREE.Path) (pitchAngle : R)
    (i n : nat) (segments : list THREE.Path) : Completion (list THREE.Path) :=
  match n with
  | O => mret segments
  | S n' =>
      rotated ← rotateShape segment (INR i * pitchAngle);
      pushSegments segment pitchAngle (S i) n' (segments ++ [rotated])
  end.

Definition generateGearShapeFromParams (fuel : nat) (params : Params.t)
    : Completion (list THREE.Path) :=
  segment ← generateGearSegment fuel
              (Params.pitchAngle params) (Params.baseCircleRadius params)
              (Params.maxRadius params) (Params.minRadius params)
              (Params.alpha params);
  pushSegments segment (Params.pitchAngle params) 0 (Params.teeth params) [].

(** ** The heap of gears *)

(** A gear is named by its index in the heap. *)
Abbreviation ref := nat (only parsing).

(** [THREE.Mesh], as far as the source reads and writes it: the outline
    that was extruded, [position.x], [position.y] and [rotation.z].  The
    material and its random colour are left out. *)
Record Mesh : Type := mkMesh {
  geometry : list THREE.Path;
  position_x : R;
  position_y : R;
  rotation_z : R
}.

Module Gear.

(** The fields of a [Gear] object. *)
Record t : Type := mk {
  teeth : nat;
  mod_ : R;
  parameters : Params.t;
  mesh : Mesh;
  angle : R;
  x : R;
  y : R;
  childGears : gset ref;
  pinion : option ref;
  ratio : R;
  rotationSpeed : R
}.

(** The heap: every gear allocated so far, in the order of allocation. *)
Abbreviation Heap := (list t) (only parsing).

(** Methods are state transformers over the heap that may end abruptly. *)
Definition M (A : Type) : Type := Heap -> Completion (A * Heap).

#[global] Instance M_ret : MRet M := fun A a h => Normal (a, h).
#[global] Instance M_bind : MBind M :=
  fun A B f m h =>
    match m h with
    | Normal (a, h') => f a h'
    | Throw e => Throw e
    | OutOfFuel => OutOfFuel
    end.

(** Running a pure computation inside a method. *)
Definition lift {A : Type} (c : Completion A) : M A :=
  fun h =>
    match c with
    | Normal a => Normal (a, h)
    | Throw e => Throw e
    | OutOfFuel => OutOfFuel
    end.

(** [new]: the object gets the next free index. *)
Definition alloc (g : t) : M ref :=
  fun h => Normal (List.length h, h ++ [g]).

(** Reading through a reference; a reference that names no gear has no
    properties to read. *)
Definition load (r : ref) : M t :=
  fun h =>
    match h !! r with
    | Some g => Normal (g, h)
    | None => Throw TypeError
    end.

Definition store (r : ref) (g : t) : M unit :=
  fun h => Normal (tt, <[r := g]> h).

(** Field assignments. *)
Definition set_mesh (m : Mesh) (g : t) : t :=
  mk (teeth g) (mod_ g) (parameters g) m (angle g) (x g) (y g)
     (childGears g) (pinion g) (ratio g) (rotationSpeed g).

Definition set_angle (a : R) (g : t) : t :=
  mk (teeth g) (mod_ g) (parameters g) (mesh g) a (x g) (y g)
     (childGears g) (pinion g) (ratio g) (rotationSpeed g).

Definition set_xy (x' y' : R) (g : t) : t :=
  mk (teeth g) (mod_ g) (parameters g) (mesh g) (angle g) x' y'
     (childGears g) (pinion g) (ratio g) (rotationSpeed g).

Definition set_childGears (s : gset ref) (g : t) : t :=
  mk (teeth g) (mod_ g) (parameters g) (mesh g) (angle g) (x g) (y g)
     s (pinion g) (ratio g) (rotationSpeed g).

Definition set_ratio (r : R) (g : t) : t :=
  mk (teeth g) (mod_ g) (parameters g) (mesh g) (angle g) (x g) (y g)
     (childGears g) (pinion g) r (rotationSpeed g).

Definition set_rotationSpeed (s : R) (g : t) : t :=
  mk (teeth g) (mod_ g) (parameters g) (mesh g) (angle g) (x g) (y g)
     (childGears g) (pinion g) (ratio g) s.

(** [get rotation()] and [set rotation(rot)]. *)
Definition rotation (g : t) : R := rotation_z (mesh g).

Definition set_rotation (rot : R) (g : t) : t :=
  set_mesh (mkMesh (geometry (mesh g)) (position_x (mesh g))
              (position_y (mesh g)) rot) g.

(** [createGeometry]: the outline, wrapped in a new mesh, which three.js
    creates at the origin and unrotated. *)
Definition createGeometry (fuel : nat) (parameters : Params.t) : Completion Mesh :=
  shape ← generateGearShapeFromParams fuel parameters;
  mret (mkMesh shape 0 0 0).

Definition driveBy (this : ref) (angle : R) : M unit :=
  g ← load this;
  store this (set_rotation (rotation g + angle * rotationSpeed g) g).

Definition setPosition (this : ref) (x' y' : R) : M unit :=
  g ← load this;
  let g := set_xy x' y' g in
  store this
    (set_mesh (mkMesh (geometry (mesh g)) x' y' (rotation_z (mesh g))) g).

Definition calculateRatio (this : ref) : M unit :=
  g ← load this;
  match pinion g with
  | Some p =>
      pg ← load p;
      let g := set_ratio (INR (teeth pg) / INR (teeth g)) g in
      store this (set_rotationSpeed (-1 * rotationSpeed pg * ratio g) g)
  | None =>
      store this (set_rotationSpeed 1 (set_ratio 1 g))
  end.

Definition positionGear (this : ref) : M unit :=
  g ← load this;
  match pinion g with
  | Some p =>
      pg ← load p;
      let centreDistance :=
        (mod_ g * INR (teeth g) + mod_ g * INR (teeth pg)) / 2 in
      let offsetX := centreDistance * cos (angle g) in
      let offsetY := centreDistance * sin (angle g) in
      setPosition this (x pg + offsetX) (y pg + offsetY)
  | None => mret tt
  end.

Definition rotateGear (this : ref) : M unit :=
  g ← load this;
  match pinion g with
  | Some p =>
      store this (set_rotation (rotation g + (PI + angle g)) g);;
      g ← load this;
      pg ← load p;
      store this
        (set_rotation (rotation g + (angle g - rotation pg) * ratio g) g)
  | None => mret tt
  end.

(** The constructor.  [ratio] and [rotationSpeed] do not exist on the
    object until [calculateRatio] has run, which is the constructor's last
    step; the zeros they are allocated with are never read. *)
Definition new (fuel : nat) (teeth : nat) (mod_ : R) (pressureAngleDeg : R)
    (pinion : option ref) : M ref :=
  let parameters := generateGearParams teeth mod_ pressureAngleDeg in
  mesh ← lift (createGeometry fuel parameters);
  this ← alloc (mk teeth mod_ parameters mesh 0 0 0 ∅ pinion 0 0);
  calculateRatio this;;
  mret this.

Definition addGear (fuel : nat) (this : ref) (teeth : nat) (angle : R) : M ref :=
  g ← load this;
  newGear ← new fuel teeth (mod_ g) (Params.pressureAngleDeg (parameters g))
              (Some this);
  g ← load this;
  store this (set_childGears ({[newGear]} ∪ childGears g) g);;
  child ← load newGear;
  store newGear (set_angle angle child);;
  positionGear newGear;;
  rotateGear newGear;;
  mret newGear.

End Gear.

(** ** Valid inputs

    What the specification calls valid gear parameters: a positive whole
    number of teeth, a positive module and a pressure angle strictly
    between 0 and a right angle. *)
Definition valid_input (teeth : nat) (mod_ : R) (pressureAngleDeg : R) : Prop :=
  (1 <= teeth)%nat /\ 0 < mod_ /\
  0 < degToRad pressureAngleDeg < PI / 2.

(** ** Reading outlines

    Definitions the statements and proofs about [getPoints] are phrased
    with; none of them is part of the program. *)

(** What [getPoints] keeps of a run of points when [last] was the last
    point kept: every point that differs from its predecessor. *)
Fixpoint skipRepeats (last : option THREE.Vector2) (pts : list THREE.Vector2)
    : list THREE.Vector2 :=
  match pts with
  | [] => []
  | p :: rest =>
      match last with
      | Some l =>
          if THREE.equals l p then skipRepeats last rest
          else p :: skipRepeats (Some p) rest
      | None => p :: skipRepeats (Some p) rest
      end
  end.

(** The segments of the polyline that starts at [p] and visits [rest]. *)
Fixpoint chainCurves (p : THREE.Vector2) (rest : list THREE.Vector2)
    : list (THREE.Vector2 * THREE.Vector2) :=
  match rest with
  | [] => []
  | q :: rest' => (p, q) :: chainCurves q rest'
  end.

(** The end points of a list of segments, in the order [getPoints]
    visits them. *)
Definition endPoints (curves : list (THREE.Vector2 * THREE.Vector2))
    : list THREE.Vector2 :=
  flat_map (fun curve => [fst curve; snd curve]) curves.

(** Rotation about the origin, as [rotateShape] applies it to a point. *)
Definition rotated (angle : R) (v : THREE.Vector2) : THREE.Vector2 :=
  THREE.rotateAround ORIGIN_VEC2 angle v.

(** An outline with at least two points: a shape rebuilt from fewer has
    no segment at all. *)
Definition proper_outline (s : THREE.Path) : Prop :=
  (2 <= List.length (THREE.getPoints s))%nat.

(** ** The gear [addGear] leaves in the heap

    The closed form of the object that [addGear teeth angle], called on
    the gear [g] stored at [this], has built when it returns; [mesh] is
    the mesh [createGeometry] made for it.  [addGear_spec] proves that
    this is what the method computes. *)
Definition attachedGear (this : ref) (g : Gear.t) (mesh : Mesh)
    (teeth : nat) (angle : R) : Gear.t :=
  let ratio := INR (Gear.teeth g) / INR teeth in
  let centreDistance :=
    (Gear.mod_ g * INR teeth + Gear.mod_ g * INR (Gear.teeth g)) / 2 in
  let x := Gear.x g + centreDistance * cos angle in
  let y := Gear.y g + centreDistance * sin angle in
  Gear.mk teeth (Gear.mod_ g)
    (generateGearParams teeth (Gear.mod_ g)
       (Params.pressureAngleDeg (Gear.parameters g)))
    (mkMesh (geometry mesh) x y
       (rotation_z mesh + (PI + angle) + (angle - Gear.rotation g) * ratio))
    angle x y ∅ (Some this) ratio (-1 * Gear.rotationSpeed g * ratio).

(** ** The gear tree

    The relations the statements about the shape of the tree are phrased
    with. *)

(** [p] is the pinion of [c]. *)
Definition pinion_of (h : Gear.Heap) (c p : ref) : Prop :=
  exists g, h !! c = Some g /\ Gear.pinion g = Some p.

(** [c] is in the child set of [p]. *)
Definition child_of (h : Gear.Heap) (c p : ref) : Prop :=
  exists g, h !! p = Some g /\ c ∈ Gear.childGears g.

(** Every pinion was allocated before the gears it drives, and a gear is
    in the child set of its pinion only. *)
Definition tree_wf (h : Gear.Heap) : Prop :=
  (forall c p, pinion_of h c p -> (p < c)%nat) /\
  (forall c p, child_of h c p -> pinion_of h c p).

(** Two gears with the same links to other gears. *)
Definition same_links (g g' : Gear.t) : Prop :=
  Gear.pinion g' = Gear.pinion g /\ Gear.childGears g' = Gear.childGears g.

(** One call of a constructor or method of the class that returns; the
    references passed in name gears of the heap. *)
Inductive call (h h' : Gear.Heap) : Prop :=
| call_new (fuel teeth : nat) (mod_ pressureAngleDeg : R)
    (pinion : option ref) (this : ref) :
    (forall p, pinion = Some p -> is_Some (h !! p)) ->
    Gear.new fuel teeth mod_ pressureAngleDeg pinion h = Normal (this, h') ->
    call h h'
| call_addGear (fuel : nat) (this : ref) (teeth : nat) (angle : R)
    (newGear : ref) :
    Gear.addGear fuel this teeth angle h = Normal (newGear, h') ->
    call h h'
| call_driveBy (this : ref) (angle : R) :
    Gear.driveBy this angle h = Normal (tt, h') ->
    call h h'
| call_setPosition (this : ref) (x y : R) :
    Gear.setPosition this x y h = Normal (tt, h') ->
    call h h'
| call_calculateRatio (this : ref) :
    Gear.calculateRatio this h = Normal (tt, h') ->
    call h h'
| call_positionGear (this : ref) :
    Gear.positionGear this h = Normal (tt, h') ->
    call h h'
| call_rotateGear (this : ref) :
    Gear.rotateGear this h = Normal (tt, h') ->
    call h h'.

(** The heaps a program can build from nothing with such calls. *)
Definition reachable (h : Gear.Heap) : Prop := rtc call [] h.

(** ** Utilities the gear code carries along *)

(** [Math.floor]. *)
Definition Math_floor (r : R) : Z := Int_part r.

(** [Math.atan2], without the distinction JavaScript makes between the
    two zeros: the angle of the point [(x, y)], in (-π, π], and 0 at the
    origin. *)
Definition Math_atan2 (y x : R) : R :=
  if Rlt_dec 0 x then atan (y / x)
  else if Rlt_dec x 0 then
    if Rle_dec 0 y then atan (y / x) + PI else atan (y / x) - PI
  else if Rlt_dec 0 y then PI / 2
  else if Rlt_dec y 0 then - (PI / 2)
  else 0.

(** The palette. *)
Definition COLORS : list Z :=
  [ 0x96a365; 0x93a35a; 0x9ae2f0; 0xd861bb; 0xa939a7; 0xf6d1cb; 0xe5d1d0;
    0x3881f0; 0x064dbf; 0xf6d061; 0xf5d44f; 0xc73a4a; 0xdc4530 ]%Z.

(** [choose]; [random] is the number [Math.random()] hands out, and
    [None] is [undefined], what indexing outside the array gives. *)
Definition choose {A : Type} (random : R) (array : list A) : option A :=
  let index := Math_floor (random * INR (List.length array)) in
  if (index <? 0)%Z then None else array !! Z.to_nat index.

Module Polar.

(** The object [carToPol] returns. *)
Record t : Type := mk { r : R; w : R }.

End Polar.

Definition carToPol (x y : R) : Polar.t :=
  Polar.mk (sqrt (x * x + y * y)) (Math_atan2 y x).

(** ** The state of a gear train

    Relations the further statements about trains are phrased with. *)

(** The mesh sits where the gear says it is. *)
Definition synced (g : Gear.t) : Prop :=
  position_x (Gear.mesh g) = Gear.x g /\
  position_y (Gear.mesh g) = Gear.y g.

(** [g] has the ratio and the speed [calculateRatio] derives from the
    pinion [gp]. *)
Definition driven_by (gp g : Gear.t) : Prop :=
  Gear.ratio g = INR (Gear.teeth gp) / INR (Gear.teeth g) /\
  Gear.rotationSpeed g = -1 * Gear.rotationSpeed gp * Gear.ratio g.

(** What holds of every gear of a train: the mesh is in place, the
    cached parameters are those of its teeth and module, and ratio and
    speed are those of its place in the train. *)
Definition gear_wf (h : Gear.Heap) (g : Gear.t) : Prop :=
  synced g /\
  Gear.parameters g
  = generateGearParams (Gear.teeth g) (Gear.mod_ g)
      (Params.pressureAngleDeg (Gear.parameters g)) /\
  match Gear.pinion g with
  | None => Gear.ratio g = 1 /\ Gear.rotationSpeed g = 1
  | Some p => exists gp, h !! p = Some gp /\ driven_by gp g
  end.

(** Every gear is well formed, and a gear in a child set has the module
    and the pressure angle of the gear that holds it. *)
Definition train_wf (h : Gear.Heap) : Prop :=
  (forall c g, h !! c = Some g -> gear_wf h g) /\
  (forall c p gc gp,
     child_of h c p -> h !! c = Some gc -> h !! p = Some gp ->
     Gear.mod_ gc = Gear.mod_ gp /\
     Params.pressureAngleDeg (Gear.parameters gc)
     = Params.pressureAngleDeg (Gear.parameters gp)).

(** [g'] is [g] moved, turned or given children: teeth, module,
    parameters, pinion, ratio and speed are the same, and the mesh has
    followed the position. *)
Definition kept (g g' : Gear.t) : Prop :=
  Gear.teeth g' = Gear.teeth g /\
  Gear.mod_ g' = Gear.mod_ g /\
  Gear.parameters g' = Gear.parameters g /\
  Gear.pinion g' = Gear.pinion g /\
  Gear.ratio g' = Gear.ratio g /\
  Gear.rotationSpeed g' = Gear.rotationSpeed g /\
  (synced g -> synced g').

(** The teeth of [g] are engaged with those of its pinion [gp]: the
    relation [rotateGear] establishes. *)
Definition meshed (gp g : Gear.t) : Prop :=
  Gear.rotation g
  = PI + Gear.angle g + (Gear.angle g - Gear.rotation gp) * Gear.ratio g.

(** [c] is driven from the root [root] through [d] meshes. *)
Inductive driven_from (h : Gear.Heap) : ref -> ref -> nat -> Prop :=
| driven_root (c : ref) (g : Gear.t) :
    h !! c = Some g -> Gear.pinion g = None -> driven_from h c c 0
| driven_step (c p root : ref) (d : nat) :
    pinion_of h c p -> driven_from h p root d ->
    driven_from h c root (S d).

(** ** Rebuilding a gear *)

(** The assignment [this.parameters = ...]. *)
Definition set_parameters (params : Params.t) (g : Gear.t) : Gear.t :=
  Gear.mk (Gear.teeth g) (Gear.mod_ g) params (Gear.mesh g) (Gear.angle g)
    (Gear.x g) (Gear.y g) (Gear.childGears g) (Gear.pinion g)
    (Gear.ratio g) (Gear.rotationSpeed g).

(** [reset]: the parameters are computed again from the teeth, the
    module and the pressure angle, and [createGeometry] makes a new mesh
    from them, which becomes [this.mesh] and is returned.  Disposing of
    the old geometry and material touches nothing that is modelled. *)
Definition reset (fuel : nat) (this : ref) : Gear.M Mesh :=
  g ← Gear.load this;
  Gear.store this
    (set_parameters
       (generateGearParams (Gear.teeth g) (Gear.mod_ g)
          (Params.pressureAngleDeg (Gear.parameters g))) g);;
  g ← Gear.load this;
  mesh ← Gear.lift (Gear.createGeometry fuel (Gear.parameters g));
  g ← Gear.load this;
  Gear.store this (Gear.set_mesh mesh g);;
  mret mesh.

(** ** Moving the gears below a gear *)

(** [Set.forEach] visits the members of a set one by one. *)
Fixpoint forEach (f : ref -> Gear.M unit) (members : list ref) : Gear.M unit :=
  match members with
  | [] => mret tt
  | member :: rest => f member;; forEach f rest
  end.

Section ForEach.

(** The order in which [forEach] visits a set (in JavaScript, the order
    in which the members were added). *)
Variable order : gset ref -> list ref.

(** [positionChildGears].  A [Gear] always has a [childGears] set, so the
    test in front of the loop never fails.  One unit of fuel is spent
    per level of the tree. *)
Fixpoint positionChildGears (fuel : nat) (gear : ref) (offsetX offsetY : R)
    {struct fuel} : Gear.M unit :=
  match fuel with
  | O => fun _ => OutOfFuel
  | S fuel' =>
      g ← Gear.load gear;
      forEach
        (fun cg =>
           c ← Gear.load cg;
           Gear.setPosition cg (Gear.x c + offsetX) (Gear.y c + offsetY);;
           positionChildGears fuel' cg offsetX offsetY)
        (order (Gear.childGears g))
  end.

End ForEach.

(** An order of visit lists every member of the set once. *)
Definition visits_once (order : gset ref -> list ref) : Prop :=
  forall s, NoDup (order s) /\ forall c, c ∈ order s <-> c ∈ s.

(** The gear [g] after [setPosition (g.x + offsetX) (g.y + offsetY)]. *)
Definition moved (offsetX offsetY : R) (g : Gear.t) : Gear.t :=
  Gear.set_mesh
    (mkMesh (geometry (Gear.mesh g)) (Gear.x g + offsetX) (Gear.y g + offsetY)
       (rotation_z (Gear.mesh g)))
    (Gear.set_xy (Gear.x g + offsetX) (Gear.y g + offsetY) g).

(** [h'] is [h] with the gears in [D] moved by the offset and all others
    as they were. *)
Definition shifted (offsetX offsetY : R) (D : ref -> Prop)
    (h h' : Gear.Heap) : Prop :=
  List.length h' = List.length h /\
  forall j,
    (D j -> exists gj, h !! j = Some gj /\
                       h' !! j = Some (moved offsetX offsetY gj)) /\
    (~ D j -> h' !! j = h !! j).

(** [j] is below [gear]: in its child set, or in the child set of a gear
    below it. *)
Definition below (h : Gear.Heap) (gear j : ref) : Prop :=
  tc (child_of h) j gear.

(** Children are allocated after their parent, and a gear is in one
    child set at most. *)
Definition forest (h : Gear.Heap) : Prop :=
  (forall c p, child_of h c p -> (p < c)%nat /\ is_Some (h !! c)) /\
  (forall c p1 p2, child_of h c p1 -> child_of h c p2 -> p1 = p2).

(** ** Turning the plane

    The plane turned about the origin by [angle], written out in
    coordinates: the rotation a statement about the symmetry of the
    outline speaks of, independent of the code that rotates shapes. *)
Definition turnedAboutOrigin (angle : R) (v : THREE.Vector2) : THREE.Vector2 :=
  THREE.mkVector2
    (THREE.x v * cos angle - THREE.y v * sin angle)
    (THREE.x v * sin angle + THREE.y v * cos angle).

(** ** Every way the class changes a gear

    [createGeometry] called on a gear of the heap: the mesh it builds
    becomes [this.mesh] (the geometry and the material are parts of the
    mesh). *)
Definition createGeometryOn (fuel : nat) (this : ref) (parameters : Params.t)
    : Gear.M Mesh :=
  mesh ← Gear.lift (Gear.createGeometry fuel parameters);
  g ← Gear.load this;
  Gear.store this (Gear.set_mesh mesh g);;
  mret mesh.

(** An assignment to the [rotation] property, through its setter. *)
Definition assignRotation (this : ref) (rot : R) : Gear.M unit :=
  g ← Gear.load this;
  Gear.store this (Gear.set_rotation rot g).

(** One call of the constructor, of a method or of the setter that
    returns.  [addToScene] and the [rotation] getter change no gear;
    they are steps that leave the heap as it is. *)
Inductive method_call (h h' : Gear.Heap) : Prop :=
| method_call_call : call h h' -> method_call h h'
| method_call_reset (fuel : nat) (this : ref) (mesh : Mesh) :
    reset fuel this h = Normal (mesh, h') ->
    method_call h h'
| method_call_createGeometry (fuel : nat) (this : ref)
    (parameters : Params.t) (mesh : Mesh) :
    createGeometryOn fuel this parameters h = Normal (mesh, h') ->
    method_call h h'
| method_call_rotation (this : ref) (rot : R) :
    assignRotation this rot h = Normal (tt, h') ->
    method_call h h'.

(** The heaps a program can build from nothing with the class. *)
Definition built (h : Gear.Heap) : Prop := rtc method_call [] h.

(** A link that [h'] has and [h] has not. *)
Definition attached_since (h h' : Gear.Heap) (c p : ref) : Prop :=
  (pinion_of h' c p /\ ~ pinion_of h c p) \/
  (child_of h' c p /\ ~ child_of h c p).

(** * Properties *)

(** ** The involute sampler *)

Section Involute.

Variables (baseRadius maxRadius step : R).

(** A point of the involute at parameter [t] lies at distance
    [|baseRadius| * sqrt (1 + t²)] from the origin. *)
Lemma length_involutePoint (t : R) :
  THREE.length (involutePoint t baseRadius)
  = Rabs baseRadius * sqrt (1 + t * t).
Proof.
  unfold THREE.length, involutePoint; simpl.
  rewrite <- sqrt_Rsqr_abs, <- sqrt_mult_alt by apply Rle_0_sqr.
  f_equal. unfold Rsqr.
  pose proof (sin2_cos2 t) as H. unfold Rsqr in H.
  transitivity (baseRadius * baseRadius
                * (sin t * sin t + cos t * cos t) * (1 + t * t)).
  - ring.
  - rewrite H. ring.
Qed.

Lemma length_involutePoint_0 :
  THREE.length (involutePoint 0 baseRadius) = Rabs baseRadius.
Proof.
  rewrite length_involutePoint.
  replace (1 + 0 * 0) with 1 by ring. rewrite sqrt_1. ring.
Qed.

(** Fuel beyond what the loop needs changes nothing. *)
Lemma involuteLoop_mono (fuel fuel' : nat) t point acc pts :
  involuteLoop fuel baseRadius maxRadius step t point acc = Normal pts ->
  (fuel <= fuel')%nat ->
  involuteLoop fuel' baseRadius maxRadius step t point acc = Normal pts.
Proof.
  revert fuel' t point acc.
  induction fuel as [|fuel IH]; intros fuel' t point acc; simpl.
  - destruct (Rlt_dec (THREE.length point) maxRadius); [discriminate|].
    intros H _. destruct fuel'; simpl;
      destruct (Rlt_dec (THREE.length point) maxRadius); tauto.
  - destruct (Rlt_dec (THREE.length point) maxRadius) as [Hlt|Hge].
    + intros H Hle. destruct fuel' as [|fuel']; [lia|]. simpl.
      destruct (Rlt_dec (THREE.length point) maxRadius); [|tauto].
      apply IH; [exact H | lia].
    + intros H _. destruct fuel'; simpl;
        destruct (Rlt_dec (THREE.length point) maxRadius); tauto.
Qed.

(** The loop only ever appends to the array, and appends at least once
    when it is entered. *)
Lemma involuteLoop_appends (fuel : nat) t point acc pts :
  involuteLoop fuel baseRadius maxRadius step t point acc = Normal pts ->
  exists extra, pts = acc ++ extra /\
    (THREE.length point < maxRadius -> (1 <= List.length extra)%nat) /\
    (~ THREE.length point < maxRadius -> extra = []).
Proof.
  revert t point acc.
  induction fuel as [|fuel IH]; intros t point acc; simpl;
    destruct (Rlt_dec (THREE.length point) maxRadius) as [Hlt|Hge];
    try discriminate.
  - intros [= <-]. exists []. rewrite app_nil_r. tauto.
  - intros H. apply IH in H as (extra & -> & _).
    exists (involutePoint t baseRadius :: extra). rewrite <- app_assoc. simpl.
    split; [reflexivity|]. split; [lia | tauto].
  - intros [= <-]. exists []. rewrite app_nil_r. tauto.
Qed.

Hypothesis step_pos : 0 < step.
Hypothesis base_pos : 0 < baseRadius.

(** Once [k] more steps carry the parameter far enough, [k + 1] rounds
    of the loop are all it takes. *)
Lemma involuteLoop_terminates (k : nat) :
  forall t point acc,
    0 <= t ->
    maxRadius <= baseRadius * (t + INR k * step) ->
    exists pts,
      involuteLoop (S k) baseRadius maxRadius step t point acc = Normal pts.
Proof.
  induction k as [|k IH]; intros t point acc Ht Hfar.
  - simpl. destruct (Rlt_dec (THREE.length point) maxRadius); [|eauto].
    destruct (Rlt_dec (THREE.length (involutePoint t baseRadius)) maxRadius)
      as [Hlt|]; [|eauto].
    exfalso. rewrite length_involutePoint, Rabs_pos_eq in Hlt by lra.
    assert (t <= sqrt (1 + t * t)).
    { rewrite <- (sqrt_square t) at 1 by lra. apply sqrt_le_1_alt. lra. }
    simpl in Hfar. nra.
  - cbn [involuteLoop].
    destruct (Rlt_dec (THREE.length point) maxRadius); [|eauto].
    apply IH; [lra|]. rewrite S_INR in Hfar. lra.
Qed.

Lemma involuteLoop_returns :
  exists n, forall fuel, (n <= fuel)%nat ->
    exists pts,
      involuteLoop fuel baseRadius maxRadius step
        0 (involutePoint 0 baseRadius) [] = Normal pts.
Proof.
  destruct (INR_archimed step (maxRadius / baseRadius) step_pos) as [k Hk].
  destruct (involuteLoop_terminates k 0 (involutePoint 0 baseRadius) [])
    as [pts Hpts]; [lra| |].
  - apply Rmult_lt_compat_l with (r := baseRadius) in Hk; [|lra].
    replace (baseRadius * (maxRadius / baseRadius)) with maxRadius in Hk
      by (field; lra).
    lra.
  - exists (S k). intros fuel Hfuel. exists pts.
    eapply involuteLoop_mono; eauto.
Qed.

(** The end point [generateInvoluteCurve] appends lies on the circle of
    radius [maxRadius]. *)
Lemma length_endPoint :
  baseRadius <= maxRadius ->
  THREE.length
    (involutePoint (sqrt (maxRadius ^ 2 / baseRadius ^ 2 - 1)) baseRadius)
  = maxRadius.
Proof.
  intros Hle. rewrite length_involutePoint, Rabs_pos_eq by lra.
  assert (Hq : 1 <= maxRadius ^ 2 / baseRadius ^ 2).
  { apply Rmult_le_reg_r with (r := baseRadius ^ 2); [nra|].
    replace (maxRadius ^ 2 / baseRadius ^ 2 * baseRadius ^ 2)
      with (maxRadius ^ 2) by (field; lra).
    nra. }
  rewrite sqrt_sqrt by lra.
  replace (1 + (maxRadius ^ 2 / baseRadius ^ 2 - 1))
    with ((maxRadius / baseRadius) * (maxRadius / baseRadius))
    by (field; lra).
  rewrite sqrt_square.
  - field; lra.
  - apply Rmult_le_reg_r with (r := baseRadius); [lra|].
    replace (maxRadius / baseRadius * baseRadius) with maxRadius
      by (field; lra).
    lra.
Qed.

End Involute.

(** When [maxRadius] equals [baseRadius] the guard fails on entry: the
    loop body never runs, whatever the fuel. *)
Lemma generateInvoluteCurve_at_base (fuel : nat) (b step : R) :
  0 < b ->
  generateInvoluteCurve fuel b b step
  = Normal [involutePoint (sqrt (b ^ 2 / b ^ 2 - 1)) b].
Proof.
  intros Hb. unfold generateInvoluteCurve.
  assert (Hloop : involuteLoop fuel b b step 0 (involutePoint 0 b) []
                  = Normal []).
  { destruct fuel; simpl;
      (destruct (Rlt_dec (THREE.length (involutePoint 0 b)) b) as [Hlt|];
       [|reflexivity]);
      rewrite length_involutePoint_0, Rabs_pos_eq in Hlt by lra; lra. }
  rewrite Hloop. reflexivity.
Qed.

(** C2, as stated, fails: with [baseRadius = maxRadius = 1] the sampler
    returns the end point alone, for every amount of fuel, so the claim
    that at least two points come back for all [0 < b <= m] is false. *)
Lemma generateInvoluteCurve_single_point :
  (forall fuel,
     generateInvoluteCurve fuel 1 1 INVOLUTE_STEP
     = Normal [involutePoint (sqrt (1 ^ 2 / 1 ^ 2 - 1)) 1]) /\
  ~ (forall b m : R, 0 < b -> b <= m ->
       exists fuel pts,
         generateInvoluteCurve fuel b m INVOLUTE_STEP = Normal pts /\
         (2 <= List.length pts)%nat).
Proof.
  split.
  - intros fuel. apply generateInvoluteCurve_at_base. lra.
  - intros H. destruct (H 1 1) as (fuel & pts & Hrun & Hlen); [lra | lra |].
    rewrite generateInvoluteCurve_at_base in Hrun by lra.
    injection Hrun as <-. simpl in Hlen. lia.
Qed.

(** C2, amended: for [0 < b <= m] and a positive step the sampler returns
    (with enough fuel), its last point is the exact end point computed at
    [sqrt ((m/b)² - 1)], and that point lies at distance [m] from the
    origin; it returns at least two points when [b < m], and the end
    point alone when [m = b]. *)
Theorem generateInvoluteCurve_exact_endpoint (b m step : R) :
  0 < b -> b <= m -> 0 < step ->
  exists n, forall fuel, (n <= fuel)%nat ->
    exists pts,
      generateInvoluteCurve fuel b m step = Normal pts /\
      last pts = Some (involutePoint (sqrt ((m / b) ^ 2 - 1)) b) /\
      THREE.length (involutePoint (sqrt ((m / b) ^ 2 - 1)) b) = m /\
      (b < m -> (2 <= List.length pts)%nat) /\
      (m = b -> List.length pts = 1%nat).
Proof.
  intros Hb Hle Hstep.
  destruct (involuteLoop_returns b m step Hstep Hb) as [n Hn].
  exists n. intros fuel Hfuel. destruct (Hn fuel Hfuel) as [loopPts Hloop].
  assert (Het : (m / b) ^ 2 = m ^ 2 / b ^ 2) by (field; lra).
  exists (loopPts ++ [involutePoint (sqrt ((m / b) ^ 2 - 1)) b]).
  unfold generateInvoluteCurve. rewrite Hloop, Het. simpl.
  split; [reflexivity|]. split; [apply last_snoc|].
  split; [apply length_endPoint; lra|].
  apply involuteLoop_appends in Hloop as (extra & -> & Hin & Hout).
  rewrite length_involutePoint_0, Rabs_pos_eq in Hin, Hout by lra.
  simpl. rewrite length_app. simpl. split.
  - intros Hlt. specialize (Hin Hlt). lia.
  - intros ->. rewrite Hout by lra. reflexivity.
Qed.

(** The amended C2 at [b = 1], [m = 2] and the default step. *)
Lemma generateInvoluteCurve_exact_endpoint_witness :
  exists n, forall fuel, (n <= fuel)%nat ->
    exists pts,
      generateInvoluteCurve fuel 1 2 INVOLUTE_STEP = Normal pts /\
      last pts = Some (involutePoint (sqrt ((2 / 1) ^ 2 - 1)) 1) /\
      THREE.length (involutePoint (sqrt ((2 / 1) ^ 2 - 1)) 1) = 2 /\
      (1 < 2 -> (2 <= List.length pts)%nat) /\
      (2 = 1 -> List.length pts = 1%nat).
Proof.
  apply (generateInvoluteCurve_exact_endpoint 1 2 INVOLUTE_STEP);
    unfold INVOLUTE_STEP; lra.
Defined.

(** ** Derived gear parameters *)

Section GearParams.

Variables (teeth : nat) (mod_ : R) (pressureAngleDeg : R).
Hypothesis valid : valid_input teeth mod_ pressureAngleDeg.

Lemma valid_teeth_pos : 0 < INR teeth.
Proof. destruct valid as (Ht & _). apply lt_0_INR. lia. Qed.

Lemma valid_cos_bounds : 0 < cos (degToRad pressureAngleDeg) < 1.
Proof.
  destruct valid as (_ & _ & Hlo & Hhi). pose proof PI_RGT_0. split.
  - apply cos_gt_0; lra.
  - rewrite <- cos_0. apply cos_decreasing_1; lra.
Qed.

Lemma valid_sin_pos : 0 < sin (degToRad pressureAngleDeg).
Proof.
  destruct valid as (_ & _ & Hlo & Hhi). pose proof PI_RGT_0.
  apply sin_gt_0; lra.
Qed.

Lemma valid_pitchCircleRadius_pos : 0 < Params.pitchCircleRadius
        (generateGearParams teeth mod_ pressureAngleDeg).
Proof.
  destruct valid as (_ & Hm & _). pose proof valid_teeth_pos. simpl. nra.
Qed.

Lemma valid_baseCircleRadius_pos : 0 < Params.baseCircleRadius
        (generateGearParams teeth mod_ pressureAngleDeg).
Proof.
  pose proof valid_pitchCircleRadius_pos. pose proof valid_cos_bounds.
  simpl in *. nra.
Qed.

Lemma valid_base_lt_max :
  Params.baseCircleRadius
        (generateGearParams teeth mod_ pressureAngleDeg) < Params.maxRadius (generateGearParams teeth mod_ pressureAngleDeg).
Proof.
  destruct valid as (_ & Hm & _).
  pose proof valid_pitchCircleRadius_pos. pose proof valid_cos_bounds.
  simpl in *. nra.
Qed.

End GearParams.

(** C7: for valid inputs the derived radii are ordered,
    [baseCircleRadius < pitchCircleRadius < maxRadius] and
    [minRadius < pitchCircleRadius]. *)
Theorem generateGearParams_radii_ordered
    (teeth : nat) (mod_ : R) (pressureAngleDeg : R) :
  valid_input teeth mod_ pressureAngleDeg ->
  let params := generateGearParams teeth mod_ pressureAngleDeg in
  Params.baseCircleRadius params < Params.pitchCircleRadius params /\
  Params.pitchCircleRadius params < Params.maxRadius params /\
  Params.minRadius params < Params.pitchCircleRadius params.
Proof.
  intros Hv params.
  pose proof (valid_pitchCircleRadius_pos _ _ _ Hv) as Hp.
  pose proof (valid_cos_bounds _ _ _ Hv) as Hc.
  destruct Hv as (_ & Hm & _).
  subst params. simpl in *. repeat split; nra.
Qed.

Lemma valid_input_20_3_20 : valid_input 20 3 20.
Proof.
  unfold valid_input, degToRad. pose proof PI_RGT_0.
  split; [lia|]. split; lra.
Defined.

(** C7 on the gear of the specification's scenario. *)
Lemma generateGearParams_radii_ordered_witness :
  let params := generateGearParams 20 3 20 in
  Params.baseCircleRadius params < Params.pitchCircleRadius params /\
  Params.pitchCircleRadius params < Params.maxRadius params /\
  Params.minRadius params < Params.pitchCircleRadius params.
Proof.
  apply (generateGearParams_radii_ordered 20 3 20).
  unfold valid_input, degToRad. pose proof PI_RGT_0.
  split; [lia|]. split; lra.
Defined.

(** C10: for valid inputs, [alpha] is the involute function of the
    pressure angle, [tan φ - φ], whatever the module and the number of
    teeth. *)
Theorem generateGearParams_alpha_involute
    (teeth : nat) (mod_ : R) (pressureAngleDeg : R) :
  valid_input teeth mod_ pressureAngleDeg ->
  Params.alpha (generateGearParams teeth mod_ pressureAngleDeg)
  = tan (degToRad pressureAngleDeg) - degToRad pressureAngleDeg.
Proof.
  intros Hv.
  pose proof (valid_pitchCircleRadius_pos _ _ _ Hv) as Hp.
  pose proof (valid_cos_bounds _ _ _ Hv) as Hc.
  pose proof (valid_sin_pos _ _ _ Hv) as Hs.
  unfold generateGearParams in *.
  cbn [Params.alpha Params.pitchCircleRadius] in *.
  set (p := mod_ * INR teeth / 2) in *.
  set (phi := degToRad pressureAngleDeg) in *.
  f_equal.
  replace (p ^ 2 - (p * cos phi) ^ 2) with ((p * sin phi) * (p * sin phi)).
  - rewrite sqrt_square by nra. unfold tan. field. split; lra.
  - pose proof (sin2_cos2 phi) as H. unfold Rsqr in H.
    transitivity (p * p * (sin phi * sin phi + cos phi * cos phi)
                  - p * p * (cos phi * cos phi)).
    + ring.
    + rewrite H. ring.
Qed.

(** C10 on the gear of the specification's scenario. *)
Lemma generateGearParams_alpha_involute_witness :
  Params.alpha (generateGearParams 20 3 20) = tan (degToRad 20) - degToRad 20.
Proof.
  apply (generateGearParams_alpha_involute 20 3 20).
  unfold valid_input, degToRad. pose proof PI_RGT_0.
  split; [lia|]. split; lra.
Defined.

(** ** Outlines: [getPoints], [setFromPoints] and rotation *)

Lemma equals_spec (v w : THREE.Vector2) : THREE.equals v w = true <-> v = w.
Proof.
  unfold THREE.equals. destruct v as [vx vy], w as [wx wy]; simpl.
  destruct (Req_dec_T vx wx) as [->|Hx].
  - destruct (Req_dec_T vy wy) as [->|Hy]; split; try easy.
    intros [= ?]. contradiction.
  - split; [discriminate|]. intros [= ? ?]. contradiction.
Qed.

Lemma equals_refl (v : THREE.Vector2) : THREE.equals v v = true.
Proof. apply equals_spec. reflexivity. Qed.

Lemma Vector2_eta (p : THREE.Vector2) :
  THREE.mkVector2 (THREE.x p) (THREE.y p) = p.
Proof. destruct p; reflexivity. Qed.

Lemma pushPoint_skipRepeats (pts : list THREE.Vector2) :
  forall acc,
    fst (fold_left THREE.pushPoint pts acc)
    = fst acc ++ skipRepeats (snd acc) pts.
Proof.
  induction pts as [|p pts IH]; intros [kept last]; simpl.
  - rewrite app_nil_r. reflexivity.
  - rewrite IH. unfold THREE.pushPoint; simpl.
    destruct last as [l|]; simpl.
    + destruct (THREE.equals l p); simpl; [reflexivity|].
      rewrite <- app_assoc. reflexivity.
    + rewrite <- app_assoc. reflexivity.
Qed.

Lemma fold_pushPoint_curves (curves : list (THREE.Vector2 * THREE.Vector2)) :
  forall acc,
    fold_left
      (fun acc curve => fold_left THREE.pushPoint [fst curve; snd curve] acc)
      curves acc
    = fold_left THREE.pushPoint (endPoints curves) acc.
Proof.
  induction curves as [|c curves IH]; intros acc; [reflexivity|].
  simpl. rewrite IH. reflexivity.
Qed.

(** [getPoints] lists the end points of the segments, skipping repeats. *)
Lemma getPoints_skipRepeats (s : THREE.Path) :
  THREE.getPoints s = skipRepeats None (endPoints (THREE.curves s)).
Proof.
  unfold THREE.getPoints.
  rewrite fold_pushPoint_curves, pushPoint_skipRepeats. reflexivity.
Qed.

Lemma skipRepeats_cons last p rest :
  skipRepeats last (p :: rest)
  = match last with
    | Some l => if THREE.equals l p then [] else [p]
    | None => [p]
    end ++ skipRepeats (Some p) rest.
Proof.
  simpl. destruct last as [l|]; [|reflexivity].
  destruct (THREE.equals l p) eqn:E; [|reflexivity].
  apply equals_spec in E as ->. reflexivity.
Qed.

(** The polyline through [p :: q :: rest] has the same outline as the
    points themselves. *)
Lemma skipRepeats_chain (rest : list THREE.Vector2) :
  forall last p q,
    skipRepeats last (endPoints (chainCurves p (q :: rest)))
    = skipRepeats last (p :: q :: rest).
Proof.
  induction rest as [|q' rest IH]; intros last p q; [reflexivity|].
  change (endPoints (chainCurves p (q :: q' :: rest)))
    with (p :: q :: endPoints (chainCurves q (q' :: rest))).
  rewrite (skipRepeats_cons last p (q :: _)).
  rewrite (skipRepeats_cons last p (q :: _ :: _)). f_equal.
  rewrite (skipRepeats_cons (Some p) q (endPoints _)).
  rewrite (skipRepeats_cons (Some p) q (q' :: _)). f_equal.
  rewrite IH. simpl. rewrite equals_refl. reflexivity.
Qed.

Lemma skipRepeats_idemp (pts : list THREE.Vector2) :
  forall last, skipRepeats last (skipRepeats last pts) = skipRepeats last pts.
Proof.
  induction pts as [|p pts IH]; intros last; [reflexivity|].
  simpl. destruct last as [l|].
  - destruct (THREE.equals l p) eqn:E; [apply IH|].
    simpl. rewrite E, IH. reflexivity.
  - simpl. rewrite IH. reflexivity.
Qed.

Lemma skipRepeats_map (f : THREE.Vector2 -> THREE.Vector2)
    (pts : list THREE.Vector2) :
  (forall v w, f v = f w -> v = w) ->
  forall last,
    skipRepeats (option_map f last) (map f pts)
    = map f (skipRepeats last pts).
Proof.
  intros Hinj. induction pts as [|p pts IH]; intros last; [reflexivity|].
  simpl. destruct last as [l|]; simpl.
  - destruct (THREE.equals l p) eqn:E.
    + apply equals_spec in E as ->. rewrite equals_refl. apply (IH (Some p)).
    + destruct (THREE.equals (f l) (f p)) eqn:E'.
      * apply equals_spec, Hinj, equals_spec in E'. congruence.
      * simpl. f_equal. apply (IH (Some p)).
  - f_equal. apply (IH (Some p)).
Qed.

(** A kept run that starts at [a] and later meets a different point has
    at least two points. *)
Lemma skipRepeats_two_points (a b : THREE.Vector2) (rest : list THREE.Vector2) :
  a <> b -> In b rest ->
  (2 <= List.length (skipRepeats None (a :: rest)))%nat.
Proof.
  intros Hne Hin. simpl.
  enough (1 <= List.length (skipRepeats (Some a) rest))%nat by lia.
  induction rest as [|c rest IH]; [destruct Hin|]. simpl.
  destruct (THREE.equals a c) eqn:E; [|simpl; lia].
  apply equals_spec in E as <-.
  destruct Hin as [->|Hin]; [contradiction | auto].
Qed.

(** [lineTo] in a row lays down the polyline from the pen. *)
Lemma fold_lineTo_curves (rest : list THREE.Vector2) :
  forall s,
    THREE.curves
      (fold_left (fun s' p => THREE.lineTo (THREE.x p) (THREE.y p) s') rest s)
    = THREE.curves s ++ chainCurves (THREE.currentPoint s) rest.
Proof.
  induction rest as [|q rest IH]; intros s; simpl.
  - rewrite app_nil_r. reflexivity.
  - rewrite IH. simpl. rewrite Vector2_eta, <- app_assoc. reflexivity.
Qed.

Lemma setFromPoints_curves (p0 : THREE.Vector2) (rest : list THREE.Vector2)
    (s : THREE.Path) :
  exists s',
    THREE.setFromPoints (p0 :: rest) s = Normal s' /\
    THREE.curves s' = THREE.curves s ++ chainCurves p0 rest.
Proof.
  eexists. split; [reflexivity|].
  rewrite fold_lineTo_curves. simpl. rewrite Vector2_eta. reflexivity.
Qed.

(** A shape built from at least two points that repeat nowhere in a row
    reads back as those points. *)
Lemma Shape_getPoints (p q : THREE.Vector2) (rest : list THREE.Vector2) :
  exists s,
    THREE.Shape (p :: q :: rest) = Normal s /\
    THREE.getPoints s = skipRepeats None (p :: q :: rest).
Proof.
  unfold THREE.Shape.
  destruct (setFromPoints_curves p (q :: rest) THREE.emptyPath)
    as (s & Hs & Hcurves).
  exists s. split; [exact Hs|].
  rewrite getPoints_skipRepeats, Hcurves. apply skipRepeats_chain.
Qed.

(** *** Rotation about the origin *)

Lemma rotated_inverse (angle : R) (v : THREE.Vector2) :
  rotated (- angle) (rotated angle v) = v.
Proof.
  destruct v as [vx vy]. unfold rotated, THREE.rotateAround; simpl.
  rewrite cos_neg, sin_neg.
  pose proof (sin2_cos2 angle) as H. unfold Rsqr in H.
  f_equal.
  - transitivity (vx * (sin angle * sin angle + cos angle * cos angle));
      [ring | rewrite H; ring].
  - transitivity (vy * (sin angle * sin angle + cos angle * cos angle));
      [ring | rewrite H; ring].
Qed.

Lemma rotated_injective (angle : R) (v w : THREE.Vector2) :
  rotated angle v = rotated angle w -> v = w.
Proof.
  intros H. rewrite <- (rotated_inverse angle v), H. apply rotated_inverse.
Qed.

Lemma rotated_inverse_list (angle : R) (pts : list THREE.Vector2) :
  map (rotated (- angle)) (map (rotated angle) pts) = pts.
Proof.
  rewrite map_map. rewrite <- (map_id pts) at 2.
  apply map_ext. intros v. apply rotated_inverse.
Qed.

Lemma cos_sin_turns (z : Z) :
  cos (2 * PI * IZR z) = 1 /\ sin (2 * PI * IZR z) = 0.
Proof.
  assert (Hnat : forall k : nat,
             cos (2 * PI * INR k) = 1 /\ sin (2 * PI * INR k) = 0).
  { intros k.
    replace (2 * PI * INR k) with (0 + 2 * INR k * PI) by ring.
    rewrite cos_period, sin_period, cos_0, sin_0. split; reflexivity. }
  destruct (Z_le_gt_dec 0 z) as [Hz|Hz].
  - rewrite <- (Z2Nat.id z Hz), <- INR_IZR_INZ. apply Hnat.
  - replace (2 * PI * IZR z) with (- (2 * PI * IZR (- z)))
      by (rewrite opp_IZR; ring).
    rewrite cos_neg, sin_neg.
    rewrite <- (Z2Nat.id (- z)) by lia. rewrite <- INR_IZR_INZ.
    destruct (Hnat (Z.to_nat (- z))) as [-> ->]. split; lra.
Qed.

(** An angle whose remainder by a full turn is zero rotates nothing. *)
Lemma rotated_full_turns (angle : R) (v : THREE.Vector2) :
  js_rem angle (2 * PI) = 0 -> rotated angle v = v.
Proof.
  unfold js_rem. intros H.
  assert (Ha : angle = 2 * PI * IZR (Rtrunc (angle / (2 * PI)))) by lra.
  destruct (cos_sin_turns (Rtrunc (angle / (2 * PI)))) as [Hc Hs].
  rewrite <- Ha in Hc, Hs.
  destruct v as [vx vy]. unfold rotated, THREE.rotateAround; simpl.
  rewrite Hc, Hs. f_equal; ring.
Qed.

Lemma rotated_zero (v : THREE.Vector2) : rotated 0 v = v.
Proof.
  destruct v as [vx vy]. unfold rotated, THREE.rotateAround; simpl.
  rewrite cos_0, sin_0. f_equal; ring.
Qed.

(** [rotateShape] on a proper outline returns a shape whose outline is
    the rotated outline, on the shortcut as on the rebuilding branch. *)
Lemma rotateShape_getPoints (s : THREE.Path) (angle : R) :
  proper_outline s ->
  exists s',
    rotateShape s angle = Normal s' /\
    THREE.getPoints s' = map (rotated angle) (THREE.getPoints s).
Proof.
  unfold proper_outline, rotateShape. intros Hlen.
  destruct (Req_dec_T (js_rem angle (2 * PI)) 0) as [Hz|Hnz].
  - exists s. split; [reflexivity|].
    rewrite <- (map_id (THREE.getPoints s)) at 1.
    apply map_ext. intros v. symmetry. apply rotated_full_turns, Hz.
  - unfold rotateVec2Array. fold (rotated angle).
    pose proof (getPoints_skipRepeats s) as Hpts.
    destruct (THREE.getPoints s) as [|p [|q rest]] eqn:E;
      [simpl in Hlen; lia | simpl in Hlen; lia |].
    destruct (Shape_getPoints (rotated angle p) (rotated angle q)
                (map (rotated angle) rest)) as (s' & Hs' & Hget).
    exists s'. split; [exact Hs'|]. rewrite Hget.
    change (rotated angle p :: rotated angle q :: map (rotated angle) rest)
      with (map (rotated angle) (p :: q :: rest)).
    rewrite (skipRepeats_map (rotated angle) _ (rotated_injective angle) None).
    rewrite Hpts, skipRepeats_idemp. reflexivity.
Qed.

Lemma rotateShape_proper (s s' : THREE.Path) (angle : R) :
  proper_outline s -> rotateShape s angle = Normal s' -> proper_outline s'.
Proof.
  intros Hp Hrot.
  destruct (rotateShape_getPoints s angle Hp) as (s'' & Hs'' & Hget).
  rewrite Hrot in Hs''. injection Hs'' as <-.
  unfold proper_outline in *. rewrite Hget, length_map. exact Hp.
Qed.

(** ** The tooth segment *)

Lemma involutePoint_not_origin (t b : R) :
  b <> 0 -> involutePoint t b <> ORIGIN_VEC2.
Proof.
  intros Hb Heq.
  pose proof (length_involutePoint b t) as Hlen. rewrite Heq in Hlen.
  unfold THREE.length, ORIGIN_VEC2 in Hlen; simpl in Hlen.
  replace (0 * 0 + 0 * 0) with 0 in Hlen by ring. rewrite sqrt_0 in Hlen.
  pose proof (Rabs_pos_lt b Hb).
  assert (1 <= sqrt (1 + t * t)).
  { rewrite <- sqrt_1 at 1. apply sqrt_le_1_alt. nra. }
  nra.
Qed.

Lemma involuteLoop_points (b m step : R) (fuel : nat) :
  forall t point acc pts,
    involuteLoop fuel b m step t point acc = Normal pts ->
    Forall (fun p => exists u, p = involutePoint u b) acc ->
    Forall (fun p => exists u, p = involutePoint u b) pts.
Proof.
  induction fuel as [|fuel IH]; intros t point acc pts; simpl;
    destruct (Rlt_dec (THREE.length point) m); try discriminate.
  - intros [= <-]. auto.
  - intros Hrun Hacc. eapply IH; [exact Hrun|].
    apply Forall_app. split; [exact Hacc|].
    constructor; [eauto | constructor].
  - intros [= <-]. auto.
Qed.

(** The sampler returns a non-empty array that starts with a point of
    the involute. *)
Lemma generateInvoluteCurve_head (b m step : R) :
  0 < b -> b <= m -> 0 < step ->
  exists n, forall fuel, (n <= fuel)%nat ->
    exists u rest,
      generateInvoluteCurve fuel b m step
      = Normal (involutePoint u b :: rest).
Proof.
  intros Hb Hle Hstep.
  destruct (involuteLoop_returns b m step Hstep Hb) as [n Hn].
  exists n. intros fuel Hfuel. destruct (Hn fuel Hfuel) as [pts Hloop].
  unfold generateInvoluteCurve. rewrite Hloop. simpl.
  apply involuteLoop_points in Hloop; [|constructor].
  destruct Hloop as [|p pts [u ->] _]; simpl; eauto.
Qed.

Lemma generateGearSegment_returns (pitchAngle b m minRadius alpha : R) :
  0 < b -> b <= m ->
  exists n, forall fuel, (n <= fuel)%nat ->
    exists segment,
      generateGearSegment fuel pitchAngle b m minRadius alpha = Normal segment /\
      proper_outline segment.
Proof.
  intros Hb Hle.
  destruct (generateInvoluteCurve_head b m INVOLUTE_STEP Hb Hle) as [n Hn];
    [unfold INVOLUTE_STEP; lra|].
  exists n. intros fuel Hfuel. destruct (Hn fuel Hfuel) as (u & pts & Hcurve).
  unfold generateGearSegment. rewrite Hcurve.
  cbn [mbind Completion_bind app].
  set (tail := pts ++ rev (reflectVec2Array (involutePoint u b :: pts)
                             (pitchAngle / 4 + alpha))).
  set (pt1 := polToCar minRadius (pitchAngle * 0.5 + 2 * alpha)).
  set (pt2 := polToCar minRadius pitchAngle).
  set (start := THREE.moveTo b 0 THREE.emptyPath).
  cbn [THREE.setFromPoints].
  set (lineToP := fun s' p => THREE.lineTo (THREE.x p) (THREE.y p) s').
  set (segmentShape :=
         THREE.lineTo 0 0
           (THREE.lineTo (THREE.x pt2) (THREE.y pt2)
              (THREE.lineTo (THREE.x pt1) (THREE.y pt1)
                 (fold_left lineToP tail
                    (THREE.moveTo (THREE.x (involutePoint u b))
                       (THREE.y (involutePoint u b)) start))))).
  assert (Hshape : segmentShape
                   = fold_left lineToP (tail ++ [pt1; pt2; ORIGIN_VEC2])
                       (THREE.moveTo (THREE.x (involutePoint u b))
                          (THREE.y (involutePoint u b)) start)).
  { rewrite fold_left_app. reflexivity. }
  assert (Hproper : proper_outline segmentShape).
  { unfold proper_outline.
    rewrite getPoints_skipRepeats, Hshape. unfold lineToP.
    rewrite fold_lineTo_curves.
    cbn [THREE.curves THREE.currentPoint THREE.moveTo start THREE.emptyPath app].
    rewrite Vector2_eta.
    assert (Htail : exists q rest, tail ++ [pt1; pt2; ORIGIN_VEC2] = q :: rest).
    { destruct tail; simpl; eauto. }
    destruct Htail as (q & rest & Htail).
    assert (Hin : In ORIGIN_VEC2 (q :: rest)).
    { rewrite <- Htail. apply in_or_app. right. simpl. auto. }
    rewrite Htail, skipRepeats_chain.
    apply (skipRepeats_two_points _ ORIGIN_VEC2); [|exact Hin].
    apply involutePoint_not_origin. lra. }
  destruct (rotateShape_getPoints segmentShape (-1 * alpha) Hproper)
    as (segment & Hrot & _).
  exists segment. split; [exact Hrot|].
  eapply rotateShape_proper; eauto.
Qed.

(** ** The gear outline *)

(** The loop returns, adds [n] shapes, and the [k]-th of them is the
    segment turned by [(i + k) * pitchAngle]. *)
Lemma pushSegments_spec (segment : THREE.Path) (pitchAngle : R) (n : nat) :
  proper_outline segment ->
  forall i segments,
    exists added,
      pushSegments segment pitchAngle i n segments = Normal (segments ++ added) /\
      List.length added = n /\
      forall k polygon,
        added !! k = Some polygon ->
        THREE.getPoints polygon
        = map (rotated (INR (i + k) * pitchAngle)) (THREE.getPoints segment).
Proof.
  intros Hproper. induction n as [|n IH]; intros i segments.
  - exists []. simpl. rewrite app_nil_r. repeat split.
    intros k polygon Hk. rewrite lookup_nil in Hk. discriminate.
  - destruct (rotateShape_getPoints segment (INR i * pitchAngle) Hproper)
      as (turned & Hrot & Hget).
    destruct (IH (S i) (segments ++ [turned])) as (added & Hrun & Hlen & Hk).
    exists (turned :: added). cbn [pushSegments]. rewrite Hrot.
    cbn [mbind Completion_bind]. rewrite Hrun, <- app_assoc.
    repeat split; [simpl; lia|].
    intros [|k] polygon Hlook; simpl in Hlook.
    + injection Hlook as <-. rewrite Nat.add_0_r. exact Hget.
    + rewrite (Hk k polygon Hlook).
      replace (i + S k)%nat with (S i + k)%nat by lia. reflexivity.
Qed.

Lemma generateGearShapeFromParams_spec
    (teeth : nat) (mod_ : R) (pressureAngleDeg : R) :
  valid_input teeth mod_ pressureAngleDeg ->
  let params := generateGearParams teeth mod_ pressureAngleDeg in
  exists n, forall fuel, (n <= fuel)%nat ->
    exists segment polygons,
      generateGearShapeFromParams fuel params = Normal polygons /\
      proper_outline segment /\
      List.length polygons = teeth /\
      forall i polygon,
        polygons !! i = Some polygon ->
        THREE.getPoints polygon
        = map (rotated (INR i * Params.pitchAngle params))
              (THREE.getPoints segment).
Proof.
  intros Hv params.
  pose proof (valid_baseCircleRadius_pos _ _ _ Hv) as Hb.
  pose proof (valid_base_lt_max _ _ _ Hv) as Hlt.
  fold params in Hb, Hlt.
  destruct (generateGearSegment_returns
              (Params.pitchAngle params) (Params.baseCircleRadius params)
              (Params.maxRadius params) (Params.minRadius params)
              (Params.alpha params) Hb (Rlt_le _ _ Hlt)) as [n Hn].
  exists n. intros fuel Hfuel.
  destruct (Hn fuel Hfuel) as (segment & Hseg & Hproper).
  destruct (pushSegments_spec segment (Params.pitchAngle params)
              (Params.teeth params) Hproper 0%nat [])
    as (polygons & Hrun & Hlen & Hk).
  exists segment, polygons. unfold generateGearShapeFromParams.
  rewrite Hseg. cbn [mbind Completion_bind]. rewrite Hrun.
  repeat split; [exact Hproper | exact Hlen | exact Hk].
Qed.

Lemma rotated_turnedAboutOrigin (angle : R) (v : THREE.Vector2) :
  rotated angle v = turnedAboutOrigin angle v.
Proof.
  unfold rotated, turnedAboutOrigin, THREE.rotateAround, ORIGIN_VEC2; simpl.
  f_equal; ring.
Qed.

(** C8: for valid inputs the outline generator returns exactly [teeth]
    polygons.  The outline of polygon [i] is the outline of polygon [0]
    turned about the origin by [i * pitchAngle], point by point, so that
    turned back by [- i * pitchAngle] it is the outline of polygon [0];
    that outline has at least two points.  [rotateShape] applied to
    polygon [i] with the angle [- i * pitchAngle] returns a polygon with
    the outline of polygon [0] as well. *)
Theorem generateGearShapeFromParams_rotational_symmetry
    (teeth : nat) (mod_ : R) (pressureAngleDeg : R) :
  valid_input teeth mod_ pressureAngleDeg ->
  let params := generateGearParams teeth mod_ pressureAngleDeg in
  exists n, forall fuel, (n <= fuel)%nat ->
    exists polygons,
      generateGearShapeFromParams fuel params = Normal polygons /\
      List.length polygons = teeth /\
      forall i polygon_i polygon_0,
        polygons !! i = Some polygon_i ->
        polygons !! 0%nat = Some polygon_0 ->
        proper_outline polygon_0 /\
        THREE.getPoints polygon_i
        = map (turnedAboutOrigin (INR i * Params.pitchAngle params))
            (THREE.getPoints polygon_0) /\
        map (turnedAboutOrigin (- INR i * Params.pitchAngle params))
          (THREE.getPoints polygon_i)
        = THREE.getPoints polygon_0 /\
        exists back,
          rotateShape polygon_i (- INR i * Params.pitchAngle params)
          = Normal back /\
          THREE.getPoints back = THREE.getPoints polygon_0.
Proof.
  intros Hv params.
  destruct (generateGearShapeFromParams_spec _ _ _ Hv) as [n Hn].
  exists n. intros fuel Hfuel.
  destruct (Hn fuel Hfuel) as (segment & polygons & Hrun & Hproper & Hlen & Hk).
  exists polygons. split; [exact Hrun|]. split; [exact Hlen|].
  intros i polygon_i polygon_0 Hi H0.
  pose proof (Hk _ _ Hi) as Hgi. pose proof (Hk _ _ H0) as Hg0.
  fold params in Hgi, Hg0.
  assert (Hseg : THREE.getPoints polygon_0 = THREE.getPoints segment).
  { rewrite Hg0.
    replace (INR 0 * Params.pitchAngle params) with 0 by (simpl; ring).
    rewrite <- (map_id (THREE.getPoints segment)) at 2.
    apply map_ext. intros v. apply rotated_zero. }
  assert (Hpi : proper_outline polygon_i).
  { unfold proper_outline in *. rewrite Hgi, length_map. exact Hproper. }
  assert (Hback : map (rotated (- INR i * Params.pitchAngle params))
                    (THREE.getPoints polygon_i)
                  = THREE.getPoints polygon_0).
  { rewrite Hgi, Hseg.
    replace (- INR i * Params.pitchAngle params)
      with (- (INR i * Params.pitchAngle params)) by ring.
    apply rotated_inverse_list. }
  split; [|split; [|split]].
  - unfold proper_outline in *. rewrite Hseg. exact Hproper.
  - rewrite Hgi, Hseg. apply map_ext. intros v.
    apply rotated_turnedAboutOrigin.
  - rewrite <- Hback. apply map_ext. intros v. symmetry.
    apply rotated_turnedAboutOrigin.
  - destruct (rotateShape_getPoints polygon_i
                (- INR i * Params.pitchAngle params) Hpi)
      as (back & Hrot & Hget).
    exists back. split; [exact Hrot|]. rewrite Hget. exact Hback.
Qed.

(** C8 on the gear of the specification's scenario. *)
Lemma generateGearShapeFromParams_rotational_symmetry_witness :
  let params := generateGearParams 20 3 20 in
  exists n, forall fuel, (n <= fuel)%nat ->
    exists polygons,
      generateGearShapeFromParams fuel params = Normal polygons /\
      List.length polygons = 20%nat /\
      forall i polygon_i polygon_0,
        polygons !! i = Some polygon_i ->
        polygons !! 0%nat = Some polygon_0 ->
        proper_outline polygon_0 /\
        THREE.getPoints polygon_i
        = map (turnedAboutOrigin (INR i * Params.pitchAngle params))
            (THREE.getPoints polygon_0) /\
        map (turnedAboutOrigin (- INR i * Params.pitchAngle params))
          (THREE.getPoints polygon_i)
        = THREE.getPoints polygon_0 /\
        exists back,
          rotateShape polygon_i (- INR i * Params.pitchAngle params)
          = Normal back /\
          THREE.getPoints back = THREE.getPoints polygon_0.
Proof.
  apply (generateGearShapeFromParams_rotational_symmetry 20 3 20).
  unfold valid_input, degToRad. pose proof PI_RGT_0.
  split; [lia|]. split; lra.
Defined.

(** ** Gear methods on the heap *)

Section Methods.

Import Gear.

Implicit Types (h : Heap) (g pg : Gear.t) (this p : ref).

Lemma load_Some h this g :
  h !! this = Some g -> load this h = Normal (g, h).
Proof. unfold load. intros ->. reflexivity. Qed.

Lemma lookup_snoc h g : (h ++ [g]) !! List.length h = Some g.
Proof. apply list_lookup_middle. reflexivity. Qed.

Lemma insert_snoc h g g' : <[List.length h := g']> (h ++ [g]) = h ++ [g'].
Proof.
  rewrite insert_app_r_alt by lia. rewrite Nat.sub_diag. reflexivity.
Qed.

Lemma lookup_insert_same h this g g' :
  h !! this = Some g -> <[this := g']> h !! this = Some g'.
Proof. intros H. apply list_lookup_insert_eq. eapply lookup_lt_Some, H. Qed.

Lemma driveBy_spec h this g (a : R) :
  h !! this = Some g ->
  driveBy this a h
  = Normal (tt, <[this := set_rotation (rotation g + a * rotationSpeed g) g]> h).
Proof.
  intros Hg. unfold driveBy, mbind, M_bind.
  rewrite (load_Some _ _ _ Hg). reflexivity.
Qed.

Lemma setPosition_spec h this g (x' y' : R) :
  h !! this = Some g ->
  setPosition this x' y' h
  = Normal (tt, <[this := set_mesh
                            (mkMesh (geometry (mesh g)) x' y'
                               (rotation_z (mesh g)))
                            (set_xy x' y' g)]> h).
Proof.
  intros Hg. unfold setPosition, mbind, M_bind.
  rewrite (load_Some _ _ _ Hg). reflexivity.
Qed.

Lemma calculateRatio_root h this g :
  h !! this = Some g -> pinion g = None ->
  calculateRatio this h
  = Normal (tt, <[this := set_rotationSpeed 1 (set_ratio 1 g)]> h).
Proof.
  intros Hg Hp. unfold calculateRatio, mbind, M_bind.
  rewrite (load_Some _ _ _ Hg), Hp. reflexivity.
Qed.

Lemma calculateRatio_child h this g p pg :
  h !! this = Some g -> pinion g = Some p -> h !! p = Some pg ->
  calculateRatio this h
  = Normal (tt, <[this := set_rotationSpeed
                            (-1 * rotationSpeed pg
                             * (INR (teeth pg) / INR (teeth g)))
                            (set_ratio (INR (teeth pg) / INR (teeth g)) g)]> h).
Proof.
  intros Hg Hp Hpg. unfold calculateRatio, mbind, M_bind.
  rewrite (load_Some _ _ _ Hg), Hp, (load_Some _ _ _ Hpg). reflexivity.
Qed.

Lemma positionGear_root h this g :
  h !! this = Some g -> pinion g = None ->
  positionGear this h = Normal (tt, h).
Proof.
  intros Hg Hp. unfold positionGear, mbind, M_bind.
  rewrite (load_Some _ _ _ Hg), Hp. reflexivity.
Qed.

Lemma positionGear_child h this g p pg :
  h !! this = Some g -> pinion g = Some p -> h !! p = Some pg ->
  let centreDistance :=
    (mod_ g * INR (teeth g) + mod_ g * INR (teeth pg)) / 2 in
  let x' := x pg + centreDistance * cos (angle g) in
  let y' := y pg + centreDistance * sin (angle g) in
  positionGear this h
  = Normal (tt, <[this := set_mesh
                            (mkMesh (geometry (mesh g)) x' y'
                               (rotation_z (mesh g)))
                            (set_xy x' y' g)]> h).
Proof.
  intros Hg Hp Hpg. unfold positionGear, mbind, M_bind.
  rewrite (load_Some _ _ _ Hg), Hp, (load_Some _ _ _ Hpg).
  rewrite (setPosition_spec _ _ _ _ _ Hg). reflexivity.
Qed.

Lemma rotateGear_root h this g :
  h !! this = Some g -> pinion g = None ->
  rotateGear this h = Normal (tt, h).
Proof.
  intros Hg Hp. unfold rotateGear, mbind, M_bind.
  rewrite (load_Some _ _ _ Hg), Hp. reflexivity.
Qed.

Lemma rotateGear_child h this g p pg :
  h !! this = Some g -> pinion g = Some p -> h !! p = Some pg ->
  p <> this ->
  rotateGear this h
  = Normal (tt, <[this := set_rotation
                            (rotation g + (PI + angle g)
                             + (angle g - rotation pg) * ratio g) g]> h).
Proof.
  intros Hg Hp Hpg Hne. unfold rotateGear, mbind, M_bind.
  rewrite (load_Some _ _ _ Hg), Hp. unfold store.
  rewrite (load_Some _ this _ (lookup_insert_same _ _ _ _ Hg)).
  erewrite (load_Some _ p pg).
  - cbv beta iota. rewrite list_insert_insert_eq. reflexivity.
  - rewrite list_lookup_insert_ne by congruence. exact Hpg.
Qed.

End Methods.

(** ** Construction and attachment *)

Section Construction.

Import Gear.

Implicit Types (h : Heap) (g pg : Gear.t) (this p : ref).

(** On valid inputs [createGeometry] returns a mesh at the origin,
    unrotated, with one polygon per tooth. *)
Lemma createGeometry_returns (teeth : nat) (mod_ : R) (pressureAngleDeg : R) :
  valid_input teeth mod_ pressureAngleDeg ->
  exists n, forall fuel, (n <= fuel)%nat ->
    exists shape,
      createGeometry fuel (generateGearParams teeth mod_ pressureAngleDeg)
      = Normal (mkMesh shape 0 0 0) /\
      List.length shape = teeth.
Proof.
  intros Hv.
  destruct (generateGearShapeFromParams_spec _ _ _ Hv) as [n Hn].
  exists n. intros fuel Hfuel.
  destruct (Hn fuel Hfuel) as (_ & polygons & Hrun & _ & Hlen & _).
  exists polygons. unfold createGeometry. rewrite Hrun. split; [reflexivity|].
  exact Hlen.
Qed.

Lemma new_root_spec h (fuel teeth : nat) (mod_ pressureAngleDeg : R) (mesh : Mesh) :
  createGeometry fuel (generateGearParams teeth mod_ pressureAngleDeg)
  = Normal mesh ->
  new fuel teeth mod_ pressureAngleDeg None h
  = Normal (List.length h,
            h ++ [mk teeth mod_
                    (generateGearParams teeth mod_ pressureAngleDeg)
                    mesh 0 0 0 ∅ None 1 1]).
Proof.
  intros Hmesh. unfold new, mbind, M_bind, lift. rewrite Hmesh.
  unfold alloc. cbv beta iota.
  erewrite calculateRatio_root; [|apply lookup_snoc|reflexivity].
  rewrite insert_snoc. reflexivity.
Qed.

Lemma new_child_spec h (fuel teeth : nat) (mod_ pressureAngleDeg : R)
    (mesh : Mesh) p pg :
  createGeometry fuel (generateGearParams teeth mod_ pressureAngleDeg)
  = Normal mesh ->
  h !! p = Some pg ->
  new fuel teeth mod_ pressureAngleDeg (Some p) h
  = Normal (List.length h,
            h ++ [mk teeth mod_
                    (generateGearParams teeth mod_ pressureAngleDeg)
                    mesh 0 0 0 ∅ (Some p)
                    (INR (Gear.teeth pg) / INR teeth)
                    (-1 * rotationSpeed pg * (INR (Gear.teeth pg) / INR teeth))]).
Proof.
  intros Hmesh Hpg. unfold new, mbind, M_bind, lift. rewrite Hmesh.
  unfold alloc. cbv beta iota.
  erewrite calculateRatio_child; [|apply lookup_snoc|reflexivity|].
  - rewrite insert_snoc. reflexivity.
  - rewrite lookup_app_l by (eapply lookup_lt_Some, Hpg). exact Hpg.
Qed.

(** What [addGear] does to the heap: the pinion gains the new gear in
    its child set, the new gear is appended, and nothing else moves. *)
Lemma addGear_spec h (fuel : nat) this g (teeth : nat) (a : R) (mesh : Mesh) :
  h !! this = Some g ->
  createGeometry fuel
    (generateGearParams teeth (Gear.mod_ g)
       (Params.pressureAngleDeg (parameters g)))
  = Normal mesh ->
  addGear fuel this teeth a h
  = Normal (List.length h,
            <[this := set_childGears ({[List.length h]} ∪ childGears g) g]> h
            ++ [attachedGear this g mesh teeth a]).
Proof.
  intros Hg Hmesh.
  pose proof (lookup_lt_Some _ _ _ Hg) as Hthis.
  unfold addGear, mbind, M_bind.
  rewrite (load_Some _ _ _ Hg).
  rewrite (new_child_spec h fuel teeth _ _ mesh this g Hmesh Hg).
  cbv beta iota.
  rewrite (load_Some (h ++ _) this g)
    by (rewrite lookup_app_l by exact Hthis; exact Hg).
  unfold store. cbv beta iota.
  rewrite insert_app_l by exact Hthis.
  set (g' := set_childGears ({[List.length h]} ∪ childGears g) g).
  set (h2 := <[this := g']> h).
  assert (Hlen : List.length h = List.length h2)
    by (symmetry; apply length_insert).
  assert (Hg' : forall c, (h2 ++ [c]) !! this = Some g').
  { intros c. rewrite lookup_app_l by (rewrite <- Hlen; exact Hthis).
    apply (lookup_insert_same _ _ _ _ Hg). }
  assert (Hne : this <> List.length h2) by lia.
  rewrite Hlen.
  rewrite (load_Some _ _ _ (lookup_snoc h2 _)). cbv beta iota.
  rewrite insert_snoc.
  erewrite positionGear_child;
    [|apply lookup_snoc | reflexivity | apply Hg'].
  cbv beta iota zeta. rewrite insert_snoc.
  erewrite rotateGear_child;
    [|apply lookup_snoc | reflexivity | apply Hg' | exact Hne].
  rewrite insert_snoc. reflexivity.
Qed.

Lemma createGeometry_mesh (fuel : nat) (params : Params.t) (mesh : Mesh) :
  createGeometry fuel params = Normal mesh ->
  exists shape, mesh = mkMesh shape 0 0 0.
Proof.
  unfold createGeometry.
  destruct (generateGearShapeFromParams fuel params) as [shape| |];
    try discriminate.
  intros [= <-]. eauto.
Qed.

(** Whenever [addGear] returns, on any inputs, this is the heap it
    leaves. *)
Lemma addGear_result h (fuel : nat) this g (teeth : nat) (a : R) newGear h' :
  h !! this = Some g ->
  addGear fuel this teeth a h = Normal (newGear, h') ->
  exists shape,
    newGear = List.length h /\
    h' = <[this := set_childGears ({[List.length h]} ∪ childGears g) g]> h
         ++ [attachedGear this g (mkMesh shape 0 0 0) teeth a].
Proof.
  intros Hg.
  destruct (createGeometry fuel
              (generateGearParams teeth (Gear.mod_ g)
                 (Params.pressureAngleDeg (parameters g))))
    as [mesh| |] eqn:Hmesh.
  - rewrite (addGear_spec _ _ _ _ _ _ _ Hg Hmesh). intros [= <- <-].
    apply createGeometry_mesh in Hmesh as [shape ->]. eauto.
  - unfold addGear, mbind, M_bind. rewrite (load_Some _ _ _ Hg).
    unfold new, mbind, M_bind, lift. rewrite Hmesh. discriminate.
  - unfold addGear, mbind, M_bind. rewrite (load_Some _ _ _ Hg).
    unfold new, mbind, M_bind, lift. rewrite Hmesh. discriminate.
Qed.

End Construction.

(** ** Kinematics of an attached gear *)

Section Kinematics.

Import Gear.

Implicit Types (h : Heap) (g pg : Gear.t) (this p : ref).

(** On valid inputs [addGear] returns once the fuel covers the sampling
    of the new gear's outline. *)
Lemma addGear_returns h this g (teeth : nat) (a : R) :
  h !! this = Some g ->
  valid_input teeth (Gear.mod_ g) (Params.pressureAngleDeg (parameters g)) ->
  exists n, forall fuel, (n <= fuel)%nat ->
    exists shape,
      List.length shape = teeth /\
      addGear fuel this teeth a h
      = Normal (List.length h,
                <[this := set_childGears ({[List.length h]} ∪ childGears g) g]> h
                ++ [attachedGear this g (mkMesh shape 0 0 0) teeth a]).
Proof.
  intros Hg Hv. destruct (createGeometry_returns _ _ _ Hv) as [n Hn].
  exists n. intros fuel Hfuel. destruct (Hn fuel Hfuel) as (shape & Hmesh & Hlen).
  exists shape. split; [exact Hlen|]. apply addGear_spec; assumption.
Qed.

Lemma new_root_returns h (teeth : nat) (mod_ pressureAngleDeg : R) :
  valid_input teeth mod_ pressureAngleDeg ->
  exists n, forall fuel, (n <= fuel)%nat ->
    exists shape,
      List.length shape = teeth /\
      new fuel teeth mod_ pressureAngleDeg None h
      = Normal (List.length h,
                h ++ [mk teeth mod_
                        (generateGearParams teeth mod_ pressureAngleDeg)
                        (mkMesh shape 0 0 0) 0 0 0 ∅ None 1 1]).
Proof.
  intros Hv. destruct (createGeometry_returns _ _ _ Hv) as [n Hn].
  exists n. intros fuel Hfuel. destruct (Hn fuel Hfuel) as (shape & Hmesh & Hlen).
  exists shape. split; [exact Hlen|]. apply new_root_spec; assumption.
Qed.

Lemma new_child_returns h (teeth : nat) (mod_ pressureAngleDeg : R) p pg :
  valid_input teeth mod_ pressureAngleDeg ->
  h !! p = Some pg ->
  exists n, forall fuel, (n <= fuel)%nat ->
    exists shape,
      List.length shape = teeth /\
      new fuel teeth mod_ pressureAngleDeg (Some p) h
      = Normal (List.length h,
                h ++ [mk teeth mod_
                        (generateGearParams teeth mod_ pressureAngleDeg)
                        (mkMesh shape 0 0 0) 0 0 0 ∅ (Some p)
                        (INR (Gear.teeth pg) / INR teeth)
                        (-1 * rotationSpeed pg
                         * (INR (Gear.teeth pg) / INR teeth))]).
Proof.
  intros Hv Hpg. destruct (createGeometry_returns _ _ _ Hv) as [n Hn].
  exists n. intros fuel Hfuel. destruct (Hn fuel Hfuel) as (shape & Hmesh & Hlen).
  exists shape. split; [exact Hlen|]. apply new_child_spec; assumption.
Qed.

Lemma lookup_attached h this g g' c :
  h !! this = Some g ->
  (<[this := g']> h ++ [c]) !! List.length h = Some c.
Proof.
  intros Hg. rewrite <- (length_insert h this g'). apply lookup_snoc.
Qed.

Lemma lookup_pinion_after h this g g' c :
  h !! this = Some g ->
  (<[this := g']> h ++ [c]) !! this = Some g'.
Proof.
  intros Hg. pose proof (lookup_lt_Some _ _ _ Hg).
  rewrite lookup_app_l by (rewrite length_insert; assumption).
  apply (lookup_insert_same _ _ _ _ Hg).
Qed.

Lemma lookup_other_after h this g' c other :
  other <> this -> (other < List.length h)%nat ->
  (<[this := g']> h ++ [c]) !! other = h !! other.
Proof.
  intros Hne Hlt. rewrite lookup_app_l by (rewrite length_insert; assumption).
  apply list_lookup_insert_ne. congruence.
Qed.

End Kinematics.

(** C5: a child attached by [addGear teeth angle] to the gear [g] ends
    with rotation [π + angle + (angle - g.rotation) * ratio], where
    [ratio = g.teeth / teeth]: its mesh starts unrotated, [rotateGear]
    adds [π + angle] and then [(angle - pinion.rotation) * ratio].  This
    holds whenever the call returns, and it returns on valid inputs. *)
Theorem addGear_phase_lock
    (h : Gear.Heap) (this : ref) (g : Gear.t) (teeth : nat) (angle : R) :
  h !! this = Some g ->
  (forall fuel newGear h',
     Gear.addGear fuel this teeth angle h = Normal (newGear, h') ->
     exists child,
       h' !! newGear = Some child /\
       Gear.ratio child = INR (Gear.teeth g) / INR teeth /\
       Gear.rotation child
       = PI + angle + (angle - Gear.rotation g) * Gear.ratio child) /\
  (valid_input teeth (Gear.mod_ g)
     (Params.pressureAngleDeg (Gear.parameters g)) ->
   exists n, forall fuel, (n <= fuel)%nat ->
     exists newGear h',
       Gear.addGear fuel this teeth angle h = Normal (newGear, h')).
Proof.
  intros Hg. split.
  - intros fuel newGear h' Hrun.
    apply (addGear_result _ _ _ _ _ _ _ _ Hg) in Hrun as (shape & -> & ->).
    eexists. split; [eapply lookup_attached, Hg|].
    split; [reflexivity|].
    unfold attachedGear, Gear.rotation; simpl. ring.
  - intros Hv. destruct (addGear_returns h this g teeth angle Hg Hv) as [n Hn].
    exists n. intros fuel Hfuel. destruct (Hn fuel Hfuel) as (shape & _ & Hrun).
    eauto.
Qed.

(** C5 on the heap that [new Gear(20, 3, 20)] leaves, attaching a gear
    of 10 teeth at a right angle. *)
Lemma addGear_phase_lock_witness :
  exists n, forall fuel, (n <= fuel)%nat ->
    exists root h g,
      Gear.new fuel 20 3 20 None [] = Normal (root, h) /\
      h !! root = Some g /\
      (forall fuel' newGear h',
         Gear.addGear fuel' root 10 (PI / 2) h = Normal (newGear, h') ->
         exists child,
           h' !! newGear = Some child /\
           Gear.ratio child = INR (Gear.teeth g) / INR 10 /\
           Gear.rotation child
           = PI + PI / 2 + (PI / 2 - Gear.rotation g) * Gear.ratio child) /\
      (exists n', forall fuel', (n' <= fuel')%nat ->
         exists newGear h',
           Gear.addGear fuel' root 10 (PI / 2) h = Normal (newGear, h')).
Proof.
  destruct (new_root_returns [] 20 3 20 valid_input_20_3_20) as [n Hn].
  exists n. intros fuel Hfuel. destruct (Hn fuel Hfuel) as (shape & _ & Hrun).
  eexists _, _, _. split; [exact Hrun|]. split; [reflexivity|].
  split.
  - apply addGear_phase_lock. reflexivity.
  - eapply addGear_phase_lock; [reflexivity|].
    unfold valid_input, degToRad; simpl. pose proof PI_RGT_0.
    split; [lia|]. split; lra.
Defined.

(** ** The scenarios of the specification *)

Lemma INR_5 : INR 5 = 5.
Proof. rewrite INR_IZR_INZ. reflexivity. Qed.

Lemma INR_10 : INR 10 = 10.
Proof. rewrite INR_IZR_INZ. reflexivity. Qed.

Lemma INR_20 : INR 20 = 20.
Proof. rewrite INR_IZR_INZ. reflexivity. Qed.

Lemma valid_input_teeth (teeth teeth' : nat) (mod_ pressureAngleDeg : R) :
  valid_input teeth mod_ pressureAngleDeg -> (1 <= teeth')%nat ->
  valid_input teeth' mod_ pressureAngleDeg.
Proof. intros (_ & Hm & Ha) Ht. split; [exact Ht|]. split; assumption. Qed.

(** C6: the root built by [new Gear(20, 3, 20)] sits at the origin, and
    [addGear(10, 0)] on it returns a child with [x = 45], [y = 0],
    [ratio = 2] and [rotationSpeed = -2]; in general a child attached at
    angle 0 lies on the pinion's horizontal, at distance
    [module * (teeth_self + teeth_pinion) / 2] from its centre. *)
Theorem addGear_angle_zero_placement :
  (exists n, forall fuel, (n <= fuel)%nat ->
     exists root h pinion newGear h' child,
       Gear.new fuel 20 3 20 None [] = Normal (root, h) /\
       h !! root = Some pinion /\
       Gear.x pinion = 0 /\ Gear.y pinion = 0 /\
       Gear.addGear fuel root 10 0 h = Normal (newGear, h') /\
       h' !! newGear = Some child /\
       Gear.x child = 45 /\ Gear.y child = 0 /\
       Gear.ratio child = 2 /\ Gear.rotationSpeed child = -2) /\
  (forall (h : Gear.Heap) (this : ref) (g : Gear.t) (teeth : nat),
     h !! this = Some g ->
     (forall fuel newGear h',
        Gear.addGear fuel this teeth 0 h = Normal (newGear, h') ->
        exists child,
          h' !! newGear = Some child /\
          Gear.mod_ child = Gear.mod_ g /\
          Gear.teeth child = teeth /\
          Gear.x child
          = Gear.x g
            + Gear.mod_ child * (INR (Gear.teeth child) + INR (Gear.teeth g)) / 2 /\
          Gear.y child = Gear.y g /\
          position_x (Gear.mesh child) = Gear.x child /\
          position_y (Gear.mesh child) = Gear.y child) /\
     (valid_input teeth (Gear.mod_ g)
        (Params.pressureAngleDeg (Gear.parameters g)) ->
      exists n, forall fuel, (n <= fuel)%nat ->
        exists newGear h',
          Gear.addGear fuel this teeth 0 h = Normal (newGear, h'))).
Proof.
  split.
  - destruct (createGeometry_returns 20 3 20 valid_input_20_3_20) as [n20 H20].
    destruct (createGeometry_returns 10 3 20
                (valid_input_teeth 20 10 3 20 valid_input_20_3_20 ltac:(lia)))
      as [n10 H10].
    exists (Nat.max n20 n10). intros fuel Hfuel.
    destruct (H20 fuel ltac:(lia)) as (shape20 & Hmesh20 & _).
    destruct (H10 fuel ltac:(lia)) as (shape10 & Hmesh10 & _).
    pose proof (new_root_spec [] fuel 20 3 20 _ Hmesh20) as Hroot.
    set (pinion := Gear.mk 20 3 (generateGearParams 20 3 20)
                     (mkMesh shape20 0 0 0) 0 0 0 ∅ None 1 1) in *.
    change ([] ++ [pinion]) with [pinion] in Hroot.
    pose proof (addGear_spec [pinion] fuel 0%nat pinion 10 0 _ eq_refl Hmesh10)
      as Hadd.
    eexists _, _, pinion, _, _, _.
    split; [exact Hroot|].
    split; [reflexivity|]. split; [reflexivity|]. split; [reflexivity|].
    split; [exact Hadd|].
    split; [reflexivity|].
    unfold attachedGear, pinion.
    cbn [Gear.x Gear.y Gear.ratio Gear.rotationSpeed Gear.mod_ Gear.teeth].
    rewrite INR_10, INR_20, cos_0, sin_0. repeat split; lra.
  - intros h this g teeth Hg. split.
    + intros fuel newGear h' Hrun.
      apply (addGear_result _ _ _ _ _ _ _ _ Hg) in Hrun as (shape & -> & ->).
      eexists. split; [eapply lookup_attached, Hg|].
      unfold attachedGear.
      cbn [Gear.x Gear.y Gear.mod_ Gear.teeth Gear.mesh position_x position_y].
      rewrite cos_0, sin_0. repeat split; lra.
    + intros Hv. destruct (addGear_returns h this g teeth 0 Hg Hv) as [n Hn].
      exists n. intros fuel Hfuel.
      destruct (Hn fuel Hfuel) as (shape & _ & Hrun). eauto.
Qed.

(** The general half of C6 on the heap that [new Gear(20, 3, 20)]
    leaves. *)
Lemma addGear_angle_zero_placement_witness :
  exists n, forall fuel, (n <= fuel)%nat ->
    exists root h g,
      Gear.new fuel 20 3 20 None [] = Normal (root, h) /\
      h !! root = Some g /\
      (forall fuel' newGear h',
         Gear.addGear fuel' root 10 0 h = Normal (newGear, h') ->
         exists child,
           h' !! newGear = Some child /\
           Gear.mod_ child = Gear.mod_ g /\
           Gear.teeth child = 10%nat /\
           Gear.x child
           = Gear.x g
             + Gear.mod_ child * (INR (Gear.teeth child) + INR (Gear.teeth g)) / 2 /\
           Gear.y child = Gear.y g /\
           position_x (Gear.mesh child) = Gear.x child /\
           position_y (Gear.mesh child) = Gear.y child) /\
      (exists n', forall fuel', (n' <= fuel')%nat ->
         exists newGear h',
           Gear.addGear fuel' root 10 0 h = Normal (newGear, h')).
Proof.
  destruct (new_root_returns [] 20 3 20 valid_input_20_3_20) as [n Hn].
  exists n. intros fuel Hfuel. destruct (Hn fuel Hfuel) as (shape & _ & Hrun).
  eexists _, _, _. split; [exact Hrun|]. split; [reflexivity|].
  split.
  - apply (proj2 addGear_angle_zero_placement). reflexivity.
  - eapply (proj2 addGear_angle_zero_placement); [reflexivity|].
    unfold valid_input, degToRad; simpl. pose proof PI_RGT_0.
    split; [lia|]. split; lra.
Defined.

(** *** The ratio chain *)

(** The three-level tree root (20 teeth) → middle (10 teeth) → leaf
    (5 teeth), built with [addGear] at any two angles: each attachment
    multiplies the speed by [- pinion.teeth / teeth], so the leaf turns
    four times as fast as the root, in the same sense. *)
Lemma ratio_chain (mod_ pressureAngleDeg angle1 angle2 : R) :
  valid_input 20 mod_ pressureAngleDeg ->
  exists n, forall fuel, (n <= fuel)%nat ->
    exists root h1 mid h2 leaf h3 rootGear midGear leafGear,
      Gear.new fuel 20 mod_ pressureAngleDeg None [] = Normal (root, h1) /\
      Gear.addGear fuel root 10 angle1 h1 = Normal (mid, h2) /\
      Gear.addGear fuel mid 5 angle2 h2 = Normal (leaf, h3) /\
      h3 !! root = Some rootGear /\
      h3 !! mid = Some midGear /\
      h3 !! leaf = Some leafGear /\
      Gear.rotationSpeed rootGear = 1 /\
      Gear.rotationSpeed midGear = -2 /\
      Gear.rotationSpeed leafGear = 4.
Proof.
  intros Hv.
  destruct (createGeometry_returns 20 mod_ pressureAngleDeg Hv) as [n20 H20].
  destruct (createGeometry_returns 10 mod_ pressureAngleDeg
              (valid_input_teeth 20 10 _ _ Hv ltac:(lia))) as [n10 H10].
  destruct (createGeometry_returns 5 mod_ pressureAngleDeg
              (valid_input_teeth 20 5 _ _ Hv ltac:(lia))) as [n5 H5].
  exists (Nat.max n20 (Nat.max n10 n5)). intros fuel Hfuel.
  destruct (H20 fuel ltac:(lia)) as (shape20 & Hmesh20 & _).
  destruct (H10 fuel ltac:(lia)) as (shape10 & Hmesh10 & _).
  destruct (H5 fuel ltac:(lia)) as (shape5 & Hmesh5 & _).
  pose proof (new_root_spec [] fuel 20 mod_ pressureAngleDeg _ Hmesh20) as Hroot.
  set (rootGear := Gear.mk 20 mod_ (generateGearParams 20 mod_ pressureAngleDeg)
                     (mkMesh shape20 0 0 0) 0 0 0 ∅ None 1 1) in *.
  change ([] ++ [rootGear]) with [rootGear] in Hroot.
  pose proof (addGear_spec [rootGear] fuel 0%nat rootGear 10 angle1 _
                eq_refl Hmesh10) as Hmid.
  set (midGear := attachedGear 0%nat rootGear (mkMesh shape10 0 0 0) 10 angle1)
    in *.
  set (rootGear' := Gear.set_childGears _ rootGear) in *.
  change (<[0%nat := rootGear']> [rootGear] ++ [midGear])
    with [rootGear'; midGear] in Hmid.
  pose proof (addGear_spec [rootGear'; midGear] fuel 1%nat midGear 5 angle2 _
                eq_refl Hmesh5) as Hleaf.
  set (leafGear := attachedGear 1%nat midGear (mkMesh shape5 0 0 0) 5 angle2)
    in *.
  set (midGear' := Gear.set_childGears _ midGear) in *.
  change (<[1%nat := midGear']> [rootGear'; midGear] ++ [leafGear])
    with [rootGear'; midGear'; leafGear] in Hleaf.
  exists 0%nat, [rootGear], 1%nat, [rootGear'; midGear], 2%nat,
    [rootGear'; midGear'; leafGear], rootGear', midGear', leafGear.
  split; [exact Hroot|]. split; [exact Hmid|]. split; [exact Hleaf|].
  split; [reflexivity|]. split; [reflexivity|]. split; [reflexivity|].
  unfold leafGear, midGear', midGear, rootGear', rootGear, attachedGear,
    Gear.set_childGears.
  cbn [Gear.rotationSpeed Gear.teeth].
  rewrite INR_5, INR_10, INR_20. repeat split; lra.
Qed.

(** C1, as stated, fails: in the tree root (20) → middle (10) → leaf (5)
    built by [new Gear(20, 3, 20)], [addGear(10, 0)] and [addGear(5, 0)],
    the leaf's [rotationSpeed] is 4, not 0.25. *)
Lemma ratio_chain_leaf_not_quarter :
  exists fuel root h1 mid h2 leaf h3 leafGear,
    Gear.new fuel 20 3 20 None [] = Normal (root, h1) /\
    Gear.addGear fuel root 10 0 h1 = Normal (mid, h2) /\
    Gear.addGear fuel mid 5 0 h2 = Normal (leaf, h3) /\
    h3 !! leaf = Some leafGear /\
    Gear.rotationSpeed leafGear = 4 /\
    Gear.rotationSpeed leafGear <> 0.25.
Proof.
  destruct (ratio_chain 3 20 0 0 valid_input_20_3_20) as [n Hn].
  destruct (Hn n (Nat.le_refl n))
    as (root & h1 & mid & h2 & leaf & h3 & rootGear & midGear & leafGear
        & Hroot & Hmid & Hleaf & _ & _ & Hl & _ & _ & Hspeed).
  exists n, root, h1, mid, h2, leaf, h3, leafGear.
  repeat (split; [assumption|]). rewrite Hspeed. lra.
Qed.

(** C1, amended: with the ratio the code computes,
    [pinion.teeth / teeth], the leaf of the tree root (20) → middle
    (10) → leaf (5) has [rotationSpeed = (-20/10) * (-10/5) = 4] times
    the root's speed 1. *)
Theorem ratio_chain_leaf_speed (mod_ pressureAngleDeg angle1 angle2 : R) :
  valid_input 20 mod_ pressureAngleDeg ->
  exists n, forall fuel, (n <= fuel)%nat ->
    exists root h1 mid h2 leaf h3 rootGear leafGear,
      Gear.new fuel 20 mod_ pressureAngleDeg None [] = Normal (root, h1) /\
      Gear.addGear fuel root 10 angle1 h1 = Normal (mid, h2) /\
      Gear.addGear fuel mid 5 angle2 h2 = Normal (leaf, h3) /\
      h3 !! root = Some rootGear /\
      h3 !! leaf = Some leafGear /\
      Gear.rotationSpeed rootGear = 1 /\
      Gear.rotationSpeed leafGear
      = Gear.rotationSpeed rootGear * ((-20 / 10) * (-10 / 5)) /\
      Gear.rotationSpeed leafGear = 4.
Proof.
  intros Hv. destruct (ratio_chain mod_ pressureAngleDeg angle1 angle2 Hv)
    as [n Hn].
  exists n. intros fuel Hfuel.
  destruct (Hn fuel Hfuel)
    as (root & h1 & mid & h2 & leaf & h3 & rootGear & midGear & leafGear
        & Hroot & Hmid & Hleaf & Hr & _ & Hl & Hrs & _ & Hls).
  exists root, h1, mid, h2, leaf, h3, rootGear, leafGear.
  repeat (split; [assumption|]). rewrite Hrs, Hls. split; lra.
Qed.

(** The amended C1 with the default module 3 and pressure angle 20°,
    both gears attached at angle 0. *)
Lemma ratio_chain_leaf_speed_witness :
  exists n, forall fuel, (n <= fuel)%nat ->
    exists root h1 mid h2 leaf h3 rootGear leafGear,
      Gear.new fuel 20 3 20 None [] = Normal (root, h1) /\
      Gear.addGear fuel root 10 0 h1 = Normal (mid, h2) /\
      Gear.addGear fuel mid 5 0 h2 = Normal (leaf, h3) /\
      h3 !! root = Some rootGear /\
      h3 !! leaf = Some leafGear /\
      Gear.rotationSpeed rootGear = 1 /\
      Gear.rotationSpeed leafGear
      = Gear.rotationSpeed rootGear * ((-20 / 10) * (-10 / 5)) /\
      Gear.rotationSpeed leafGear = 4.
Proof.
  apply (ratio_chain_leaf_speed 3 20 0 0).
  unfold valid_input, degToRad. pose proof PI_RGT_0.
  split; [lia|]. split; lra.
Defined.

(** ** Driving a gear *)

(** C9: [driveBy angle] on the gear [g] returns, adds exactly
    [angle * g.rotationSpeed] to the rotation of [g] and changes nothing
    else: every other field of [g] and every other gear of the heap,
    the children of [g] among them, are as before. *)
Theorem driveBy_frame (h : Gear.Heap) (this : ref) (g : Gear.t) (angle : R) :
  h !! this = Some g ->
  exists h' g',
    Gear.driveBy this angle h = Normal (tt, h') /\
    h' !! this = Some g' /\
    Gear.rotation g' = Gear.rotation g + angle * Gear.rotationSpeed g /\
    (Gear.x g' = Gear.x g /\ Gear.y g' = Gear.y g /\
     position_x (Gear.mesh g') = position_x (Gear.mesh g) /\
     position_y (Gear.mesh g') = position_y (Gear.mesh g) /\
     geometry (Gear.mesh g') = geometry (Gear.mesh g) /\
     Gear.angle g' = Gear.angle g /\
     Gear.ratio g' = Gear.ratio g /\
     Gear.rotationSpeed g' = Gear.rotationSpeed g /\
     Gear.teeth g' = Gear.teeth g /\
     Gear.mod_ g' = Gear.mod_ g /\
     Gear.parameters g' = Gear.parameters g /\
     Gear.childGears g' = Gear.childGears g /\
     Gear.pinion g' = Gear.pinion g) /\
    List.length h' = List.length h /\
    (forall other, other <> this -> h' !! other = h !! other).
Proof.
  intros Hg. eexists _, _. split; [apply (driveBy_spec _ _ _ _ Hg)|].
  split; [apply (lookup_insert_same _ _ _ _ Hg)|].
  split; [reflexivity|]. split; [repeat split|].
  split; [apply length_insert|].
  intros other Hne. apply list_lookup_insert_ne. congruence.
Qed.

(** C9 on the root that [new Gear(20, 3, 20)] leaves, driven by a
    quarter turn. *)
Lemma driveBy_frame_witness :
  exists n, forall fuel, (n <= fuel)%nat ->
    exists root h g,
      Gear.new fuel 20 3 20 None [] = Normal (root, h) /\
      h !! root = Some g /\
      (exists h' g',
         Gear.driveBy root (PI / 2) h = Normal (tt, h') /\
         h' !! root = Some g' /\
         Gear.rotation g' = Gear.rotation g + PI / 2 * Gear.rotationSpeed g /\
         (Gear.x g' = Gear.x g /\ Gear.y g' = Gear.y g /\
          position_x (Gear.mesh g') = position_x (Gear.mesh g) /\
          position_y (Gear.mesh g') = position_y (Gear.mesh g) /\
          geometry (Gear.mesh g') = geometry (Gear.mesh g) /\
          Gear.angle g' = Gear.angle g /\
          Gear.ratio g' = Gear.ratio g /\
          Gear.rotationSpeed g' = Gear.rotationSpeed g /\
          Gear.teeth g' = Gear.teeth g /\
          Gear.mod_ g' = Gear.mod_ g /\
          Gear.parameters g' = Gear.parameters g /\
          Gear.childGears g' = Gear.childGears g /\
          Gear.pinion g' = Gear.pinion g) /\
         List.length h' = List.length h /\
         (forall other, other <> root -> h' !! other = h !! other)).
Proof.
  destruct (new_root_returns [] 20 3 20 valid_input_20_3_20) as [n Hn].
  exists n. intros fuel Hfuel. destruct (Hn fuel Hfuel) as (shape & _ & Hrun).
  eexists _, _, _. split; [exact Hrun|]. split; [reflexivity|].
  apply driveBy_frame. reflexivity.
Defined.

(** ** Modules of meshed gears *)

(** C3, as stated, fails: a gear of module 5 constructed with the root
    of module 3 as its pinion is accepted, and [positionGear] then places
    it, 75 = (5 * 10 + 5 * 20) / 2 from the root; no call ends in an
    exception. *)
Lemma mismatched_module_accepted :
  exists fuel root h1 newGear h2 h3 pinion child,
    Gear.new fuel 20 3 20 None [] = Normal (root, h1) /\
    Gear.new fuel 10 5 20 (Some root) h1 = Normal (newGear, h2) /\
    Gear.positionGear newGear h2 = Normal (tt, h3) /\
    h3 !! root = Some pinion /\
    h3 !! newGear = Some child /\
    Gear.pinion child = Some root /\
    Gear.mod_ pinion = 3 /\
    Gear.mod_ child = 5 /\
    Gear.mod_ child <> Gear.mod_ pinion /\
    Gear.x child = Gear.x pinion + 75.
Proof.
  assert (Hv : valid_input 10 5 20).
  { unfold valid_input, degToRad. pose proof PI_RGT_0.
    split; [lia|]. split; lra. }
  destruct (createGeometry_returns 20 3 20 valid_input_20_3_20) as [n20 H20].
  destruct (createGeometry_returns 10 5 20 Hv) as [n10 H10].
  set (fuel := Nat.max n20 n10).
  destruct (H20 fuel ltac:(lia)) as (shape20 & Hmesh20 & _).
  destruct (H10 fuel ltac:(lia)) as (shape10 & Hmesh10 & _).
  pose proof (new_root_spec [] fuel 20 3 20 _ Hmesh20) as Hroot.
  set (pinion := Gear.mk 20 3 (generateGearParams 20 3 20)
                   (mkMesh shape20 0 0 0) 0 0 0 ∅ None 1 1) in *.
  change ([] ++ [pinion]) with [pinion] in Hroot.
  pose proof (new_child_spec [pinion] fuel 10 5 20 _ 0%nat pinion Hmesh10 eq_refl)
    as Hnew.
  set (child := Gear.mk 10 5 _ _ 0 0 0 ∅ (Some 0%nat) _ _) in Hnew.
  change ([pinion] ++ [child]) with [pinion; child] in Hnew.
  pose proof (positionGear_child [pinion; child] 1%nat child 0%nat pinion
                eq_refl eq_refl eq_refl) as Hpos.
  cbv zeta in Hpos.
  eexists fuel, _, _, _, _, _, pinion, _.
  split; [exact Hroot|]. split; [exact Hnew|]. split; [exact Hpos|].
  split; [reflexivity|]. split; [reflexivity|].
  unfold child, pinion, Gear.set_mesh, Gear.set_xy.
  cbn [Gear.pinion Gear.mod_ Gear.x Gear.teeth Gear.angle].
  rewrite INR_10, INR_20, cos_0. repeat split; lra.
Qed.

(** C3, amended: [addGear] compares no modules; it builds the child
    with the module and the pressure angle of the gear it is called on,
    so a gear attached by [addGear] always has the module of its pinion,
    and the call leaves the new gear added to the pinion's child set.
    This holds whenever the call returns, and it returns on valid
    inputs. *)
Theorem addGear_shares_module
    (h : Gear.Heap) (this : ref) (g : Gear.t) (teeth : nat) (angle : R) :
  h !! this = Some g ->
  (forall fuel newGear h',
     Gear.addGear fuel this teeth angle h = Normal (newGear, h') ->
     exists child pinion,
       h' !! newGear = Some child /\
       h' !! this = Some pinion /\
       Gear.pinion child = Some this /\
       Gear.mod_ child = Gear.mod_ pinion /\
       Gear.mod_ pinion = Gear.mod_ g /\
       Params.pressureAngleDeg (Gear.parameters child)
       = Params.pressureAngleDeg (Gear.parameters pinion) /\
       Gear.childGears pinion = {[newGear]} ∪ Gear.childGears g) /\
  (valid_input teeth (Gear.mod_ g)
     (Params.pressureAngleDeg (Gear.parameters g)) ->
   exists n, forall fuel, (n <= fuel)%nat ->
     exists newGear h',
       Gear.addGear fuel this teeth angle h = Normal (newGear, h')).
Proof.
  intros Hg. split.
  - intros fuel newGear h' Hrun.
    apply (addGear_result _ _ _ _ _ _ _ _ Hg) in Hrun as (shape & -> & ->).
    eexists _, _.
    split; [eapply lookup_attached, Hg|].
    split; [eapply lookup_pinion_after, Hg|].
    repeat split.
  - intros Hv. destruct (addGear_returns h this g teeth angle Hg Hv) as [n Hn].
    exists n. intros fuel Hfuel. destruct (Hn fuel Hfuel) as (shape & _ & Hrun).
    eauto.
Qed.

(** The amended C3 on the heap that [new Gear(20, 3, 20)] leaves. *)
Lemma addGear_shares_module_witness :
  exists n, forall fuel, (n <= fuel)%nat ->
    exists root h g,
      Gear.new fuel 20 3 20 None [] = Normal (root, h) /\
      h !! root = Some g /\
      (forall fuel' newGear h',
         Gear.addGear fuel' root 10 0 h = Normal (newGear, h') ->
         exists child pinion,
           h' !! newGear = Some child /\
           h' !! root = Some pinion /\
           Gear.pinion child = Some root /\
           Gear.mod_ child = Gear.mod_ pinion /\
           Gear.mod_ pinion = Gear.mod_ g /\
           Params.pressureAngleDeg (Gear.parameters child)
           = Params.pressureAngleDeg (Gear.parameters pinion) /\
           Gear.childGears pinion = {[newGear]} ∪ Gear.childGears g) /\
      (exists n', forall fuel', (n' <= fuel')%nat ->
         exists newGear h',
           Gear.addGear fuel' root 10 0 h = Normal (newGear, h')).
Proof.
  destruct (new_root_returns [] 20 3 20 valid_input_20_3_20) as [n Hn].
  exists n. intros fuel Hfuel. destruct (Hn fuel Hfuel) as (shape & _ & Hrun).
  eexists _, _, _. split; [exact Hrun|]. split; [reflexivity|].
  split.
  - apply addGear_shares_module. reflexivity.
  - eapply addGear_shares_module; [reflexivity|].
    unfold valid_input, degToRad; simpl. pose proof PI_RGT_0.
    split; [lia|]. split; lra.
Defined.

(** ** The shape of the gear tree *)

Section Tree.

Import Gear.

Implicit Types (h : list Gear.t) (g : Gear.t) (this c p : nat).

Lemma pinion_of_insert h this g g' c p :
  h !! this = Some g -> pinion g' = pinion g ->
  pinion_of (<[this := g']> h) c p <-> pinion_of h c p.
Proof.
  intros Hg Hp. unfold pinion_of. destruct (decide (c = this)) as [->|Hne].
  - rewrite (lookup_insert_same _ _ _ _ Hg), Hg. split.
    + intros (? & [= <-] & H). exists g. split; congruence.
    + intros (? & [= <-] & H). exists g'. split; congruence.
  - rewrite list_lookup_insert_ne by congruence. reflexivity.
Qed.

Lemma child_of_insert h this g g' c p :
  h !! this = Some g ->
  child_of (<[this := g']> h) c p <->
  (p <> this /\ child_of h c p) \/ (p = this /\ c ∈ childGears g').
Proof.
  intros Hg. unfold child_of. destruct (decide (p = this)) as [->|Hne].
  - rewrite (lookup_insert_same _ _ _ _ Hg). split.
    + intros (? & [= <-] & H). right. auto.
    + intros [[? _]|[_ H]]; [congruence|]. eauto.
  - rewrite list_lookup_insert_ne by congruence. split.
    + intros H. left. auto.
    + intros [[_ H]|[? _]]; [exact H | congruence].
Qed.

Lemma lookup_snoc_Some h g0 i g :
  (h ++ [g0]) !! i = Some g <->
  h !! i = Some g \/ (i = List.length h /\ g = g0).
Proof.
  destruct (Nat.lt_total i (List.length h)) as [Hlt|[->|Hgt]].
  - rewrite lookup_app_l by exact Hlt. split; [auto|].
    intros [H|[-> _]]; [exact H | lia].
  - rewrite lookup_snoc. split.
    + intros [= <-]. auto.
    + intros [H|[_ ->]]; [|reflexivity].
      apply lookup_lt_Some in H. lia.
  - rewrite (proj2 (lookup_ge_None _ _)) by (rewrite length_app; simpl; lia).
    split; [discriminate|].
    intros [H|[-> _]]; [apply lookup_lt_Some in H|]; lia.
Qed.

Lemma pinion_of_snoc h g0 c p :
  pinion_of (h ++ [g0]) c p <->
  pinion_of h c p \/ (c = List.length h /\ pinion g0 = Some p).
Proof.
  unfold pinion_of. split.
  - intros (g & Hg & Hp). apply lookup_snoc_Some in Hg as [Hg|[-> ->]]; eauto.
  - intros [(g & Hg & Hp)|[-> Hp]].
    + exists g. split; [apply lookup_snoc_Some; auto | exact Hp].
    + exists g0. split; [apply lookup_snoc | exact Hp].
Qed.

Lemma child_of_snoc h g0 c p :
  child_of (h ++ [g0]) c p <->
  child_of h c p \/ (p = List.length h /\ c ∈ childGears g0).
Proof.
  unfold child_of. split.
  - intros (g & Hg & Hc). apply lookup_snoc_Some in Hg as [Hg|[-> ->]]; eauto.
  - intros [(g & Hg & Hc)|[-> Hc]].
    + exists g. split; [apply lookup_snoc_Some; auto | exact Hc].
    + exists g0. split; [apply lookup_snoc | exact Hc].
Qed.

Lemma pinion_of_lt h c p : pinion_of h c p -> (c < List.length h)%nat.
Proof. intros (g & Hg & _). eapply lookup_lt_Some, Hg. Qed.

(** *** Calls that overwrite one gear and keep its links *)

Lemma tree_wf_update h this g g' :
  tree_wf h -> h !! this = Some g -> same_links g g' ->
  tree_wf (<[this := g']> h).
Proof.
  intros [Hlt Hch] Hg [Hp Hc]. split.
  - intros c p H. apply Hlt. eapply pinion_of_insert; eauto.
  - intros c p H. apply (pinion_of_insert _ _ _ _ _ _ Hg Hp).
    apply Hch. apply (child_of_insert _ _ _ _ _ _ Hg) in H as [[_ H]|[-> H]].
    + exact H.
    + exists g. split; [exact Hg | rewrite <- Hc; exact H].
Qed.

Lemma driveBy_inv h this (a : R) h' :
  driveBy this a h = Normal (tt, h') ->
  exists g g', h !! this = Some g /\ h' = <[this := g']> h /\ same_links g g'.
Proof.
  destruct (h !! this) as [g|] eqn:Hg.
  - rewrite (driveBy_spec _ _ _ _ Hg). intros [= <-].
    eexists _, _. repeat split.
  - unfold driveBy, mbind, M_bind, load. rewrite Hg. discriminate.
Qed.

Lemma setPosition_inv h this (x' y' : R) h' :
  setPosition this x' y' h = Normal (tt, h') ->
  exists g g', h !! this = Some g /\ h' = <[this := g']> h /\ same_links g g'.
Proof.
  destruct (h !! this) as [g|] eqn:Hg.
  - rewrite (setPosition_spec _ _ _ _ _ Hg). intros [= <-].
    eexists _, _. repeat split.
  - unfold setPosition, mbind, M_bind, load. rewrite Hg. discriminate.
Qed.

Lemma calculateRatio_inv h this h' :
  calculateRatio this h = Normal (tt, h') ->
  exists g g', h !! this = Some g /\ h' = <[this := g']> h /\ same_links g g'.
Proof.
  destruct (h !! this) as [g|] eqn:Hg;
    [|unfold calculateRatio, mbind, M_bind, load; rewrite Hg; discriminate].
  destruct (pinion g) as [p|] eqn:Hp.
  - destruct (h !! p) as [pg|] eqn:Hpg.
    + rewrite (calculateRatio_child _ _ _ _ _ Hg Hp Hpg). intros [= <-].
      eexists _, _. repeat split; simpl; congruence.
    + unfold calculateRatio, mbind, M_bind, load. rewrite Hg, Hp, Hpg.
      discriminate.
  - rewrite (calculateRatio_root _ _ _ Hg Hp). intros [= <-].
    eexists _, _. repeat split; simpl; congruence.
Qed.

Lemma positionGear_inv h this h' :
  positionGear this h = Normal (tt, h') ->
  h' = h \/
  exists g g', h !! this = Some g /\ h' = <[this := g']> h /\ same_links g g'.
Proof.
  destruct (h !! this) as [g|] eqn:Hg;
    [|unfold positionGear, mbind, M_bind, load; rewrite Hg; discriminate].
  destruct (pinion g) as [p|] eqn:Hp.
  - destruct (h !! p) as [pg|] eqn:Hpg.
    + rewrite (positionGear_child _ _ _ _ _ Hg Hp Hpg). intros [= <-].
      right. eexists _, _. repeat split; simpl; congruence.
    + unfold positionGear, mbind, M_bind, load. rewrite Hg, Hp, Hpg.
      discriminate.
  - rewrite (positionGear_root _ _ _ Hg Hp). intros [= <-]. left. reflexivity.
Qed.

Lemma rotateGear_inv h this h' :
  rotateGear this h = Normal (tt, h') ->
  h' = h \/
  exists g g', h !! this = Some g /\ h' = <[this := g']> h /\ same_links g g'.
Proof.
  destruct (h !! this) as [g|] eqn:Hg;
    [|unfold rotateGear, mbind, M_bind, load; rewrite Hg; discriminate].
  destruct (pinion g) as [p|] eqn:Hp.
  - unfold rotateGear, mbind, M_bind. rewrite (load_Some _ _ _ Hg), Hp.
    unfold store.
    rewrite (load_Some _ this _ (lookup_insert_same _ _ _ _ Hg)).
    unfold load at 1.
    destruct (<[this:=set_rotation (rotation g + (PI + angle g)) g]> h !! p)
      as [pg|]; [|discriminate].
    rewrite list_insert_insert_eq. intros [= <-].
    right. eexists _, _. repeat split.
  - rewrite (rotateGear_root _ _ _ Hg Hp). intros [= <-]. left. reflexivity.
Qed.

End Tree.

(** *** Calls that allocate a gear *)

Section Allocation.

Import Gear.

Implicit Types (h : list Gear.t) (g : Gear.t) (this c p : nat).

Lemma new_inv h (fuel teeth : nat) (mod_ pressureAngleDeg : R)
    (pin : option nat) this h' :
  new fuel teeth mod_ pressureAngleDeg pin h = Normal (this, h') ->
  exists g0,
    this = List.length h /\ h' = h ++ [g0] /\
    pinion g0 = pin /\ childGears g0 = ∅.
Proof.
  unfold new, mbind, M_bind, lift.
  destruct (createGeometry fuel
              (generateGearParams teeth mod_ pressureAngleDeg))
    as [mesh| |]; try discriminate.
  unfold alloc. cbv beta iota.
  destruct (calculateRatio (List.length h) _) as [[[] h'']| |] eqn:Hcalc;
    try discriminate.
  intros [= <- <-].
  apply calculateRatio_inv in Hcalc as (g & g' & Hg & -> & Hp & Hc).
  rewrite lookup_snoc in Hg. injection Hg as <-.
  exists g'. rewrite insert_snoc. repeat split; assumption.
Qed.

Lemma addGear_inv h (fuel : nat) this (teeth : nat) (a : R) newGear h' :
  addGear fuel this teeth a h = Normal (newGear, h') ->
  exists g mesh,
    h !! this = Some g /\
    newGear = List.length h /\
    h' = <[this := set_childGears ({[List.length h]} ∪ childGears g) g]> h
         ++ [attachedGear this g mesh teeth a].
Proof.
  destruct (h !! this) as [g|] eqn:Hg;
    [|unfold addGear, mbind, M_bind, load; rewrite Hg; discriminate].
  intros Hrun. apply (addGear_result _ _ _ _ _ _ _ _ Hg) in Hrun
    as (shape & -> & ->).
  eauto.
Qed.

Lemma tree_wf_new h g0 :
  tree_wf h ->
  (forall p, pinion g0 = Some p -> (p < List.length h)%nat) ->
  childGears g0 = ∅ ->
  tree_wf (h ++ [g0]).
Proof.
  intros [Hlt Hch] Hp Hc. split.
  - intros c p H. apply pinion_of_snoc in H as [H|[-> H]]; auto.
  - intros c p H. apply pinion_of_snoc.
    apply child_of_snoc in H as [H|[_ H]]; [auto|].
    rewrite Hc in H. set_solver.
Qed.

Lemma pinion_of_attached h this g mesh (teeth : nat) (a : R) c p :
  h !! this = Some g ->
  pinion_of (<[this := set_childGears ({[List.length h]} ∪ childGears g) g]> h
             ++ [attachedGear this g mesh teeth a]) c p <->
  pinion_of h c p \/ (c = List.length h /\ p = this).
Proof.
  intros Hg. rewrite pinion_of_snoc, length_insert.
  rewrite (pinion_of_insert _ _ _ _ _ _ Hg) by reflexivity.
  simpl. split; intros [H|[-> H]]; auto; right; split; congruence.
Qed.

Lemma child_of_attached h this g mesh (teeth : nat) (a : R) c p :
  h !! this = Some g ->
  child_of (<[this := set_childGears ({[List.length h]} ∪ childGears g) g]> h
            ++ [attachedGear this g mesh teeth a]) c p <->
  child_of h c p \/ (c = List.length h /\ p = this).
Proof.
  intros Hg. rewrite child_of_snoc, length_insert.
  rewrite (child_of_insert _ _ _ _ _ _ Hg). simpl. split.
  - intros [[[_ H]|[-> H]]|[_ H]]; [auto| |set_solver].
    apply elem_of_union in H as [H|H]; [right; set_solver|].
    left. exists g. auto.
  - intros [(g1 & Hg1 & H)|[-> ->]].
    + left. destruct (decide (p = this)) as [->|Hne].
      * right. split; [reflexivity|]. rewrite Hg in Hg1.
        injection Hg1 as <-. set_solver.
      * left. split; [exact Hne|]. exists g1. auto.
    + left. right. split; [reflexivity | set_solver].
Qed.

Lemma tree_wf_addGear h this g mesh (teeth : nat) (a : R) :
  tree_wf h -> h !! this = Some g ->
  tree_wf (<[this := set_childGears ({[List.length h]} ∪ childGears g) g]> h
           ++ [attachedGear this g mesh teeth a]).
Proof.
  intros [Hlt Hch] Hg. pose proof (lookup_lt_Some _ _ _ Hg). split.
  - intros c p Hp.
    apply (pinion_of_attached _ _ _ _ _ _ _ _ Hg) in Hp as [Hp|[-> ->]]; auto.
  - intros c p Hc. apply (pinion_of_attached _ _ _ _ _ _ _ _ Hg).
    apply (child_of_attached _ _ _ _ _ _ _ _ Hg) in Hc as [Hc|Hc]; auto.
Qed.

(** Every call keeps the tree well formed. *)
Lemma call_tree_wf h h' : call h h' -> tree_wf h -> tree_wf h'.
Proof.
  intros Hcall Hwf.
  destruct Hcall as [fuel teeth mod_ pa pin this Hpin Hrun
                    |fuel this teeth a newGear Hrun
                    |this a Hrun|this x' y' Hrun|this Hrun|this Hrun|this Hrun].
  - apply new_inv in Hrun as (g0 & -> & -> & Hp & Hc).
    apply tree_wf_new; [exact Hwf | | exact Hc].
    intros p Hp'. apply lookup_lt_is_Some, Hpin. congruence.
  - apply addGear_inv in Hrun as (g & mesh & Hg & -> & ->).
    apply tree_wf_addGear; assumption.
  - apply driveBy_inv in Hrun as (g & g' & Hg & -> & Hl).
    eapply tree_wf_update; eauto.
  - apply setPosition_inv in Hrun as (g & g' & Hg & -> & Hl).
    eapply tree_wf_update; eauto.
  - apply calculateRatio_inv in Hrun as (g & g' & Hg & -> & Hl).
    eapply tree_wf_update; eauto.
  - apply positionGear_inv in Hrun as [->|(g & g' & Hg & -> & Hl)];
      [exact Hwf | eapply tree_wf_update; eauto].
  - apply rotateGear_inv in Hrun as [->|(g & g' & Hg & -> & Hl)];
      [exact Hwf | eapply tree_wf_update; eauto].
Qed.

Lemma tree_wf_nil : tree_wf [].
Proof.
  split.
  - intros c p (g & Hg & _). rewrite lookup_nil in Hg. discriminate.
  - intros c p (g & Hg & _). rewrite lookup_nil in Hg. discriminate.
Qed.

Lemma reachable_tree_wf h : reachable h -> tree_wf h.
Proof.
  unfold reachable. revert h. apply rtc_ind_r; [apply tree_wf_nil|].
  intros h h' _ Hcall Hwf. eapply call_tree_wf; eauto.
Qed.

(** Following pinions leads to gears allocated earlier. *)
Lemma tc_pinion_of_lt h c p :
  tree_wf h -> tc (pinion_of h) c p -> (p < c)%nat.
Proof.
  intros [Hlt _] Htc. induction Htc as [c p H|c q p H _ IH].
  - apply Hlt, H.
  - apply Hlt in H. lia.
Qed.

End Allocation.

(** ** The tree of gears under every call of the class *)

(** Two calls of [addGear(10, 0)] in a row on the heap that
    [new Gear(20, 3, 20)] leaves both return; each attaches a gear of
    its own, so the root's child set grows from one gear to two, which
    have the same teeth, module, pressure angle, angle and position. *)
Lemma addGear_twice_two_gears :
  exists fuel root h1 first h2 second h3 pinion2 pinion3 g1 g2,
    Gear.new fuel 20 3 20 None [] = Normal (root, h1) /\
    Gear.addGear fuel root 10 0 h1 = Normal (first, h2) /\
    Gear.addGear fuel root 10 0 h2 = Normal (second, h3) /\
    h2 !! root = Some pinion2 /\
    h3 !! root = Some pinion3 /\
    h3 !! first = Some g1 /\
    h3 !! second = Some g2 /\
    first <> second /\
    Gear.childGears pinion2 = {[first]} /\
    Gear.childGears pinion3 = {[first; second]} /\
    Gear.pinion g1 = Some root /\ Gear.pinion g2 = Some root /\
    Gear.teeth g1 = Gear.teeth g2 /\
    Gear.mod_ g1 = Gear.mod_ g2 /\
    Gear.parameters g1 = Gear.parameters g2 /\
    Gear.angle g1 = Gear.angle g2 /\
    Gear.x g1 = Gear.x g2 /\ Gear.y g1 = Gear.y g2.
Proof.
  destruct (createGeometry_returns 20 3 20 valid_input_20_3_20) as [n20 H20].
  destruct (createGeometry_returns 10 3 20
              (valid_input_teeth 20 10 3 20 valid_input_20_3_20 ltac:(lia)))
    as [n10 H10].
  set (fuel := Nat.max n20 n10).
  destruct (H20 fuel ltac:(lia)) as (shape20 & Hmesh20 & _).
  destruct (H10 fuel ltac:(lia)) as (shape10 & Hmesh10 & _).
  pose proof (new_root_spec [] fuel 20 3 20 _ Hmesh20) as Hroot.
  set (rootGear := Gear.mk 20 3 (generateGearParams 20 3 20)
                     (mkMesh shape20 0 0 0) 0 0 0 ∅ None 1 1) in *.
  change ([] ++ [rootGear]) with [rootGear] in Hroot.
  pose proof (addGear_spec [rootGear] fuel 0%nat rootGear 10 0 _
                eq_refl Hmesh10) as Hfirst.
  set (g1 := attachedGear 0%nat rootGear (mkMesh shape10 0 0 0) 10 0) in *.
  set (pinion2 := Gear.set_childGears _ rootGear) in *.
  change (<[0%nat := pinion2]> [rootGear] ++ [g1]) with [pinion2; g1] in Hfirst.
  pose proof (addGear_spec [pinion2; g1] fuel 0%nat pinion2 10 0 _
                eq_refl Hmesh10) as Hsecond.
  set (g2 := attachedGear 0%nat pinion2 (mkMesh shape10 0 0 0) 10 0) in *.
  set (pinion3 := Gear.set_childGears _ pinion2) in *.
  change (<[0%nat := pinion3]> [pinion2; g1] ++ [g2])
    with [pinion3; g1; g2] in Hsecond.
  exists fuel, 0%nat, [rootGear], 1%nat, [pinion2; g1], 2%nat,
    [pinion3; g1; g2], pinion2, pinion3, g1, g2.
  split; [exact Hroot|]. split; [exact Hfirst|]. split; [exact Hsecond|].
  split; [reflexivity|]. split; [reflexivity|]. split; [reflexivity|].
  split; [reflexivity|]. split; [lia|].
  split; [simpl; set_solver|]. split; [simpl; set_solver|].
  repeat split.
Qed.

Section Built.

Import Gear.

Implicit Types (h : list Gear.t) (g : Gear.t) (this c p : nat).

Lemma reset_inv h (fuel : nat) this (mesh : Mesh) h' :
  reset fuel this h = Normal (mesh, h') ->
  exists g g', h !! this = Some g /\ h' = <[this := g']> h /\ same_links g g'.
Proof.
  destruct (h !! this) as [g|] eqn:Hg;
    [|unfold reset, mbind, M_bind, load; rewrite Hg; discriminate].
  unfold reset, mbind, M_bind. rewrite (load_Some _ _ _ Hg). unfold store.
  rewrite (load_Some _ this _ (lookup_insert_same _ _ _ _ Hg)).
  unfold lift. cbn [parameters set_parameters].
  destruct (createGeometry fuel _) as [m| |]; try discriminate.
  rewrite (load_Some _ this _ (lookup_insert_same _ _ _ _ Hg)).
  rewrite list_insert_insert_eq. intros [= <- <-].
  exists g. eexists. repeat split.
Qed.

Lemma createGeometryOn_inv h (fuel : nat) this (parameters : Params.t)
    (mesh : Mesh) h' :
  createGeometryOn fuel this parameters h = Normal (mesh, h') ->
  exists g g', h !! this = Some g /\ h' = <[this := g']> h /\ same_links g g'.
Proof.
  unfold createGeometryOn, mbind, M_bind, lift.
  destruct (createGeometry fuel parameters) as [m| |]; try discriminate.
  destruct (h !! this) as [g|] eqn:Hg;
    [|unfold load; rewrite Hg; discriminate].
  rewrite (load_Some _ _ _ Hg). unfold store. intros [= <- <-].
  exists g. eexists. repeat split.
Qed.

Lemma assignRotation_inv h this (rot : R) h' :
  assignRotation this rot h = Normal (tt, h') ->
  exists g g', h !! this = Some g /\ h' = <[this := g']> h /\ same_links g g'.
Proof.
  unfold assignRotation, mbind, M_bind.
  destruct (h !! this) as [g|] eqn:Hg;
    [|unfold load; rewrite Hg; discriminate].
  rewrite (load_Some _ _ _ Hg). unfold store. intros [= <-].
  exists g. eexists. repeat split.
Qed.

(** What a call can do to the heap: nothing, overwrite one gear and
    keep its links, allocate a gear with no children whose pinion is a
    gear of the heap, or attach a new gear the way [addGear] does. *)
Lemma method_call_inv h h' :
  method_call h h' ->
  h' = h \/
  (exists this g g',
     h !! this = Some g /\ h' = <[this := g']> h /\ same_links g g') \/
  (exists g0,
     h' = h ++ [g0] /\
     (forall p, pinion g0 = Some p -> is_Some (h !! p)) /\
     childGears g0 = ∅) \/
  (exists this g mesh (teeth : nat) (a : R),
     h !! this = Some g /\
     h' = <[this := set_childGears ({[List.length h]} ∪ childGears g) g]> h
          ++ [attachedGear this g mesh teeth a]).
Proof.
  intros [Hcall|fuel this mesh Hrun|fuel this prm mesh Hrun|this rot Hrun].
  - destruct Hcall as [fuel teeth mod_ pa pin this Hpin Hrun
                      |fuel this teeth a newGear Hrun
                      |this a Hrun|this x' y' Hrun|this Hrun|this Hrun
                      |this Hrun].
    + apply new_inv in Hrun as (g0 & -> & -> & Hp & Hc).
      right. right. left. exists g0. split; [reflexivity|].
      split; [|exact Hc]. intros p Hp'. apply Hpin. congruence.
    + apply addGear_inv in Hrun as (g & mesh & Hg & -> & ->).
      right. right. right. exists this, g, mesh, teeth, a. auto.
    + apply driveBy_inv in Hrun as (g & g' & H). right. left. eauto.
    + apply setPosition_inv in Hrun as (g & g' & H). right. left. eauto.
    + apply calculateRatio_inv in Hrun as (g & g' & H). right. left. eauto.
    + apply positionGear_inv in Hrun as [->|(g & g' & H)];
        [left; reflexivity | right; left; eauto].
    + apply rotateGear_inv in Hrun as [->|(g & g' & H)];
        [left; reflexivity | right; left; eauto].
  - apply reset_inv in Hrun as (g & g' & H). right. left. eauto.
  - apply createGeometryOn_inv in Hrun as (g & g' & H). right. left. eauto.
  - apply assignRotation_inv in Hrun as (g & g' & H). right. left. eauto.
Qed.

Lemma links_update h this g g' c p :
  h !! this = Some g -> same_links g g' ->
  (pinion_of (<[this := g']> h) c p <-> pinion_of h c p) /\
  (child_of (<[this := g']> h) c p <-> child_of h c p).
Proof.
  intros Hg [Hp Hc]. split; [apply (pinion_of_insert _ _ _ _ _ _ Hg Hp)|].
  rewrite (child_of_insert _ _ _ _ _ _ Hg), Hc. split.
  - intros [[_ H]|[-> H]]; [exact H|]. exists g. auto.
  - intros (g1 & Hg1 & H). destruct (decide (p = this)) as [->|Hne].
    + right. split; [reflexivity|]. congruence.
    + left. split; [exact Hne|]. exists g1. auto.
Qed.

Lemma method_call_tree_wf h h' : method_call h h' -> tree_wf h -> tree_wf h'.
Proof.
  intros Hcall Hwf.
  destruct (method_call_inv _ _ Hcall)
    as [->|[(this & g & g' & Hg & -> & Hl)
           |[(g0 & -> & Hp & Hc)|(this & g & mesh & teeth & a & Hg & ->)]]].
  - exact Hwf.
  - eapply tree_wf_update; eauto.
  - apply tree_wf_new; [exact Hwf | | exact Hc].
    intros p Hp'. apply lookup_lt_is_Some, Hp, Hp'.
  - apply tree_wf_addGear; assumption.
Qed.

Lemma built_tree_wf h : built h -> tree_wf h.
Proof.
  unfold built. revert h. apply rtc_ind_r; [apply tree_wf_nil|].
  intros h h' _ Hcall Hwf. eapply method_call_tree_wf; eauto.
Qed.

Lemma reachable_built h : reachable h -> built h.
Proof.
  unfold reachable, built. apply rtc_subrel.
  intros h1 h2 Hcall. apply method_call_call, Hcall.
Qed.

(** No call removes a link, and the child of a link it adds is a gear
    that was not there before, attached to one that was. *)
Lemma method_call_links h h' c p :
  method_call h h' ->
  (pinion_of h c p -> pinion_of h' c p) /\
  (child_of h c p -> child_of h' c p) /\
  (pinion_of h' c p ->
   pinion_of h c p \/ (h !! c = None /\ is_Some (h !! p))) /\
  (child_of h' c p ->
   child_of h c p \/ (h !! c = None /\ is_Some (h !! p))).
Proof.
  intros Hcall.
  destruct (method_call_inv _ _ Hcall)
    as [->|[(this & g & g' & Hg & -> & Hl)
           |[(g0 & -> & Hp & Hc)|(this & g & mesh & teeth & a & Hg & ->)]]].
  - tauto.
  - destruct (links_update h this g g' c p Hg Hl) as [Hpin Hch]. tauto.
  - rewrite pinion_of_snoc, child_of_snoc. repeat split; auto.
    + intros [H|[-> H]]; [auto|]. right.
      split; [apply lookup_ge_None; lia | apply Hp, H].
    + intros [H|[_ H]]; [auto|]. rewrite Hc in H. set_solver.
  - rewrite (pinion_of_attached _ _ _ _ _ _ _ _ Hg),
      (child_of_attached _ _ _ _ _ _ _ _ Hg).
    repeat split; auto.
    + intros [H|[-> ->]]; [auto|]. right.
      split; [apply lookup_ge_None; lia | eauto].
    + intros [H|[-> ->]]; [auto|]. right.
      split; [apply lookup_ge_None; lia | eauto].
Qed.

End Built.



(** * Further properties of the code *)

(** ** Conversions *)

(** X1: [radToDeg] and [degToRad] undo each other, in both orders. *)
Theorem degToRad_radToDeg_inverse (angle : R) :
  radToDeg (degToRad angle) = angle /\ degToRad (radToDeg angle) = angle.
Proof.
  pose proof PI_RGT_0. unfold radToDeg, degToRad. split; field; lra.
Qed.

Lemma sqrt_sum_squares_pos (x y : R) : x <> 0 -> 0 < sqrt (x * x + y * y).
Proof. intros Hx. apply sqrt_lt_R0. nra. Qed.

Lemma sqrt_slope (x y : R) :
  x <> 0 -> sqrt (1 + (y / x)²) = sqrt (x * x + y * y) / Rabs x.
Proof.
  intros Hx. rewrite <- (sqrt_Rsqr_abs x).
  rewrite <- sqrt_div_alt by (apply Rlt_0_sqr; exact Hx).
  f_equal. unfold Rsqr. field. exact Hx.
Qed.

Lemma polar_of_slope (x y : R) :
  x <> 0 ->
  sqrt (x * x + y * y) * cos (atan (y / x)) = Rabs x /\
  sqrt (x * x + y * y) * sin (atan (y / x)) = Rabs x * (y / x).
Proof.
  intros Hx. pose proof (sqrt_sum_squares_pos x y Hx) as Hr.
  pose proof (Rabs_pos_lt x Hx) as Ha.
  rewrite cos_atan, sin_atan, sqrt_slope by exact Hx.
  split; field; split; lra.
Qed.

(** X2: [carToPol] returns a radius that is not negative and an angle in
    (-π, π], and [polToCar] takes them back to the point. *)
Theorem polToCar_carToPol (x y : R) :
  let p := carToPol x y in
  0 <= Polar.r p /\
  - PI < Polar.w p <= PI /\
  polToCar (Polar.r p) (Polar.w p) = THREE.mkVector2 x y.
Proof.
  pose proof PI_RGT_0 as Hpi. pose proof (atan_bound (y / x)) as Hatan.
  unfold carToPol, polToCar, Math_atan2. cbn [Polar.r Polar.w].
  split; [apply sqrt_pos|].
  destruct (Rlt_dec 0 x) as [Hx|Hx].
  - split; [lra|].
    destruct (polar_of_slope x y (Rgt_not_eq _ _ Hx)) as [-> ->].
    rewrite Rabs_pos_eq by lra. f_equal. field. lra.
  - destruct (Rlt_dec x 0) as [Hx'|Hx'].
    + assert (Hneg : Rabs x = - x) by (apply Rabs_left; exact Hx').
      destruct (polar_of_slope x y (Rlt_not_eq _ _ Hx')) as [Hc Hs].
      destruct (Rle_dec 0 y) as [Hy|Hy].
      * split.
        { assert (atan (y / x) <= 0); [|lra].
          rewrite <- atan_0.
          destruct (Req_dec y 0) as [->|Hy0].
          - right. f_equal. field. lra.
          - left. apply atan_increasing.
            apply Rmult_lt_reg_r with (r := - x); [lra|].
            replace (y / x * - x) with (- y) by (field; lra). lra. }
        rewrite neg_cos, neg_sin. f_equal.
        -- transitivity (- (sqrt (x * x + y * y) * cos (atan (y / x))));
             [ring|]. rewrite Hc, Hneg. ring.
        -- transitivity (- (sqrt (x * x + y * y) * sin (atan (y / x))));
             [ring|]. rewrite Hs, Hneg. field. lra.
      * split.
        { assert (0 < atan (y / x)); [|lra].
          rewrite <- atan_0. apply atan_increasing.
          apply Rmult_lt_reg_r with (r := - x); [lra|].
          replace (y / x * - x) with (- y) by (field; lra). lra. }
        rewrite cos_minus, sin_minus, cos_PI, sin_PI. f_equal.
        -- transitivity (- (sqrt (x * x + y * y) * cos (atan (y / x))));
             [ring|]. rewrite Hc, Hneg. ring.
        -- transitivity (- (sqrt (x * x + y * y) * sin (atan (y / x))));
             [ring|]. rewrite Hs, Hneg. field. lra.
    + assert (x = 0) as -> by lra.
      replace (0 * 0 + y * y) with (y * y) by ring.
      destruct (Rlt_dec 0 y) as [Hy|Hy].
      * split; [lra|]. rewrite sqrt_square, cos_PI2, sin_PI2 by lra.
        f_equal; ring.
      * destruct (Rlt_dec y 0) as [Hy'|Hy'].
        -- split; [lra|]. rewrite cos_neg, sin_neg, cos_PI2, sin_PI2.
           replace (y * y) with ((- y) * (- y)) by ring.
           rewrite sqrt_square by lra. f_equal; ring.
        -- assert (y = 0) as -> by lra. split; [lra|].
           replace (0 * 0) with 0 by ring. rewrite sqrt_0. f_equal; ring.
Qed.

(** ** Choosing from the palette *)

Lemma Math_floor_index (random : R) (n : nat) :
  0 <= random < 1 -> (0 < n)%nat ->
  (0 <= Math_floor (random * INR n))%Z /\
  (Z.to_nat (Math_floor (random * INR n)) < n)%nat.
Proof.
  intros [Hlo Hhi] Hn. unfold Math_floor.
  pose proof (lt_0_INR n Hn) as Hpos.
  destruct (base_Int_part (random * INR n)) as [Hle Hgt].
  assert (H0 : (0 <= Int_part (random * INR n))%Z).
  { assert (Hprod : 0 <= random * INR n) by nra.
    assert (H : IZR (-1) < IZR (Int_part (random * INR n))) by lra.
    apply lt_IZR in H. lia. }
  split; [exact H0|].
  apply INR_lt. rewrite INR_IZR_INZ, Z2Nat.id by exact H0. nra.
Qed.

(** X3: for every draw [0 <= random < 1], [choose] returns an element of
    a non-empty array, never [undefined]; so it always finds a colour in
    the palette.  On the empty array it returns [undefined]. *)
Theorem choose_in_array {A : Type} (random : R) (array : list A) :
  0 <= random < 1 ->
  (array <> [] -> exists a, choose random array = Some a /\ a ∈ array) /\
  (array = [] -> choose random array = None) /\
  (exists c, choose random COLORS = Some c /\ c ∈ COLORS).
Proof.
  intros Hr.
  assert (Hne : forall (B : Type) (l : list B), l <> [] ->
            exists b, choose random l = Some b /\ b ∈ l).
  { intros B l Hl. unfold choose.
    assert (Hn : (0 < List.length l)%nat) by (destruct l; simpl; [congruence|lia]).
    destruct (Math_floor_index random _ Hr Hn) as [H0 Hlt].
    destruct (Z.ltb_spec (Math_floor (random * INR (List.length l))) 0);
      [lia|].
    destruct (lookup_lt_is_Some_2 l _ Hlt) as [b Hb].
    exists b. split; [exact Hb|]. eapply list_elem_of_lookup_2, Hb. }
  split; [apply Hne|]. split.
  - intros ->. unfold choose, Math_floor. simpl.
    rewrite Rmult_0_r.
    replace (Int_part 0) with 0%Z
      by (apply Int_part_spec; simpl; lra).
    reflexivity.
  - apply Hne. discriminate.
Qed.

(** X3 for the draw 0.5 and an array of three. *)
Lemma choose_in_array_witness :
  ([1%nat; 2%nat; 3%nat] <> [] ->
   exists a, choose 0.5 [1%nat; 2%nat; 3%nat] = Some a
             /\ a ∈ [1%nat; 2%nat; 3%nat]) /\
  ([1%nat; 2%nat; 3%nat] = [] -> choose 0.5 [1%nat; 2%nat; 3%nat] = None) /\
  (exists c, choose 0.5 COLORS = Some c /\ c ∈ COLORS).
Proof. apply (choose_in_array 0.5 [1%nat; 2%nat; 3%nat]). lra. Defined.

(** ** The involute and its sampler, further *)

(** X4: the involute point at parameter [t] lies at distance
    [|baseRadius| * sqrt (1 + t²)] from the origin: never inside the
    base circle, on it exactly at [t = 0], and farther out the larger
    [|t|] is. *)
Theorem involutePoint_distance (t u baseRadius : R) :
  THREE.length (involutePoint t baseRadius)
  = Rabs baseRadius * sqrt (1 + t * t) /\
  Rabs baseRadius <= THREE.length (involutePoint t baseRadius) /\
  THREE.length (involutePoint 0 baseRadius) = Rabs baseRadius /\
  (baseRadius <> 0 -> Rabs t < Rabs u ->
   THREE.length (involutePoint t baseRadius)
   < THREE.length (involutePoint u baseRadius)).
Proof.
  rewrite !length_involutePoint.
  pose proof (Rabs_pos baseRadius) as Hb.
  assert (H1 : 1 <= sqrt (1 + t * t)).
  { rewrite <- sqrt_1 at 1. apply sqrt_le_1_alt. nra. }
  split; [reflexivity|]. split; [nra|]. split.
  - replace (1 + 0 * 0) with 1 by ring. rewrite sqrt_1. ring.
  - intros Hne Hlt. apply Rmult_lt_compat_l; [apply Rabs_pos_lt, Hne|].
    apply sqrt_lt_1_alt. split; [nra|].
    pose proof (Rsqr_lt_abs_1 t u Hlt) as Hsq. unfold Rsqr in Hsq. lra.
Qed.

(** The samples the loop pushes are those at the multiples of the step,
    in order; the point tested on entry and every sample but the last
    are inside the circle of radius [maxRadius], the last is not. *)
Lemma involuteLoop_samples (b m step : R) (fuel : nat) :
  forall (i : nat) point acc pts,
    involuteLoop fuel b m step (INR i * step) point acc = Normal pts ->
    exists k,
      pts = acc ++ map (fun j => involutePoint (INR j * step) b) (seq i k) /\
      (forall j, (i <= j)%nat -> (j + 1 < i + k)%nat ->
         THREE.length (involutePoint (INR j * step) b) < m) /\
      ((0 < k)%nat ->
         THREE.length point < m /\
         m <= THREE.length (involutePoint (INR (i + k - 1) * step) b)) /\
      (k = 0%nat -> ~ THREE.length point < m).
Proof.
  induction fuel as [|fuel IH]; intros i point acc pts; simpl;
    destruct (Rlt_dec (THREE.length point) m) as [Hin|Hout];
    try discriminate.
  - intros [= <-]. exists 0%nat. simpl. rewrite app_nil_r.
    repeat split; try lia. intros _. exact Hout.
  - replace (INR i * step + step) with (INR (S i) * step)
      by (rewrite S_INR; ring).
    intros Hrun. apply IH in Hrun as (k & -> & Hinside & Hlast & Hnone).
    exists (S k). rewrite <- app_assoc. simpl.
    split; [reflexivity|]. split; [|split].
    + intros j Hij Hjk. destruct (decide (j = i)) as [->|Hne].
      * apply Hlast. lia.
      * apply Hinside; lia.
    + intros _. split; [exact Hin|].
      destruct k as [|k].
      * replace (i + 1 - 1)%nat with i by lia.
        apply Rnot_lt_le, Hnone. reflexivity.
      * replace (i + S (S k) - 1)%nat with (S i + S k - 1)%nat by lia.
        apply Hlast. lia.
    + discriminate.
  - intros [= <-]. exists 0%nat. simpl. rewrite app_nil_r.
    repeat split; try lia. intros _. exact Hout.
Qed.

(** Whenever the sampler of the model returns, the array is the
    involute sampled at the multiples of the step, followed by the end
    point. *)
Lemma generateInvoluteCurve_shape
    (fuel : nat) (b m step : R) (pts : list THREE.Vector2) :
  generateInvoluteCurve fuel b m step = Normal pts ->
  exists k,
    pts = map (fun j => involutePoint (INR j * step) b) (seq 0 k)
          ++ [involutePoint (sqrt (m ^ 2 / b ^ 2 - 1)) b] /\
    (forall j, (j + 1 < k)%nat ->
       THREE.length (involutePoint (INR j * step) b) < m) /\
    ((0 < k)%nat ->
       m <= THREE.length (involutePoint (INR (k - 1) * step) b)) /\
    (k = 0%nat <-> ~ Rabs b < m) /\
    k <> 1%nat.
Proof.
  unfold generateInvoluteCurve.
  destruct (involuteLoop fuel b m step 0 (involutePoint 0 b) [])
    as [loopPts| |] eqn:Hloop; try discriminate.
  intros [= <-].
  replace 0 with (INR 0 * step) in Hloop at 1 by (simpl; ring).
  apply involuteLoop_samples in Hloop as (k & -> & Hinside & Hlast & Hnone).
  rewrite length_involutePoint_0 in Hlast, Hnone.
  exists k. split; [reflexivity|]. split; [|split; [|split]].
  - intros j Hj. apply Hinside; lia.
  - intros Hk. apply Hlast. exact Hk.
  - split; [exact Hnone|]. intros Hout.
    destruct k; [reflexivity|]. destruct Hlast as [Hin _]; [lia|]. tauto.
  - intros ->. destruct Hlast as [Hin Hl]; [lia|].
    simpl in Hl. replace (0 * step) with 0 in Hl by ring.
    rewrite length_involutePoint_0 in Hl. lra.
Qed.

(** X5: for [0 < baseRadius <= maxRadius] and the default step the
    sampler returns (with enough fuel) the involute sampled at
    [0, step, 2 step, ..., (k - 1) step] followed by the exact end
    point.  Every sample but the last lies inside the circle of radius
    [maxRadius]; the last sample, the point just before the end point,
    lies on or outside it.  There are no samples exactly when
    [maxRadius = baseRadius], and never just one. *)
Theorem generateInvoluteCurve_samples (b m : R) :
  0 < b -> b <= m ->
  exists n k,
    (forall fuel, (n <= fuel)%nat ->
       generateInvoluteCurve fuel b m INVOLUTE_STEP
       = Normal
           (map (fun j => involutePoint (INR j * INVOLUTE_STEP) b) (seq 0 k)
            ++ [involutePoint (sqrt (m ^ 2 / b ^ 2 - 1)) b])) /\
    (forall j, (j + 1 < k)%nat ->
       THREE.length (involutePoint (INR j * INVOLUTE_STEP) b) < m) /\
    ((0 < k)%nat ->
       m <= THREE.length (involutePoint (INR (k - 1) * INVOLUTE_STEP) b)) /\
    (k = 0%nat <-> m = b) /\
    k <> 1%nat.
Proof.
  intros Hb Hbm.
  assert (Hstep : 0 < INVOLUTE_STEP) by (unfold INVOLUTE_STEP; lra).
  destruct (involuteLoop_returns b m INVOLUTE_STEP Hstep Hb) as [n Hn].
  destruct (Hn n (le_n n)) as [loopPts Hloop].
  assert (Hrun : forall fuel, (n <= fuel)%nat ->
            generateInvoluteCurve fuel b m INVOLUTE_STEP
            = Normal (loopPts ++ [involutePoint (sqrt (m ^ 2 / b ^ 2 - 1)) b])).
  { intros fuel Hfuel. unfold generateInvoluteCurve.
    rewrite (involuteLoop_mono _ _ _ _ _ _ _ _ _ Hloop Hfuel). reflexivity. }
  destruct (generateInvoluteCurve_shape _ _ _ _ _ (Hrun n (le_n n)))
    as (k & Hpts & Hinside & Hlast & Hnone & Hone).
  exists n, k. split; [|split; [|split; [|split]]].
  - intros fuel Hfuel. rewrite (Hrun fuel Hfuel), Hpts. reflexivity.
  - exact Hinside.
  - exact Hlast.
  - rewrite Hnone, Rabs_pos_eq by lra. split; intros H; lra.
  - exact Hone.
Qed.

(** X5 with base radius 1 and [maxRadius] 2: at least two samples. *)
Lemma generateInvoluteCurve_samples_witness :
  exists n k,
    (2 <= k)%nat /\
    (forall fuel, (n <= fuel)%nat ->
       generateInvoluteCurve fuel 1 2 INVOLUTE_STEP
       = Normal
           (map (fun j => involutePoint (INR j * INVOLUTE_STEP) 1) (seq 0 k)
            ++ [involutePoint (sqrt (2 ^ 2 / 1 ^ 2 - 1)) 1])) /\
    (forall j, (j + 1 < k)%nat ->
       THREE.length (involutePoint (INR j * INVOLUTE_STEP) 1) < 2) /\
    2 <= THREE.length (involutePoint (INR (k - 1) * INVOLUTE_STEP) 1).
Proof.
  destruct (generateInvoluteCurve_samples 1 2 ltac:(lra) ltac:(lra))
    as (n & k & Hrun & Hinside & Hlast & Hnone & Hone).
  assert (Hk : (2 <= k)%nat).
  { destruct k as [|[|k]]; [|congruence|lia].
    destruct Hnone as [Hnone _]. specialize (Hnone eq_refl). lra. }
  exists n, k. split; [exact Hk|]. split; [exact Hrun|].
  split; [exact Hinside|]. apply Hlast. lia.
Defined.

(** A loop whose samples all stay inside never leaves. *)
Lemma involuteLoop_diverges (b m step : R) (fuel : nat) :
  forall t point acc,
    THREE.length point < m ->
    (forall j : nat, THREE.length (involutePoint (t + INR j * step) b) < m) ->
    involuteLoop fuel b m step t point acc = OutOfFuel.
Proof.
  induction fuel as [|fuel IH]; intros t point acc Hin Hall; simpl;
    destruct (Rlt_dec (THREE.length point) m); try tauto.
  apply IH.
  - specialize (Hall 0%nat). simpl in Hall.
    replace (t + 0 * step) with t in Hall by ring. exact Hall.
  - intros j. specialize (Hall (S j)). rewrite S_INR in Hall.
    replace (t + step + INR j * step) with (t + (INR j + 1) * step) by ring.
    exact Hall.
Qed.

Lemma generateInvoluteCurve_diverges (fuel : nat) (b m step : R) :
  Rabs b < m -> step = 0 \/ (b = 0 /\ step = INVOLUTE_STEP) ->
  generateInvoluteCurve fuel b m step = OutOfFuel.
Proof.
  intros Hin Hcase. unfold generateInvoluteCurve.
  rewrite involuteLoop_diverges; [reflexivity| |].
  - rewrite length_involutePoint_0. exact Hin.
  - intros j. rewrite length_involutePoint. destruct Hcase as [->|[-> _]].
    + replace (0 + INR j * 0) with 0 by ring.
      replace (1 + 0 * 0) with 1 by ring. rewrite sqrt_1. lra.
    + rewrite Rabs_R0 in *. lra.
Qed.

(** X6: when the base circle is inside [maxRadius], the [while] loop
    never ends if the step is 0 (the parameter stays at 0 and the point
    on the base circle), or if the base radius is 0 at the default step
    (every sample is the origin): no amount of fuel makes the sampler
    return. *)
Theorem generateInvoluteCurve_never_returns (b m step : R) :
  Rabs b < m -> step = 0 \/ (b = 0 /\ step = INVOLUTE_STEP) ->
  forall fuel, generateInvoluteCurve fuel b m step = OutOfFuel.
Proof.
  intros Hin Hcase fuel. apply generateInvoluteCurve_diverges; assumption.
Qed.

(** X6 with base radius 1, [maxRadius] 2 and step 0, and with base
    radius 0 and [maxRadius] 3 at the default step. *)
Lemma generateInvoluteCurve_never_returns_witness :
  Rabs 1 < 2 /\
  (forall fuel, generateInvoluteCurve fuel 1 2 0 = OutOfFuel) /\
  (forall fuel, generateInvoluteCurve fuel 0 3 INVOLUTE_STEP = OutOfFuel).
Proof.
  assert (H : Rabs 1 < 2) by (rewrite Rabs_pos_eq; lra).
  assert (H0 : Rabs 0 < 3) by (rewrite Rabs_R0; lra).
  split; [exact H|]. split.
  - apply (generateInvoluteCurve_never_returns 1 2 0 H).
    left. reflexivity.
  - apply (generateInvoluteCurve_never_returns 0 3 INVOLUTE_STEP H0).
    right. split; reflexivity.
Defined.

(** ** Rotating and reflecting arrays of points *)

Lemma rotateAround_inverse (origin : THREE.Vector2) (angle : R)
    (v : THREE.Vector2) :
  THREE.rotateAround origin (- angle) (THREE.rotateAround origin angle v) = v.
Proof.
  destruct v as [vx vy], origin as [ox oy].
  unfold THREE.rotateAround; simpl. rewrite cos_neg, sin_neg.
  pose proof (sin2_cos2 angle) as H. unfold Rsqr in H.
  f_equal.
  - transitivity ((vx - ox) * (sin angle * sin angle + cos angle * cos angle)
                  + ox); [ring | rewrite H; ring].
  - transitivity ((vy - oy) * (sin angle * sin angle + cos angle * cos angle)
                  + oy); [ring | rewrite H; ring].
Qed.

Lemma rotateAround_compose (origin : THREE.Vector2) (a b : R)
    (v : THREE.Vector2) :
  THREE.rotateAround origin b (THREE.rotateAround origin a v)
  = THREE.rotateAround origin (a + b) v.
Proof.
  destruct v as [vx vy], origin as [ox oy].
  unfold THREE.rotateAround; simpl. rewrite cos_plus, sin_plus.
  f_equal; ring.
Qed.

(** X7: rotating an array of points about any origin by [angle] and then
    by [- angle] gives the array back; rotating by [a] and then by [b] is
    rotating by [a + b]; rotating by 0 changes nothing. *)
Theorem rotateVec2Array_inverse_compose
    (array : list THREE.Vector2) (a b : R) (origin : THREE.Vector2) :
  rotateVec2Array (rotateVec2Array array a origin) (- a) origin = array /\
  rotateVec2Array (rotateVec2Array array a origin) b origin
  = rotateVec2Array array (a + b) origin /\
  rotateVec2Array array 0 origin = array.
Proof.
  unfold rotateVec2Array. rewrite !map_map. repeat split.
  - rewrite <- (map_id array) at 2. apply map_ext.
    intros v. apply rotateAround_inverse.
  - apply map_ext. intros v. apply rotateAround_compose.
  - rewrite <- (map_id array) at 2. apply map_ext.
    intros [vx vy]. destruct origin as [ox oy].
    unfold THREE.rotateAround; simpl. rewrite cos_0, sin_0. f_equal; ring.
Qed.

(** X8: rotation about the origin keeps every point at its distance from
    the origin, and rotation about any centre keeps the squared distance
    between any two points and leaves the centre where it is. *)
Theorem rotateAround_isometry
    (origin v w : THREE.Vector2) (angle : R) :
  THREE.length (THREE.rotateAround ORIGIN_VEC2 angle v) = THREE.length v /\
  (THREE.x (THREE.rotateAround origin angle v)
   - THREE.x (THREE.rotateAround origin angle w)) ^ 2
  + (THREE.y (THREE.rotateAround origin angle v)
     - THREE.y (THREE.rotateAround origin angle w)) ^ 2
  = (THREE.x v - THREE.x w) ^ 2 + (THREE.y v - THREE.y w) ^ 2 /\
  THREE.rotateAround origin angle origin = origin.
Proof.
  destruct v as [vx vy], w as [wx wy], origin as [ox oy].
  pose proof (sin2_cos2 angle) as H. unfold Rsqr in H.
  unfold THREE.length, THREE.rotateAround, ORIGIN_VEC2; simpl.
  repeat split.
  - f_equal.
    transitivity ((vx * vx + vy * vy)
                  * (sin angle * sin angle + cos angle * cos angle));
      [ring | rewrite H; ring].
  - transitivity (((vx - wx) * (vx - wx) + (vy - wy) * (vy - wy))
                  * (sin angle * sin angle + cos angle * cos angle));
      [ring | rewrite H; ring].
  - f_equal; ring.
Qed.

(** X9: [reflectVec2Array] is the mirror in the ray at [angle]: done
    twice it gives the array back, it keeps every point at its distance
    from the origin, and it sends the point at polar angle [w] to the
    point at polar angle [2 angle - w] (so points on the ray stay). *)
Theorem reflectVec2Array_mirror
    (array : list THREE.Vector2) (angle r : R) (ws : list R) :
  reflectVec2Array (reflectVec2Array array angle) angle = array /\
  map THREE.length (reflectVec2Array array angle) = map THREE.length array /\
  reflectVec2Array (map (fun w => polToCar r w) ws) angle
  = map (fun w => polToCar r (2 * angle - w)) ws /\
  reflectVec2Array [polToCar r angle] angle = [polToCar r angle].
Proof.
  pose proof (sin2_cos2 (2 * angle)) as H. unfold Rsqr in H.
  assert (Hpolar : forall w,
            THREE.mkVector2
              (cos (2 * angle) * THREE.x (polToCar r w)
               + sin (2 * angle) * THREE.y (polToCar r w))
              (sin (2 * angle) * THREE.x (polToCar r w)
               - cos (2 * angle) * THREE.y (polToCar r w))
            = polToCar r (2 * angle - w)).
  { intros w. unfold polToCar; simpl. rewrite cos_minus, sin_minus.
    f_equal; ring. }
  unfold reflectVec2Array. rewrite !map_map. repeat split.
  - rewrite <- (map_id array) at 2. apply map_ext. intros [vx vy]; simpl.
    f_equal.
    + transitivity (vx * (sin (2 * angle) * sin (2 * angle)
                          + cos (2 * angle) * cos (2 * angle)));
        [ring | rewrite H; ring].
    + transitivity (vy * (sin (2 * angle) * sin (2 * angle)
                          + cos (2 * angle) * cos (2 * angle)));
        [ring | rewrite H; ring].
  - apply map_ext. intros [vx vy]. unfold THREE.length; simpl. f_equal.
    transitivity ((vx * vx + vy * vy)
                  * (sin (2 * angle) * sin (2 * angle)
                     + cos (2 * angle) * cos (2 * angle)));
      [ring | rewrite H; ring].
  - apply map_ext. intros w. apply Hpolar.
  - cbn [map]. rewrite Hpolar. do 2 f_equal. ring.
Qed.

(** ** A gear without teeth *)

Lemma createGeometry_zero_teeth (fuel : nat) (mod_ pressureAngleDeg : R) :
  0 < mod_ ->
  Gear.createGeometry fuel (generateGearParams 0 mod_ pressureAngleDeg)
  = OutOfFuel.
Proof.
  intros Hm. unfold Gear.createGeometry, generateGearShapeFromParams,
    generateGearSegment.
  cbn [generateGearParams Params.pitchAngle Params.baseCircleRadius
       Params.maxRadius Params.minRadius Params.alpha Params.teeth].
  rewrite generateInvoluteCurve_diverges; [reflexivity| |].
  - simpl INR.
    replace (mod_ * 0 / 2 * cos (degToRad pressureAngleDeg)) with 0
      by (unfold Rdiv; ring).
    rewrite Rabs_R0. lra.
  - right. split; [|reflexivity]. simpl INR. unfold Rdiv. ring.
Qed.

(** X10: a gear with 0 teeth and a positive module cannot be built: the
    pitch and base radius are 0, the sampler's loop never ends, and
    neither the constructor nor [addGear] returns, whatever the fuel. *)
Theorem zero_teeth_never_returns (mod_ : R) :
  0 < mod_ ->
  (forall fuel pressureAngleDeg pinion h,
     Gear.new fuel 0 mod_ pressureAngleDeg pinion h = OutOfFuel) /\
  (forall fuel this g angle (h : Gear.Heap),
     h !! this = Some g -> Gear.mod_ g = mod_ ->
     Gear.addGear fuel this 0 angle h = OutOfFuel).
Proof.
  intros Hm. split.
  - intros fuel pa pinion h. unfold Gear.new, mbind, Gear.M_bind, Gear.lift.
    rewrite createGeometry_zero_teeth by exact Hm. reflexivity.
  - intros fuel this g angle h Hg Hmod.
    unfold Gear.addGear, mbind, Gear.M_bind.
    rewrite (load_Some _ _ _ Hg).
    unfold Gear.new, mbind, Gear.M_bind, Gear.lift.
    rewrite createGeometry_zero_teeth by lra. reflexivity.
Qed.

(** X10 with the default module 3. *)
Lemma zero_teeth_never_returns_witness :
  (forall fuel pressureAngleDeg pinion h,
     Gear.new fuel 0 3 pressureAngleDeg pinion h = OutOfFuel) /\
  (forall fuel this g angle (h : Gear.Heap),
     h !! this = Some g -> Gear.mod_ g = 3 ->
     Gear.addGear fuel this 0 angle h = OutOfFuel).
Proof. apply (zero_teeth_never_returns 3). lra. Defined.

(** ** [rotateShape], further *)

Lemma Rtrunc_IZR (k : Z) : Rtrunc (IZR k) = k.
Proof.
  unfold Rtrunc. destruct (Rle_dec 0 (IZR k)) as [Hk|Hk].
  - symmetry. apply Int_part_spec. lra.
  - rewrite <- opp_IZR.
    rewrite <- (Int_part_spec (IZR (- k)) (- k)) by lra. lia.
Qed.

Lemma js_rem_zero (b : R) : js_rem 0 b = 0.
Proof.
  unfold js_rem. replace (0 / b) with (IZR 0) by (unfold Rdiv; ring).
  rewrite Rtrunc_IZR. ring.
Qed.

(** X11: rotating a shape by the angle 0 returns the very shape that
    was passed in, untouched, whatever the shape; so the first polygon
    of a gear, pushed with [i = 0], is the tooth segment itself. *)
Theorem rotateShape_zero_angle (shape : THREE.Path) :
  rotateShape shape 0 = Normal shape /\
  (forall pitchAngle n segments,
     pushSegments shape pitchAngle 0 (S n) segments
     = pushSegments shape pitchAngle 1 n (segments ++ [shape])).
Proof.
  assert (H0 : rotateShape shape 0 = Normal shape).
  { unfold rotateShape. rewrite js_rem_zero.
    destruct (Req_dec_T 0 0); [reflexivity | congruence]. }
  split; [exact H0|].
  intros pitchAngle n segments. cbn [pushSegments].
  replace (INR 0 * pitchAngle) with 0 by (simpl; ring).
  rewrite H0. reflexivity.
Qed.

(** X12: on a shape whose outline has at least two points, rotating by
    [a] and then by [b] returns, and gives the outline that rotating by
    [a + b] gives; no point of the outline is lost on the way. *)
Theorem rotateShape_compose (shape : THREE.Path) (a b : R) :
  proper_outline shape ->
  exists first second direct,
    rotateShape shape a = Normal first /\
    rotateShape first b = Normal second /\
    rotateShape shape (a + b) = Normal direct /\
    THREE.getPoints second = THREE.getPoints direct /\
    List.length (THREE.getPoints second)
    = List.length (THREE.getPoints shape).
Proof.
  intros Hp.
  destruct (rotateShape_getPoints shape a Hp) as (first & Hfirst & Hg1).
  pose proof (rotateShape_proper _ _ _ Hp Hfirst) as Hp1.
  destruct (rotateShape_getPoints first b Hp1) as (second & Hsecond & Hg2).
  destruct (rotateShape_getPoints shape (a + b) Hp) as (direct & Hdirect & Hg3).
  exists first, second, direct.
  repeat (split; [assumption|]).
  rewrite Hg2, Hg1, Hg3, map_map. split.
  - apply map_ext. intros v. apply rotateAround_compose.
  - rewrite length_map. reflexivity.
Qed.

Lemma unit_segment_proper :
  proper_outline
    (THREE.lineTo 1 0 (THREE.moveTo 0 0 THREE.emptyPath)).
Proof.
  unfold proper_outline. rewrite getPoints_skipRepeats.
  cbn [THREE.lineTo THREE.moveTo THREE.emptyPath THREE.curves
       THREE.currentPoint app endPoints flat_map fst snd].
  apply (skipRepeats_two_points _ (THREE.mkVector2 1 0)).
  - intros [= H]. lra.
  - simpl. auto.
Defined.

(** X12 on the segment from (0, 0) to (1, 0), turned by a quarter and
    then by a half turn. *)
Lemma rotateShape_compose_witness :
  let shape := THREE.lineTo 1 0 (THREE.moveTo 0 0 THREE.emptyPath) in
  exists first second direct,
    rotateShape shape (PI / 2) = Normal first /\
    rotateShape first PI = Normal second /\
    rotateShape shape (PI / 2 + PI) = Normal direct /\
    THREE.getPoints second = THREE.getPoints direct /\
    List.length (THREE.getPoints second)
    = List.length (THREE.getPoints shape).
Proof.
  intros shape. apply (rotateShape_compose shape (PI / 2) PI).
  apply unit_segment_proper.
Defined.

(** X13: a shape without segments cannot be rotated by anything but
    whole turns: its outline is empty, and building a shape from no
    points reads a coordinate of [undefined]. *)
Theorem rotateShape_empty_throws (shape : THREE.Path) (angle : R) :
  THREE.curves shape = [] ->
  js_rem angle (2 * PI) <> 0 ->
  THREE.getPoints shape = [] /\
  rotateShape shape angle = Throw TypeError.
Proof.
  intros Hcurves Hrem.
  assert (Hpts : THREE.getPoints shape = []).
  { unfold THREE.getPoints. rewrite Hcurves. reflexivity. }
  split; [exact Hpts|].
  unfold rotateShape.
  destruct (Req_dec_T (js_rem angle (2 * PI)) 0); [contradiction|].
  rewrite Hpts. reflexivity.
Qed.

(** X13 on the empty shape and a half turn. *)
Lemma rotateShape_empty_throws_witness :
  THREE.getPoints THREE.emptyPath = [] /\
  rotateShape THREE.emptyPath PI = Throw TypeError.
Proof.
  apply (rotateShape_empty_throws THREE.emptyPath PI).
  - reflexivity.
  - pose proof PI_RGT_0. unfold js_rem, Rtrunc.
    replace (PI / (2 * PI)) with (/ 2) by (field; lra).
    destruct (Rle_dec 0 (/ 2)) as [_|Hn]; [|lra].
    rewrite <- (Int_part_spec (/ 2) 0) by (simpl; lra).
    simpl. lra.
Defined.

(** ** The outline of a tooth segment *)

(** What is kept of a run that ends with [z] ends with [z], unless all
    of it repeats the point kept before. *)
Lemma skipRepeats_last (z : THREE.Vector2) (pts : list THREE.Vector2) :
  forall lastKept,
    last (skipRepeats lastKept (pts ++ [z])) = Some z \/
    (skipRepeats lastKept (pts ++ [z]) = [] /\ lastKept = Some z).
Proof.
  induction pts as [|p pts IH]; intros lastKept.
  - simpl. destruct lastKept as [l|]; [|left; reflexivity].
    destruct (THREE.equals l z) eqn:E; [|left; reflexivity].
    apply equals_spec in E as ->. right. auto.
  - cbn [app]. rewrite skipRepeats_cons.
    destruct (IH (Some p)) as [Hlast|[Hnil [= ->]]].
    + left. rewrite last_app, Hlast. reflexivity.
    + rewrite Hnil, app_nil_r.
      destruct lastKept as [l|]; [|left; reflexivity].
      destruct (THREE.equals l z) eqn:E; [|left; reflexivity].
      apply equals_spec in E as ->. right. split; reflexivity.
Qed.

Lemma generateGearSegment_outline
    (fuel : nat) (pitchAngle b m minRadius alpha u : R)
    (pts : list THREE.Vector2) :
  b <> 0 ->
  generateInvoluteCurve fuel b m INVOLUTE_STEP
  = Normal (involutePoint u b :: pts) ->
  exists segment,
    generateGearSegment fuel pitchAngle b m minRadius alpha = Normal segment /\
    THREE.getPoints segment
    = map (rotated (-1 * alpha))
        (skipRepeats None
           ((involutePoint u b :: pts)
            ++ rev (reflectVec2Array (involutePoint u b :: pts)
                      (pitchAngle / 4 + alpha))
            ++ [polToCar minRadius (pitchAngle * 0.5 + 2 * alpha);
                polToCar minRadius pitchAngle;
                ORIGIN_VEC2])).
Proof.
  intros Hb Hcurve.
  unfold generateGearSegment. rewrite Hcurve.
  cbn [mbind Completion_bind app].
  set (tail := pts ++ rev (reflectVec2Array (involutePoint u b :: pts)
                             (pitchAngle / 4 + alpha))).
  set (pt1 := polToCar minRadius (pitchAngle * 0.5 + 2 * alpha)).
  set (pt2 := polToCar minRadius pitchAngle).
  set (start := THREE.moveTo b 0 THREE.emptyPath).
  cbn [THREE.setFromPoints].
  set (lineToP := fun s' p => THREE.lineTo (THREE.x p) (THREE.y p) s').
  set (segmentShape :=
         THREE.lineTo 0 0
           (THREE.lineTo (THREE.x pt2) (THREE.y pt2)
              (THREE.lineTo (THREE.x pt1) (THREE.y pt1)
                 (fold_left lineToP tail
                    (THREE.moveTo (THREE.x (involutePoint u b))
                       (THREE.y (involutePoint u b)) start))))).
  assert (Hshape : segmentShape
                   = fold_left lineToP (tail ++ [pt1; pt2; ORIGIN_VEC2])
                       (THREE.moveTo (THREE.x (involutePoint u b))
                          (THREE.y (involutePoint u b)) start)).
  { rewrite fold_left_app. reflexivity. }
  assert (Hpts : THREE.getPoints segmentShape
                 = skipRepeats None
                     (involutePoint u b :: tail ++ [pt1; pt2; ORIGIN_VEC2])).
  { rewrite getPoints_skipRepeats, Hshape. unfold lineToP.
    rewrite fold_lineTo_curves.
    cbn [THREE.curves THREE.currentPoint THREE.moveTo start THREE.emptyPath app].
    rewrite Vector2_eta.
    destruct (tail ++ [pt1; pt2; ORIGIN_VEC2]) as [|q rest] eqn:E.
    - destruct tail; discriminate.
    - apply skipRepeats_chain. }
  assert (Hproper : proper_outline segmentShape).
  { unfold proper_outline. rewrite Hpts.
    apply (skipRepeats_two_points _ ORIGIN_VEC2).
    - apply involutePoint_not_origin, Hb.
    - apply in_or_app. right. simpl. auto. }
  destruct (rotateShape_getPoints segmentShape (-1 * alpha) Hproper)
    as (segment & Hrot & Hget).
  exists segment. split; [exact Hrot|].
  rewrite Hget, Hpts. unfold tail. rewrite <- app_assoc. reflexivity.
Qed.

(** X14: for [0 < baseRadius <= maxRadius] the tooth segment is built
    (with enough fuel) and its outline is, turned by [- alpha] and with
    points that repeat their predecessor dropped: the sampled flank, its
    mirror image in the ray at [pitchAngle / 4 + alpha] run backwards,
    the two points on the root circle, and the centre; so the outline
    ends at the centre of the gear. *)
Theorem generateGearSegment_flanks
    (pitchAngle b m minRadius alpha : R) :
  0 < b -> b <= m ->
  exists n, forall fuel, (n <= fuel)%nat ->
    exists flank segment,
      generateInvoluteCurve fuel b m INVOLUTE_STEP = Normal flank /\
      generateGearSegment fuel pitchAngle b m minRadius alpha = Normal segment /\
      THREE.getPoints segment
      = map (rotated (-1 * alpha))
          (skipRepeats None
             (flank
              ++ rev (reflectVec2Array flank (pitchAngle / 4 + alpha))
              ++ [polToCar minRadius (pitchAngle * 0.5 + 2 * alpha);
                  polToCar minRadius pitchAngle;
                  ORIGIN_VEC2])) /\
      last (THREE.getPoints segment) = Some ORIGIN_VEC2.
Proof.
  intros Hb Hle.
  destruct (generateInvoluteCurve_head b m INVOLUTE_STEP Hb Hle) as [n Hn];
    [unfold INVOLUTE_STEP; lra|].
  exists n. intros fuel Hfuel. destruct (Hn fuel Hfuel) as (u & pts & Hcurve).
  destruct (generateGearSegment_outline fuel pitchAngle b m minRadius alpha
              u pts (Rgt_not_eq _ _ Hb) Hcurve) as (segment & Hseg & Hget).
  exists (involutePoint u b :: pts), segment.
  split; [exact Hcurve|]. split; [exact Hseg|]. split; [exact Hget|].
  rewrite Hget.
  set (flank := involutePoint u b :: pts).
  set (mirror := rev (reflectVec2Array flank (pitchAngle / 4 + alpha))).
  replace (flank ++ mirror
           ++ [polToCar minRadius (pitchAngle * 0.5 + 2 * alpha);
               polToCar minRadius pitchAngle; ORIGIN_VEC2])
    with ((flank ++ mirror
           ++ [polToCar minRadius (pitchAngle * 0.5 + 2 * alpha);
               polToCar minRadius pitchAngle]) ++ [ORIGIN_VEC2])
    by (rewrite <- !app_assoc; reflexivity).
  destruct (skipRepeats_last ORIGIN_VEC2
              (flank ++ mirror
               ++ [polToCar minRadius (pitchAngle * 0.5 + 2 * alpha);
                   polToCar minRadius pitchAngle]) None)
    as [Hlast|[_ Hnone]]; [|discriminate].
  rewrite fmap_last, Hlast. simpl. f_equal.
  unfold rotated, THREE.rotateAround, ORIGIN_VEC2; simpl. f_equal; ring.
Qed.

(** X14 for the tooth of the gear with 20 teeth, module 3 and pressure
    angle 20°. *)
Lemma generateGearSegment_flanks_witness :
  let params := generateGearParams 20 3 20 in
  exists n, forall fuel, (n <= fuel)%nat ->
    exists flank segment,
      generateInvoluteCurve fuel (Params.baseCircleRadius params)
        (Params.maxRadius params) INVOLUTE_STEP = Normal flank /\
      generateGearSegment fuel (Params.pitchAngle params)
        (Params.baseCircleRadius params) (Params.maxRadius params)
        (Params.minRadius params) (Params.alpha params) = Normal segment /\
      THREE.getPoints segment
      = map (rotated (-1 * Params.alpha params))
          (skipRepeats None
             (flank
              ++ rev (reflectVec2Array flank
                        (Params.pitchAngle params / 4 + Params.alpha params))
              ++ [polToCar (Params.minRadius params)
                    (Params.pitchAngle params * 0.5
                     + 2 * Params.alpha params);
                  polToCar (Params.minRadius params)
                    (Params.pitchAngle params);
                  ORIGIN_VEC2])) /\
      last (THREE.getPoints segment) = Some ORIGIN_VEC2.
Proof.
  intros params. apply generateGearSegment_flanks.
  - apply (valid_baseCircleRadius_pos 20 3 20 valid_input_20_3_20).
  - apply Rlt_le, (valid_base_lt_max 20 3 20 valid_input_20_3_20).
Defined.

(** ** The root circle *)

(** X15: for a positive module the root circle has a positive radius
    exactly when the gear has at least 3 teeth; with 1 or 2 teeth
    [minRadius] is negative. *)
Theorem generateGearParams_root_circle
    (teeth : nat) (mod_ pressureAngleDeg : R) :
  0 < mod_ ->
  (0 < Params.minRadius (generateGearParams teeth mod_ pressureAngleDeg)
   <-> (3 <= teeth)%nat) /\
  ((teeth <= 2)%nat ->
   Params.minRadius (generateGearParams teeth mod_ pressureAngleDeg) < 0).
Proof.
  intros Hm. cbn [generateGearParams Params.minRadius].
  assert (Hsmall : (teeth <= 2)%nat -> INR teeth <= 2).
  { intros H. apply le_INR in H. simpl in H. lra. }
  assert (Hbig : (3 <= teeth)%nat -> 3 <= INR teeth).
  { intros H. apply le_INR in H. simpl in H. lra. }
  split; [split|].
  - intros Hpos. destruct (Nat.le_gt_cases 3 teeth) as [H|H]; [exact H|].
    specialize (Hsmall ltac:(lia)). nra.
  - intros H. specialize (Hbig H). nra.
  - intros H. specialize (Hsmall H). nra.
Qed.

(** X15 with the default module 3. *)
Lemma generateGearParams_root_circle_witness :
  (0 < Params.minRadius (generateGearParams 2 3 20) <-> (3 <= 2)%nat) /\
  ((2 <= 2)%nat -> Params.minRadius (generateGearParams 2 3 20) < 0).
Proof. apply (generateGearParams_root_circle 2 3 20). lra. Defined.

(** ** Invariants of a gear train *)

Section Train.

Import Gear.

Implicit Types (h : list Gear.t) (g gp gc : Gear.t) (this c p : nat).

Lemma kept_refl g : kept g g.
Proof. unfold kept; intuition auto. Qed.

Lemma driveBy_kept h this (a : R) h' :
  driveBy this a h = Normal (tt, h') ->
  exists g g', h !! this = Some g /\ h' = <[this := g']> h /\
               kept g g' /\ childGears g' = childGears g.
Proof.
  destruct (h !! this) as [g|] eqn:Hg.
  - rewrite (driveBy_spec _ _ _ _ Hg). intros [= <-].
    eexists _, _. split; [reflexivity|]. split; [reflexivity|].
    unfold kept, synced; simpl; intuition auto.
  - unfold driveBy, mbind, M_bind, load. rewrite Hg. discriminate.
Qed.

Lemma setPosition_kept h this (x' y' : R) h' :
  setPosition this x' y' h = Normal (tt, h') ->
  exists g g', h !! this = Some g /\ h' = <[this := g']> h /\
               kept g g' /\ childGears g' = childGears g.
Proof.
  destruct (h !! this) as [g|] eqn:Hg.
  - rewrite (setPosition_spec _ _ _ _ _ Hg). intros [= <-].
    eexists _, _. split; [reflexivity|]. split; [reflexivity|].
    unfold kept, synced; simpl; intuition auto.
  - unfold setPosition, mbind, M_bind, load. rewrite Hg. discriminate.
Qed.

Lemma positionGear_kept h this h' :
  positionGear this h = Normal (tt, h') ->
  exists g g', h !! this = Some g /\ h' = <[this := g']> h /\
               kept g g' /\ childGears g' = childGears g.
Proof.
  destruct (h !! this) as [g|] eqn:Hg;
    [|unfold positionGear, mbind, M_bind, load; rewrite Hg; discriminate].
  destruct (pinion g) as [p|] eqn:Hp.
  - destruct (h !! p) as [pg|] eqn:Hpg.
    + rewrite (positionGear_child _ _ _ _ _ Hg Hp Hpg). intros [= <-].
      eexists _, _. split; [reflexivity|]. split; [reflexivity|].
      unfold kept, synced; simpl; intuition auto.
    + unfold positionGear, mbind, M_bind, load. rewrite Hg, Hp, Hpg.
      discriminate.
  - rewrite (positionGear_root _ _ _ Hg Hp). intros [= <-].
    exists g, g. split; [reflexivity|].
    split; [symmetry; apply list_insert_id, Hg|].
    split; [apply kept_refl | reflexivity].
Qed.

Lemma rotateGear_kept h this h' :
  rotateGear this h = Normal (tt, h') ->
  exists g g', h !! this = Some g /\ h' = <[this := g']> h /\
               kept g g' /\ childGears g' = childGears g.
Proof.
  destruct (h !! this) as [g|] eqn:Hg;
    [|unfold rotateGear, mbind, M_bind, load; rewrite Hg; discriminate].
  destruct (pinion g) as [p|] eqn:Hp.
  - unfold rotateGear, mbind, M_bind. rewrite (load_Some _ _ _ Hg), Hp.
    unfold store.
    rewrite (load_Some _ this _ (lookup_insert_same _ _ _ _ Hg)).
    unfold load at 1.
    destruct (<[this:=set_rotation (rotation g + (PI + angle g)) g]> h !! p)
      as [pg|]; [|discriminate].
    rewrite list_insert_insert_eq. intros [= <-].
    eexists _, _. split; [reflexivity|]. split; [reflexivity|].
    unfold kept, synced; simpl; intuition auto.
  - rewrite (rotateGear_root _ _ _ Hg Hp). intros [= <-].
    exists g, g. split; [reflexivity|].
    split; [symmetry; apply list_insert_id, Hg|].
    split; [apply kept_refl | reflexivity].
Qed.

Lemma set_ratio_speed_id g :
  set_rotationSpeed (rotationSpeed g) (set_ratio (ratio g) g) = g.
Proof. destruct g; reflexivity. Qed.

(** On a well-formed train [calculateRatio] finds what is there. *)
Lemma calculateRatio_noop h this h' :
  train_wf h ->
  calculateRatio this h = Normal (tt, h') -> h' = h.
Proof.
  intros [Hwf _].
  destruct (h !! this) as [g|] eqn:Hg;
    [|unfold calculateRatio, mbind, M_bind, load; rewrite Hg; discriminate].
  destruct (Hwf _ _ Hg) as (_ & _ & Hkin).
  destruct (pinion g) as [p|] eqn:Hp.
  - destruct Hkin as (gp & Hgp & Hratio & Hspeed).
    rewrite (calculateRatio_child _ _ _ _ _ Hg Hp Hgp). intros [= <-].
    rewrite <- Hratio, <- Hspeed, set_ratio_speed_id.
    apply list_insert_id, Hg.
  - destruct Hkin as [Hratio Hspeed].
    rewrite (calculateRatio_root _ _ _ Hg Hp). intros [= <-].
    rewrite <- Hratio at 2. rewrite <- Hspeed, set_ratio_speed_id.
    apply list_insert_id, Hg.
Qed.

Lemma child_of_kept h this g g' c p :
  h !! this = Some g -> childGears g' = childGears g ->
  child_of (<[this := g']> h) c p <-> child_of h c p.
Proof.
  intros Hg Hc. rewrite (child_of_insert _ _ _ _ _ _ Hg), Hc.
  unfold child_of. split.
  - intros [[_ H]|[-> H]]; [exact H | eauto].
  - intros (g1 & Hg1 & H). destruct (decide (p = this)) as [->|Hne].
    + right. split; [reflexivity|]. congruence.
    + left. split; [exact Hne|]. eauto.
Qed.

Lemma lookup_insert_kept h this g g' c gc' :
  h !! this = Some g -> kept g g' ->
  <[this := g']> h !! c = Some gc' ->
  exists gc, h !! c = Some gc /\ kept gc gc'.
Proof.
  intros Hg Hk Hc. destruct (decide (c = this)) as [->|Hne].
  - rewrite (lookup_insert_same _ _ _ _ Hg) in Hc. injection Hc as <-. eauto.
  - rewrite list_lookup_insert_ne in Hc by congruence.
    exists gc'. split; [exact Hc | apply kept_refl].
Qed.

Lemma lookup_kept_insert h this g g' c gc :
  h !! this = Some g -> kept g g' ->
  h !! c = Some gc ->
  exists gc', <[this := g']> h !! c = Some gc' /\ kept gc gc'.
Proof.
  intros Hg Hk Hc. destruct (decide (c = this)) as [->|Hne].
  - rewrite (lookup_insert_same _ _ _ _ Hg).
    exists g'. split; [reflexivity|]. congruence.
  - rewrite list_lookup_insert_ne by congruence.
    exists gc. split; [exact Hc | apply kept_refl].
Qed.

(** Overwriting a gear with one that is [kept] keeps every gear well
    formed. *)
Lemma gears_wf_update h this g g' :
  (forall c gc, h !! c = Some gc -> gear_wf h gc) ->
  h !! this = Some g -> kept g g' ->
  forall c gc', <[this := g']> h !! c = Some gc' ->
                gear_wf (<[this := g']> h) gc'.
Proof.
  intros Hgear Hg Hk c gc' Hc'.
  destruct (lookup_insert_kept _ _ _ _ _ _ Hg Hk Hc')
    as (gc & Hc & Hteeth & Hm & Hpar & Hpin & Hratio & Hspeed & Hsync).
  destruct (Hgear _ _ Hc) as (Hs & Hparams & Hkin).
  split; [auto|]. split; [rewrite Hteeth, Hm, Hpar; exact Hparams|].
  rewrite Hpin.
  destruct (pinion gc) as [p|]; [|rewrite Hratio, Hspeed; exact Hkin].
  destruct Hkin as (gp & Hgp & Hr & Hsp).
  destruct (lookup_kept_insert _ _ _ _ _ _ Hg Hk Hgp)
    as (gp' & Hgp' & Hteeth' & _ & _ & _ & _ & Hspeed' & _).
  exists gp'. split; [exact Hgp'|].
  unfold driven_by. rewrite Hratio, Hspeed, Hteeth, Hteeth', Hspeed'.
  split; assumption.
Qed.

Lemma train_wf_update h this g g' :
  train_wf h -> h !! this = Some g -> kept g g' ->
  childGears g' = childGears g ->
  train_wf (<[this := g']> h).
Proof.
  intros [Hgear Hmod] Hg Hk Hch. split.
  - apply (gears_wf_update h this g g'); assumption.
  - intros c p gc' gp' Hchild Hc' Hp'.
    apply (child_of_kept _ _ _ _ _ _ Hg Hch) in Hchild.
    destruct (lookup_insert_kept _ _ _ _ _ _ Hg Hk Hc')
      as (gc & Hc & _ & Hmc & Hparc & _).
    destruct (lookup_insert_kept _ _ _ _ _ _ Hg Hk Hp')
      as (gp & Hp & _ & Hmp & Hparp & _).
    rewrite Hmc, Hparc, Hmp, Hparp. eapply Hmod; eauto.
Qed.

Lemma gear_wf_app h l g : gear_wf h g -> gear_wf (h ++ l) g.
Proof.
  intros (Hs & Hpar & Hkin). split; [exact Hs|]. split; [exact Hpar|].
  destruct (pinion g) as [p|]; [|exact Hkin].
  destruct Hkin as (gp & Hgp & Hd). exists gp. split; [|exact Hd].
  rewrite lookup_app_l by (eapply lookup_lt_Some, Hgp). exact Hgp.
Qed.

(** Appending a well-formed gear keeps every gear well formed. *)
Lemma gears_wf_snoc h g0 :
  (forall c gc, h !! c = Some gc -> gear_wf h gc) ->
  gear_wf h g0 ->
  forall c gc, (h ++ [g0]) !! c = Some gc -> gear_wf (h ++ [g0]) gc.
Proof.
  intros Hgear Hg0 c gc Hc.
  apply lookup_snoc_Some in Hc as [Hc|[_ ->]]; apply gear_wf_app;
    [eapply Hgear, Hc | exact Hg0].
Qed.

Lemma new_result h (fuel teeth : nat) (mod_ pressureAngleDeg : R)
    (pin : option nat) this h' :
  (forall p, pin = Some p -> is_Some (h !! p)) ->
  new fuel teeth mod_ pressureAngleDeg pin h = Normal (this, h') ->
  exists g0,
    this = List.length h /\ h' = h ++ [g0] /\
    pinion g0 = pin /\ childGears g0 = ∅ /\ gear_wf h g0.
Proof.
  intros Hpin.
  destruct (createGeometry fuel
              (generateGearParams teeth mod_ pressureAngleDeg))
    as [mesh| |] eqn:Hmesh;
    [|unfold new, mbind, M_bind, lift; rewrite Hmesh; discriminate ..].
  pose proof Hmesh as Hshape.
  apply createGeometry_mesh in Hshape as [shape ->].
  destruct pin as [p|].
  - destruct (Hpin p eq_refl) as [pg Hpg].
    rewrite (new_child_spec _ _ _ _ _ _ _ _ Hmesh Hpg). intros [= <- <-].
    eexists. split; [reflexivity|]. split; [reflexivity|].
    split; [reflexivity|]. split; [reflexivity|].
    split; [split; reflexivity|]. split; [reflexivity|].
    exists pg. split; [exact Hpg|]. split; reflexivity.
  - rewrite (new_root_spec _ _ _ _ _ _ Hmesh). intros [= <- <-].
    eexists. split; [reflexivity|]. split; [reflexivity|].
    split; [reflexivity|]. split; [reflexivity|].
    split; [split; reflexivity|]. split; [reflexivity|].
    split; reflexivity.
Qed.

Lemma train_wf_new h g0 :
  tree_wf h -> train_wf h -> gear_wf h g0 -> childGears g0 = ∅ ->
  train_wf (h ++ [g0]).
Proof.
  intros [_ Hch] [Hgear Hmod] Hg0 Hempty. split.
  - apply gears_wf_snoc; assumption.
  - intros c p gc gp Hchild Hc Hp.
    apply child_of_snoc in Hchild as [Hchild|[_ Hin]];
      [|rewrite Hempty in Hin; set_solver].
    pose proof (pinion_of_lt _ _ _ (Hch _ _ Hchild)) as Hclt.
    destruct Hchild as (gp0 & Hp0 & Hin).
    pose proof (lookup_lt_Some _ _ _ Hp0) as Hplt.
    rewrite lookup_app_l in Hc, Hp by assumption.
    eapply Hmod; eauto. exists gp0. auto.
Qed.

Lemma attachedGear_wf h this g (shape : list THREE.Path) (teeth : nat) (a : R) :
  h !! this = Some g ->
  gear_wf h (attachedGear this g (mkMesh shape 0 0 0) teeth a).
Proof.
  intros Hg. split; [split; reflexivity|]. split; [reflexivity|].
  exists g. split; [exact Hg|]. split; reflexivity.
Qed.

Lemma train_wf_addGear h this g (shape : list THREE.Path) (teeth : nat) (a : R) :
  tree_wf h -> train_wf h -> h !! this = Some g ->
  train_wf (<[this := set_childGears ({[List.length h]} ∪ childGears g) g]> h
            ++ [attachedGear this g (mkMesh shape 0 0 0) teeth a]).
Proof.
  intros [_ Hch] [Hgear Hmod] Hg.
  pose proof (lookup_lt_Some _ _ _ Hg) as Hthis.
  set (g' := set_childGears ({[List.length h]} ∪ childGears g) g).
  set (child := attachedGear this g (mkMesh shape 0 0 0) teeth a).
  assert (Hk : kept g g') by (unfold kept, synced; simpl; intuition auto).
  assert (Hlookup : forall c gc',
            (<[this := g']> h ++ [child]) !! c = Some gc' ->
            (exists gc, h !! c = Some gc /\ kept gc gc') \/
            (c = List.length h /\ gc' = child)).
  { intros c gc' Hc. apply lookup_snoc_Some in Hc as [Hc|[-> ->]].
    - left. eapply lookup_insert_kept; eauto.
    - right. rewrite length_insert. auto. }
  split.
  - rewrite <- insert_app_l by exact Hthis.
    apply (gears_wf_update (h ++ [child]) this g g');
      [|rewrite lookup_app_l by exact Hthis; exact Hg | exact Hk].
    apply gears_wf_snoc; [exact Hgear|]. apply attachedGear_wf, Hg.
  - intros c p gc' gp' Hchild Hc' Hp'.
    apply (child_of_attached _ _ _ _ _ _ _ _ Hg) in Hchild
      as [Hchild|[-> ->]].
    + pose proof (pinion_of_lt _ _ _ (Hch _ _ Hchild)) as Hclt.
      destruct (Hlookup _ _ Hc') as [(gc & Hc & _ & Hmc & Hparc & _)|[-> _]];
        [|lia].
      destruct (Hlookup _ _ Hp') as [(gp & Hp & _ & Hmp & Hparp & _)|[-> _]];
        [|destruct Hchild as (? & Hl & _); apply lookup_lt_Some in Hl; lia].
      rewrite Hmc, Hparc, Hmp, Hparp. eapply Hmod; eauto.
    + destruct (Hlookup _ _ Hc') as [(gc & Hc & _)|[_ ->]];
        [apply lookup_lt_Some in Hc; lia|].
      destruct (Hlookup _ _ Hp') as [(gp & Hp & _ & Hmp & Hparp & _)|[-> _]];
        [|lia].
      rewrite Hg in Hp. injection Hp as <-.
      rewrite Hmp, Hparp. split; reflexivity.
Qed.

(** Every call keeps the train well formed. *)
Lemma call_train_wf h h' :
  call h h' -> tree_wf h -> train_wf h -> train_wf h'.
Proof.
  intros Hcall Htree Hwf.
  destruct Hcall as [fuel teeth mod_ pa pin this Hpin Hrun
                    |fuel this teeth a newGear Hrun
                    |this a Hrun|this x' y' Hrun|this Hrun|this Hrun|this Hrun].
  - apply (new_result _ _ _ _ _ _ _ _ Hpin) in Hrun
      as (g0 & -> & -> & _ & Hc & Hg0).
    apply train_wf_new; assumption.
  - destruct (h !! this) as [g|] eqn:Hg;
      [|unfold addGear, mbind, M_bind, load in Hrun; rewrite Hg in Hrun;
        discriminate].
    apply (addGear_result _ _ _ _ _ _ _ _ Hg) in Hrun as (shape & -> & ->).
    apply train_wf_addGear; assumption.
  - apply driveBy_kept in Hrun as (g & g' & Hg & -> & Hk & Hc).
    eapply train_wf_update; eauto.
  - apply setPosition_kept in Hrun as (g & g' & Hg & -> & Hk & Hc).
    eapply train_wf_update; eauto.
  - apply (calculateRatio_noop _ _ _ Hwf) in Hrun as ->. exact Hwf.
  - apply positionGear_kept in Hrun as (g & g' & Hg & -> & Hk & Hc).
    eapply train_wf_update; eauto.
  - apply rotateGear_kept in Hrun as (g & g' & Hg & -> & Hk & Hc).
    eapply train_wf_update; eauto.
Qed.

Lemma train_wf_nil : train_wf [].
Proof.
  split.
  - intros c g Hc. rewrite lookup_nil in Hc. discriminate.
  - intros c p gc gp _ Hc. rewrite lookup_nil in Hc. discriminate.
Qed.

Lemma reachable_train_wf h : reachable h -> train_wf h.
Proof.
  unfold reachable. revert h. apply rtc_ind_r; [apply train_wf_nil|].
  intros h h' Hreach Hcall Hwf.
  eapply call_train_wf; eauto. apply reachable_tree_wf, Hreach.
Qed.

End Train.

(** X16: in every train built with calls of the constructor, [addGear],
    [driveBy], [setPosition], [calculateRatio], [positionGear] and
    [rotateGear], the mesh of each gear sits at the gear's [(x, y)], and
    the cached
    parameters are those [generateGearParams] gives for its teeth, its
    module and its pressure angle. *)
Theorem reachable_mesh_in_place (h : Gear.Heap) (c : ref) (g : Gear.t) :
  reachable h -> h !! c = Some g ->
  position_x (Gear.mesh g) = Gear.x g /\
  position_y (Gear.mesh g) = Gear.y g /\
  Gear.parameters g
  = generateGearParams (Gear.teeth g) (Gear.mod_ g)
      (Params.pressureAngleDeg (Gear.parameters g)) /\
  Params.teeth (Gear.parameters g) = Gear.teeth g /\
  Params.mod_ (Gear.parameters g) = Gear.mod_ g.
Proof.
  intros Hreach Hc.
  destruct (reachable_train_wf h Hreach) as [Hgear _].
  destruct (Hgear _ _ Hc) as ([Hx Hy] & Hpar & _).
  split; [exact Hx|]. split; [exact Hy|]. split; [exact Hpar|].
  rewrite Hpar. split; reflexivity.
Qed.

(** X17: in every such train a root has ratio 1 and speed 1, and a gear
    with a pinion has [ratio = pinion.teeth / teeth] and
    [rotationSpeed = - pinion.rotationSpeed * ratio]; if it has teeth,
    speed times teeth is the opposite of the pinion's: the two pitch
    circles run at the same speed in opposite senses. *)
Theorem reachable_speed_relation (h : Gear.Heap) (c : ref) (g : Gear.t) :
  reachable h -> h !! c = Some g ->
  (Gear.pinion g = None -> Gear.ratio g = 1 /\ Gear.rotationSpeed g = 1) /\
  (forall p, Gear.pinion g = Some p ->
     exists gp,
       h !! p = Some gp /\ (p < c)%nat /\
       Gear.ratio g = INR (Gear.teeth gp) / INR (Gear.teeth g) /\
       Gear.rotationSpeed g = - Gear.rotationSpeed gp * Gear.ratio g /\
       (Gear.teeth g <> 0%nat ->
        Gear.rotationSpeed g * INR (Gear.teeth g)
        = - (Gear.rotationSpeed gp * INR (Gear.teeth gp)))).
Proof.
  intros Hreach Hc.
  destruct (reachable_train_wf h Hreach) as [Hgear _].
  destruct (reachable_tree_wf h Hreach) as [Hlt _].
  destruct (Hgear _ _ Hc) as (_ & _ & Hkin).
  split.
  - intros Hp. rewrite Hp in Hkin. exact Hkin.
  - intros p Hp. rewrite Hp in Hkin. destruct Hkin as (gp & Hgp & Hr & Hs).
    exists gp. split; [exact Hgp|].
    split; [apply Hlt; exists g; auto|]. split; [exact Hr|].
    split; [rewrite Hs; ring|].
    intros Hteeth. rewrite Hs, Hr. field. apply not_0_INR, Hteeth.
Qed.

Section Chain.

Import Gear.

Lemma speed_chain (h : list Gear.t) :
  tree_wf h -> train_wf h ->
  (forall c g, h !! c = Some g -> teeth g <> 0%nat) ->
  forall c g, h !! c = Some g ->
    exists root groot d,
      driven_from h c root d /\ h !! root = Some groot /\
      pinion groot = None /\
      rotationSpeed g * INR (teeth g) = (-1) ^ d * INR (teeth groot).
Proof.
  intros [Hlt _] [Hgear _] Hteeth c.
  induction c as [c IH] using lt_wf_ind. intros g Hc.
  destruct (Hgear _ _ Hc) as (_ & _ & Hkin).
  destruct (pinion g) as [p|] eqn:Hp.
  - destruct Hkin as (gp & Hgp & Hr & Hs).
    assert (Hpc : pinion_of h c p) by (exists g; auto).
    destruct (IH p (Hlt _ _ Hpc) gp Hgp)
      as (root & groot & d & Hchain & Hroot & Hnone & Hspeed).
    exists root, groot, (S d).
    split; [eapply driven_step; eauto|]. split; [exact Hroot|].
    split; [exact Hnone|].
    change ((-1) ^ S d) with (-1 * (-1) ^ d).
    rewrite Rmult_assoc, <- Hspeed, Hs, Hr. field.
    apply not_0_INR, (Hteeth _ _ Hc).
  - destruct Hkin as [_ Hs]. exists c, g, 0%nat.
    split; [eapply driven_root; eauto|]. split; [exact Hc|].
    split; [exact Hp|]. rewrite Hs. change ((-1) ^ 0) with 1. ring.
Qed.

End Chain.

(** X18: in a train whose gears all have teeth, every gear is driven
    from a root through some number [d] of meshes, and its speed is
    [(-1)^d * root.teeth / teeth]: it depends on the root's teeth, its
    own teeth and the parity of its depth only, not on the gears in
    between. *)
Theorem reachable_speed_from_root (h : Gear.Heap) (c : ref) (g : Gear.t) :
  reachable h ->
  (forall c' g', h !! c' = Some g' -> Gear.teeth g' <> 0%nat) ->
  h !! c = Some g ->
  exists root groot d,
    driven_from h c root d /\ h !! root = Some groot /\
    Gear.pinion groot = None /\
    Gear.rotationSpeed g
    = (-1) ^ d * INR (Gear.teeth groot) / INR (Gear.teeth g).
Proof.
  intros Hreach Hteeth Hc.
  destruct (speed_chain h (reachable_tree_wf h Hreach)
              (reachable_train_wf h Hreach) Hteeth c g Hc)
    as (root & groot & d & Hchain & Hroot & Hnone & Hspeed).
  exists root, groot, d. repeat (split; [assumption|]).
  rewrite <- Hspeed. field. apply not_0_INR, (Hteeth _ _ Hc).
Qed.

Section Modules.

Import Gear.

Lemma module_chain (h : list Gear.t) :
  train_wf h ->
  forall c r, rtc (child_of h) c r ->
    forall gc gr, h !! c = Some gc -> h !! r = Some gr ->
      mod_ gc = mod_ gr /\
      Params.pressureAngleDeg (parameters gc)
      = Params.pressureAngleDeg (parameters gr).
Proof.
  intros [_ Hmod] c r Hrtc.
  induction Hrtc as [c|c p r Hchild _ IH]; intros gc gr Hc Hr.
  - rewrite Hc in Hr. injection Hr as <-. split; reflexivity.
  - pose proof Hchild as (gp & Hgp & _).
    destruct (Hmod _ _ _ _ Hchild Hc Hgp) as [Hm Hpa].
    destruct (IH _ _ Hgp Hr) as [Hm' Hpa'].
    split; congruence.
Qed.

End Modules.

(** X19: in every such train a gear has the module and the pressure
    angle of the gear whose child set holds it, and so of every gear
    above it along the child sets, up to the root. *)
Theorem reachable_shared_module
    (h : Gear.Heap) (c r : ref) (gc gr : Gear.t) :
  reachable h -> rtc (child_of h) c r ->
  h !! c = Some gc -> h !! r = Some gr ->
  Gear.mod_ gc = Gear.mod_ gr /\
  Params.pressureAngleDeg (Gear.parameters gc)
  = Params.pressureAngleDeg (Gear.parameters gr).
Proof.
  intros Hreach Hrtc Hc Hr.
  eapply module_chain; eauto. apply reachable_train_wf, Hreach.
Qed.

(** X20: on a gear of such a train [calculateRatio] changes nothing:
    ratio and speed are already what it computes. *)
Theorem reachable_calculateRatio_noop
    (h : Gear.Heap) (this : ref) (g : Gear.t) :
  reachable h -> h !! this = Some g ->
  Gear.calculateRatio this h = Normal (tt, h).
Proof.
  intros Hreach Hg.
  destruct (Gear.calculateRatio this h) as [[[] h']| |] eqn:Hrun.
  - f_equal. f_equal.
    eapply calculateRatio_noop; [apply reachable_train_wf|]; eauto.
  - exfalso. destruct (reachable_train_wf h Hreach) as [Hgear _].
    destruct (Hgear _ _ Hg) as (_ & _ & Hkin).
    unfold Gear.calculateRatio, mbind, Gear.M_bind in Hrun.
    rewrite (load_Some _ _ _ Hg) in Hrun.
    destruct (Gear.pinion g) as [p|]; [|discriminate].
    destruct Hkin as (gp & Hgp & _).
    rewrite (load_Some _ _ _ Hgp) in Hrun. discriminate.
  - exfalso. destruct (reachable_train_wf h Hreach) as [Hgear _].
    destruct (Hgear _ _ Hg) as (_ & _ & Hkin).
    unfold Gear.calculateRatio, mbind, Gear.M_bind in Hrun.
    rewrite (load_Some _ _ _ Hg) in Hrun.
    destruct (Gear.pinion g) as [p|]; [|discriminate].
    destruct Hkin as (gp & Hgp & _).
    rewrite (load_Some _ _ _ Hgp) in Hrun. discriminate.
Qed.

(** *** A train of two gears *)

(** The heap after [new Gear(20, 3, 20)] and [addGear(10, 0)] on it. *)
Lemma train_of_two :
  exists n, forall fuel, (n <= fuel)%nat ->
    exists h1 h groot gchild,
      Gear.new fuel 20 3 20 None [] = Normal (0%nat, h1) /\
      Gear.addGear fuel 0%nat 10 0 h1 = Normal (1%nat, h) /\
      reachable h /\
      h !! 0%nat = Some groot /\ h !! 1%nat = Some gchild /\
      Gear.pinion groot = None /\ Gear.pinion gchild = Some 0%nat /\
      child_of h 1%nat 0%nat /\
      meshed groot gchild /\
      (forall c g, h !! c = Some g -> Gear.teeth g <> 0%nat).
Proof.
  destruct (createGeometry_returns 20 3 20 valid_input_20_3_20) as [n20 H20].
  destruct (createGeometry_returns 10 3 20
              (valid_input_teeth 20 10 3 20 valid_input_20_3_20 ltac:(lia)))
    as [n10 H10].
  exists (Nat.max n20 n10). intros fuel Hfuel.
  destruct (H20 fuel ltac:(lia)) as (shape20 & Hmesh20 & _).
  destruct (H10 fuel ltac:(lia)) as (shape10 & Hmesh10 & _).
  pose proof (new_root_spec [] fuel 20 3 20 _ Hmesh20) as Hroot.
  set (rootGear := Gear.mk 20 3 (generateGearParams 20 3 20)
                     (mkMesh shape20 0 0 0) 0 0 0 ∅ None 1 1) in *.
  change ([] ++ [rootGear]) with [rootGear] in Hroot.
  pose proof (addGear_spec [rootGear] fuel 0%nat rootGear 10 0 _
                eq_refl Hmesh10) as Hadd.
  set (gchild := attachedGear 0%nat rootGear (mkMesh shape10 0 0 0) 10 0) in *.
  set (groot := Gear.set_childGears _ rootGear) in *.
  change (<[0%nat := groot]> [rootGear] ++ [gchild])
    with [groot; gchild] in Hadd.
  exists [rootGear], [groot; gchild], groot, gchild.
  split; [exact Hroot|]. split; [exact Hadd|].
  split.
  { eapply rtc_l; [|apply rtc_once].
    - eapply call_new; [|exact Hroot]. discriminate.
    - eapply call_addGear, Hadd. }
  split; [reflexivity|]. split; [reflexivity|].
  split; [reflexivity|]. split; [reflexivity|].
  split; [exists groot; split; [reflexivity|]; simpl; set_solver|].
  split.
  - unfold meshed, gchild, groot, attachedGear, Gear.rotation; simpl. ring.
  - intros [|[|c]] g Hc; try discriminate;
      injection Hc as <-; simpl; lia.
Qed.

(** X16 on the train of two gears. *)
Lemma reachable_mesh_in_place_witness :
  exists n, forall fuel, (n <= fuel)%nat ->
    exists h1 h g,
      Gear.new fuel 20 3 20 None [] = Normal (0%nat, h1) /\
      Gear.addGear fuel 0%nat 10 0 h1 = Normal (1%nat, h) /\
      h !! 1%nat = Some g /\
      position_x (Gear.mesh g) = Gear.x g /\
      position_y (Gear.mesh g) = Gear.y g /\
      Gear.parameters g
      = generateGearParams (Gear.teeth g) (Gear.mod_ g)
          (Params.pressureAngleDeg (Gear.parameters g)) /\
      Params.teeth (Gear.parameters g) = Gear.teeth g /\
      Params.mod_ (Gear.parameters g) = Gear.mod_ g.
Proof.
  destruct train_of_two as [n Hn]. exists n. intros fuel Hfuel.
  destruct (Hn fuel Hfuel)
    as (h1 & h & groot & gchild & Hnew & Hadd & Hreach & _ & Hc & _).
  exists h1, h, gchild. split; [exact Hnew|]. split; [exact Hadd|].
  split; [exact Hc|].
  apply (reachable_mesh_in_place h 1%nat gchild Hreach Hc).
Defined.

(** X17 on the train of two gears. *)
Lemma reachable_speed_relation_witness :
  exists n, forall fuel, (n <= fuel)%nat ->
    exists h1 h g,
      Gear.new fuel 20 3 20 None [] = Normal (0%nat, h1) /\
      Gear.addGear fuel 0%nat 10 0 h1 = Normal (1%nat, h) /\
      h !! 1%nat = Some g /\
      (Gear.pinion g = None -> Gear.ratio g = 1 /\ Gear.rotationSpeed g = 1) /\
      (forall p, Gear.pinion g = Some p ->
         exists gp,
           h !! p = Some gp /\ (p < 1)%nat /\
           Gear.ratio g = INR (Gear.teeth gp) / INR (Gear.teeth g) /\
           Gear.rotationSpeed g = - Gear.rotationSpeed gp * Gear.ratio g /\
           (Gear.teeth g <> 0%nat ->
            Gear.rotationSpeed g * INR (Gear.teeth g)
            = - (Gear.rotationSpeed gp * INR (Gear.teeth gp)))).
Proof.
  destruct train_of_two as [n Hn]. exists n. intros fuel Hfuel.
  destruct (Hn fuel Hfuel)
    as (h1 & h & groot & gchild & Hnew & Hadd & Hreach & _ & Hc & _).
  exists h1, h, gchild. split; [exact Hnew|]. split; [exact Hadd|].
  split; [exact Hc|].
  apply (reachable_speed_relation h 1%nat gchild Hreach Hc).
Defined.

(** X18 on the train of two gears. *)
Lemma reachable_speed_from_root_witness :
  exists n, forall fuel, (n <= fuel)%nat ->
    exists h1 h g,
      Gear.new fuel 20 3 20 None [] = Normal (0%nat, h1) /\
      Gear.addGear fuel 0%nat 10 0 h1 = Normal (1%nat, h) /\
      h !! 1%nat = Some g /\
      exists root groot d,
        driven_from h 1%nat root d /\ h !! root = Some groot /\
        Gear.pinion groot = None /\
        Gear.rotationSpeed g
        = (-1) ^ d * INR (Gear.teeth groot) / INR (Gear.teeth g).
Proof.
  destruct train_of_two as [n Hn]. exists n. intros fuel Hfuel.
  destruct (Hn fuel Hfuel)
    as (h1 & h & groot & gchild & Hnew & Hadd & Hreach & _ & Hc & _ & _ & _
        & _ & Hteeth).
  exists h1, h, gchild. split; [exact Hnew|]. split; [exact Hadd|].
  split; [exact Hc|].
  apply (reachable_speed_from_root h 1%nat gchild Hreach Hteeth Hc).
Defined.

(** X19 on the train of two gears. *)
Lemma reachable_shared_module_witness :
  exists n, forall fuel, (n <= fuel)%nat ->
    exists h1 h gc gr,
      Gear.new fuel 20 3 20 None [] = Normal (0%nat, h1) /\
      Gear.addGear fuel 0%nat 10 0 h1 = Normal (1%nat, h) /\
      h !! 1%nat = Some gc /\ h !! 0%nat = Some gr /\
      Gear.mod_ gc = Gear.mod_ gr /\
      Params.pressureAngleDeg (Gear.parameters gc)
      = Params.pressureAngleDeg (Gear.parameters gr).
Proof.
  destruct train_of_two as [n Hn]. exists n. intros fuel Hfuel.
  destruct (Hn fuel Hfuel)
    as (h1 & h & groot & gchild & Hnew & Hadd & Hreach & Hr & Hc & _ & _
        & Hchild & _).
  exists h1, h, gchild, groot. split; [exact Hnew|]. split; [exact Hadd|].
  split; [exact Hc|]. split; [exact Hr|].
  apply (reachable_shared_module h 1%nat 0%nat gchild groot Hreach
           (rtc_once _ _ Hchild) Hc Hr).
Defined.

(** X20 on the train of two gears. *)
Lemma reachable_calculateRatio_noop_witness :
  exists n, forall fuel, (n <= fuel)%nat ->
    exists h1 h,
      Gear.new fuel 20 3 20 None [] = Normal (0%nat, h1) /\
      Gear.addGear fuel 0%nat 10 0 h1 = Normal (1%nat, h) /\
      Gear.calculateRatio 1%nat h = Normal (tt, h).
Proof.
  destruct train_of_two as [n Hn]. exists n. intros fuel Hfuel.
  destruct (Hn fuel Hfuel)
    as (h1 & h & groot & gchild & Hnew & Hadd & Hreach & _ & Hc & _).
  exists h1, h. split; [exact Hnew|]. split; [exact Hadd|].
  apply (reachable_calculateRatio_noop h 1%nat gchild Hreach Hc).
Defined.

(** ** Placing, moving and driving gears *)

(** X21: [positionGear] puts a gear on the ray at its [angle] from its
    pinion's centre, at the sum of the two pitch radii taken with the
    gear's own module, so that centre distance squared is that sum
    squared whatever the angle; the mesh follows, the pinion does not
    move, and doing it again changes nothing. *)
Theorem positionGear_tangent
    (h : Gear.Heap) (this p : ref) (g gp : Gear.t) :
  h !! this = Some g -> Gear.pinion g = Some p -> h !! p = Some gp ->
  p <> this ->
  let centreDistance :=
    Gear.mod_ g * (INR (Gear.teeth g) + INR (Gear.teeth gp)) / 2 in
  exists h' g',
    Gear.positionGear this h = Normal (tt, h') /\
    h' !! this = Some g' /\ h' !! p = Some gp /\
    Gear.x g' - Gear.x gp = centreDistance * cos (Gear.angle g) /\
    Gear.y g' - Gear.y gp = centreDistance * sin (Gear.angle g) /\
    (Gear.x g' - Gear.x gp) ^ 2 + (Gear.y g' - Gear.y gp) ^ 2
    = centreDistance ^ 2 /\
    synced g' /\
    Gear.positionGear this h' = Normal (tt, h').
Proof.
  intros Hg Hp Hgp Hne centreDistance.
  pose proof (positionGear_child _ _ _ _ _ Hg Hp Hgp) as Hrun.
  cbv zeta in Hrun.
  set (g' := Gear.set_mesh _ _) in Hrun.
  assert (Hg' : <[this := g']> h !! this = Some g')
    by apply (lookup_insert_same _ _ _ _ Hg).
  assert (Hgp' : <[this := g']> h !! p = Some gp)
    by (rewrite list_lookup_insert_ne by congruence; exact Hgp).
  exists (<[this := g']> h), g'.
  split; [exact Hrun|]. split; [exact Hg'|]. split; [exact Hgp'|].
  pose proof (sin2_cos2 (Gear.angle g)) as Htrig. unfold Rsqr in Htrig.
  split; [|split; [|split; [|split]]].
  - unfold g', centreDistance; simpl. field.
  - unfold g', centreDistance; simpl. field.
  - transitivity (centreDistance ^ 2
                  * (sin (Gear.angle g) * sin (Gear.angle g)
                     + cos (Gear.angle g) * cos (Gear.angle g)));
      [unfold g', centreDistance; simpl; field | rewrite Htrig; ring].
  - split; reflexivity.
  - rewrite (positionGear_child _ _ _ _ _ Hg' Hp Hgp'). cbv zeta.
    rewrite list_insert_insert_eq. reflexivity.
Qed.

(** X21 on the train of two gears. *)
Lemma positionGear_tangent_witness :
  exists n, forall fuel, (n <= fuel)%nat ->
    exists h1 h g gp,
      Gear.new fuel 20 3 20 None [] = Normal (0%nat, h1) /\
      Gear.addGear fuel 0%nat 10 0 h1 = Normal (1%nat, h) /\
      h !! 1%nat = Some g /\ h !! 0%nat = Some gp /\
      let centreDistance :=
        Gear.mod_ g * (INR (Gear.teeth g) + INR (Gear.teeth gp)) / 2 in
      exists h' g',
        Gear.positionGear 1%nat h = Normal (tt, h') /\
        h' !! 1%nat = Some g' /\ h' !! 0%nat = Some gp /\
        Gear.x g' - Gear.x gp = centreDistance * cos (Gear.angle g) /\
        Gear.y g' - Gear.y gp = centreDistance * sin (Gear.angle g) /\
        (Gear.x g' - Gear.x gp) ^ 2 + (Gear.y g' - Gear.y gp) ^ 2
        = centreDistance ^ 2 /\
        synced g' /\
        Gear.positionGear 1%nat h' = Normal (tt, h').
Proof.
  destruct train_of_two as [n Hn]. exists n. intros fuel Hfuel.
  destruct (Hn fuel Hfuel)
    as (h1 & h & groot & gchild & Hnew & Hadd & _ & Hr & Hc & _ & Hp & _).
  exists h1, h, gchild, groot. split; [exact Hnew|]. split; [exact Hadd|].
  split; [exact Hc|]. split; [exact Hr|].
  apply (positionGear_tangent h 1%nat 0%nat gchild groot Hc Hp Hr).
  lia.
Defined.

(** X22: [setPosition x y] moves the gear and its mesh to [(x, y)] and
    changes nothing else: not the gear's rotation, angle, ratio, speed or
    links, and no other gear, so the children of a gear that is moved
    stay where they were. *)
Theorem setPosition_frame
    (h : Gear.Heap) (this : ref) (g : Gear.t) (x y : R) :
  h !! this = Some g ->
  exists h' g',
    Gear.setPosition this x y h = Normal (tt, h') /\
    h' !! this = Some g' /\
    Gear.x g' = x /\ Gear.y g' = y /\
    position_x (Gear.mesh g') = x /\ position_y (Gear.mesh g') = y /\
    (Gear.rotation g' = Gear.rotation g /\
     geometry (Gear.mesh g') = geometry (Gear.mesh g) /\
     Gear.angle g' = Gear.angle g /\
     Gear.ratio g' = Gear.ratio g /\
     Gear.rotationSpeed g' = Gear.rotationSpeed g /\
     Gear.teeth g' = Gear.teeth g /\
     Gear.mod_ g' = Gear.mod_ g /\
     Gear.parameters g' = Gear.parameters g /\
     Gear.childGears g' = Gear.childGears g /\
     Gear.pinion g' = Gear.pinion g) /\
    List.length h' = List.length h /\
    (forall other, other <> this -> h' !! other = h !! other).
Proof.
  intros Hg. eexists _, _. split; [apply (setPosition_spec _ _ _ _ _ Hg)|].
  split; [apply (lookup_insert_same _ _ _ _ Hg)|].
  repeat (split; [reflexivity|]).
  split; [repeat split|].
  split; [apply length_insert|].
  intros other Hne. apply list_lookup_insert_ne. congruence.
Qed.

(** X22 on the root that [new Gear(20, 3, 20)] leaves. *)
Lemma setPosition_frame_witness :
  exists n, forall fuel, (n <= fuel)%nat ->
    exists root h g,
      Gear.new fuel 20 3 20 None [] = Normal (root, h) /\
      h !! root = Some g /\
      (exists h' g',
         Gear.setPosition root 7 (-2) h = Normal (tt, h') /\
         h' !! root = Some g' /\
         Gear.x g' = 7 /\ Gear.y g' = -2 /\
         position_x (Gear.mesh g') = 7 /\ position_y (Gear.mesh g') = -2 /\
         (Gear.rotation g' = Gear.rotation g /\
          geometry (Gear.mesh g') = geometry (Gear.mesh g) /\
          Gear.angle g' = Gear.angle g /\
          Gear.ratio g' = Gear.ratio g /\
          Gear.rotationSpeed g' = Gear.rotationSpeed g /\
          Gear.teeth g' = Gear.teeth g /\
          Gear.mod_ g' = Gear.mod_ g /\
          Gear.parameters g' = Gear.parameters g /\
          Gear.childGears g' = Gear.childGears g /\
          Gear.pinion g' = Gear.pinion g) /\
         List.length h' = List.length h /\
         (forall other, other <> root -> h' !! other = h !! other)).
Proof.
  destruct (new_root_returns [] 20 3 20 valid_input_20_3_20) as [n Hn].
  exists n. intros fuel Hfuel. destruct (Hn fuel Hfuel) as (shape & _ & Hrun).
  eexists _, _, _. split; [exact Hrun|]. split; [reflexivity|].
  apply setPosition_frame. reflexivity.
Defined.

(** X23: whenever [addGear] returns it has appended one gear and added
    it to the child set of the gear it was called on; that gear is
    otherwise as before, and every other gear of the heap is untouched:
    attaching a gear moves and turns nothing that was there. *)
Theorem addGear_frame
    (h : Gear.Heap) (fuel : nat) (this : ref) (g : Gear.t)
    (teeth : nat) (angle : R) (newGear : ref) (h' : Gear.Heap) :
  h !! this = Some g ->
  Gear.addGear fuel this teeth angle h = Normal (newGear, h') ->
  newGear = List.length h /\
  List.length h' = S (List.length h) /\
  h' !! this = Some (Gear.set_childGears ({[newGear]} ∪ Gear.childGears g) g) /\
  (forall other, other <> this -> other <> newGear ->
     h' !! other = h !! other).
Proof.
  intros Hg Hrun.
  apply (addGear_result _ _ _ _ _ _ _ _ Hg) in Hrun as (shape & -> & ->).
  pose proof (lookup_lt_Some _ _ _ Hg) as Hlt.
  split; [reflexivity|].
  split; [rewrite length_app, length_insert; simpl; lia|].
  split; [eapply lookup_pinion_after, Hg|].
  intros other Hne Hnew.
  destruct (Nat.lt_total other (List.length h)) as [Hlo|[->|Hhi]].
  - apply lookup_other_after; assumption.
  - contradiction.
  - rewrite (proj2 (lookup_ge_None _ _))
      by (rewrite length_app, length_insert; simpl; lia).
    symmetry. apply lookup_ge_None. lia.
Qed.

(** X23 on the train of two gears, for the call that attached the
    second. *)
Lemma addGear_frame_witness :
  exists n, forall fuel, (n <= fuel)%nat ->
    exists h g h',
      Gear.new fuel 20 3 20 None [] = Normal (0%nat, h) /\
      h !! 0%nat = Some g /\
      Gear.addGear fuel 0%nat 10 0 h = Normal (1%nat, h') /\
      1%nat = List.length h /\
      List.length h' = S (List.length h) /\
      h' !! 0%nat
      = Some (Gear.set_childGears ({[1%nat]} ∪ Gear.childGears g) g) /\
      (forall other, other <> 0%nat -> other <> 1%nat ->
         h' !! other = h !! other).
Proof.
  destruct train_of_two as [n Hn]. exists n. intros fuel Hfuel.
  destruct (Hn fuel Hfuel) as (h1 & h & groot & gchild & Hnew & Hadd & _).
  destruct (h1 !! 0%nat) as [g|] eqn:Hg.
  - exists h1, g, h. split; [exact Hnew|]. split; [exact Hg|].
    split; [exact Hadd|].
    apply (addGear_frame h1 fuel 0%nat g 10 0 1%nat h Hg Hadd).
  - exfalso. unfold Gear.addGear, mbind, Gear.M_bind, Gear.load in Hadd.
    rewrite Hg in Hadd. discriminate.
Defined.

Section Driving.

Import Gear.

Lemma set_rotation_twice (r1 r2 : R) (g : Gear.t) :
  set_rotation r2 (set_rotation r1 g) = set_rotation r2 g.
Proof. reflexivity. Qed.

Lemma set_rotation_same (r : R) (g : Gear.t) :
  r = rotation g -> set_rotation r g = g.
Proof. intros ->. destruct g as [? ? ? [] ? ? ? ? ? ? ?]. reflexivity. Qed.

Lemma set_rotation_ext (r1 r2 : R) (g : Gear.t) :
  r1 = r2 -> set_rotation r1 g = set_rotation r2 g.
Proof. intros ->. reflexivity. Qed.

End Driving.

(** X24: driving a gear by [a] and then by [b] is driving it by
    [a + b]; driving two different gears gives the same heap in either
    order; and driving by 0 changes nothing. *)
Theorem driveBy_compose
    (h : Gear.Heap) (this other : ref) (g go : Gear.t) (a b : R) :
  h !! this = Some g -> h !! other = Some go -> other <> this ->
  (exists h1 h2,
     Gear.driveBy this a h = Normal (tt, h1) /\
     Gear.driveBy this b h1 = Normal (tt, h2) /\
     Gear.driveBy this (a + b) h = Normal (tt, h2)) /\
  (exists h1 k1 h2,
     Gear.driveBy this a h = Normal (tt, h1) /\
     Gear.driveBy other b h1 = Normal (tt, h2) /\
     Gear.driveBy other b h = Normal (tt, k1) /\
     Gear.driveBy this a k1 = Normal (tt, h2)) /\
  Gear.driveBy this 0 h = Normal (tt, h).
Proof.
  intros Hg Hgo Hne.
  pose proof (driveBy_spec h this g a Hg) as Ha.
  set (g1 := Gear.set_rotation _ g) in Ha.
  assert (Hg1 : <[this := g1]> h !! this = Some g1)
    by apply (lookup_insert_same _ _ _ _ Hg).
  split; [|split].
  - eexists _, _. split; [exact Ha|].
    rewrite (driveBy_spec _ this g1 b Hg1), (driveBy_spec h this g (a + b) Hg).
    split; [reflexivity|].
    rewrite list_insert_insert_eq. do 3 f_equal.
    unfold g1. rewrite set_rotation_twice. apply set_rotation_ext.
    cbn [Gear.rotation Gear.set_rotation Gear.set_mesh Gear.mesh rotation_z
         Gear.rotationSpeed]. ring.
  - pose proof (driveBy_spec h other go b Hgo) as Hb.
    set (go1 := Gear.set_rotation _ go) in Hb.
    eexists _, _, _. split; [exact Ha|].
    rewrite (driveBy_spec _ other go b)
      by (rewrite list_lookup_insert_ne by congruence; exact Hgo).
    split; [reflexivity|]. split; [exact Hb|].
    rewrite (driveBy_spec _ this g a)
      by (rewrite list_lookup_insert_ne by congruence; exact Hg).
    do 2 f_equal. apply list_insert_insert_ne. congruence.
  - rewrite (driveBy_spec h this g 0 Hg). do 2 f_equal.
    rewrite set_rotation_same by ring. apply list_insert_id, Hg.
Qed.

(** X24 on the train of two gears. *)
Lemma driveBy_compose_witness :
  exists n, forall fuel, (n <= fuel)%nat ->
    exists h1 h,
      Gear.new fuel 20 3 20 None [] = Normal (0%nat, h1) /\
      Gear.addGear fuel 0%nat 10 0 h1 = Normal (1%nat, h) /\
      (exists k1 k2,
         Gear.driveBy 0%nat 1 h = Normal (tt, k1) /\
         Gear.driveBy 0%nat 2 k1 = Normal (tt, k2) /\
         Gear.driveBy 0%nat (1 + 2) h = Normal (tt, k2)) /\
      (exists k1 l1 k2,
         Gear.driveBy 0%nat 1 h = Normal (tt, k1) /\
         Gear.driveBy 1%nat 2 k1 = Normal (tt, k2) /\
         Gear.driveBy 1%nat 2 h = Normal (tt, l1) /\
         Gear.driveBy 0%nat 1 l1 = Normal (tt, k2)) /\
      Gear.driveBy 0%nat 0 h = Normal (tt, h).
Proof.
  destruct train_of_two as [n Hn]. exists n. intros fuel Hfuel.
  destruct (Hn fuel Hfuel)
    as (h1 & h & groot & gchild & Hnew & Hadd & _ & Hr & Hc & _).
  exists h1, h. split; [exact Hnew|]. split; [exact Hadd|].
  apply (driveBy_compose h 0%nat 1%nat groot gchild 1 2 Hr Hc). lia.
Defined.

(** X25: in a train built with the class's calls, if the teeth of a gear
    are engaged with those of its pinion (the relation [rotateGear]
    sets up) and both gears are driven by the same angle, each at its
    own speed, they are engaged again afterwards. *)
Theorem driveBy_keeps_meshed
    (h : Gear.Heap) (c p : ref) (gc gp : Gear.t) (delta : R) :
  reachable h ->
  h !! c = Some gc -> Gear.pinion gc = Some p -> h !! p = Some gp ->
  meshed gp gc ->
  exists h1 h2 gp' gc',
    Gear.driveBy p delta h = Normal (tt, h1) /\
    Gear.driveBy c delta h1 = Normal (tt, h2) /\
    h2 !! p = Some gp' /\ h2 !! c = Some gc' /\
    Gear.rotation gp' = Gear.rotation gp + delta * Gear.rotationSpeed gp /\
    Gear.rotation gc' = Gear.rotation gc + delta * Gear.rotationSpeed gc /\
    meshed gp' gc'.
Proof.
  intros Hreach Hc Hp Hgp Hmesh.
  destruct (reachable_train_wf h Hreach) as [Hgear _].
  destruct (reachable_tree_wf h Hreach) as [Hlt _].
  assert (Hpc : (p < c)%nat) by (apply Hlt; exists gc; auto).
  destruct (Hgear _ _ Hc) as (_ & _ & Hkin). rewrite Hp in Hkin.
  destruct Hkin as (gp0 & Hgp0 & Hratio & Hspeed).
  rewrite Hgp in Hgp0. injection Hgp0 as <-.
  pose proof (driveBy_spec h p gp delta Hgp) as H1.
  set (gp' := Gear.set_rotation _ gp) in H1.
  assert (Hc1 : <[p := gp']> h !! c = Some gc)
    by (rewrite list_lookup_insert_ne by lia; exact Hc).
  pose proof (driveBy_spec _ c gc delta Hc1) as H2.
  set (gc' := Gear.set_rotation _ gc) in H2.
  exists (<[p := gp']> h), (<[c := gc']> (<[p := gp']> h)), gp', gc'.
  split; [exact H1|]. split; [exact H2|].
  split.
  { rewrite list_lookup_insert_ne by lia.
    apply (lookup_insert_same _ _ _ _ Hgp). }
  split; [apply (lookup_insert_same _ _ _ _ Hc1)|].
  split; [reflexivity|]. split; [reflexivity|].
  unfold meshed, Gear.rotation in *. unfold gp', gc'. simpl.
  rewrite Hmesh, Hspeed. ring.
Qed.

(** X25 on the train of two gears, driven by a quarter turn. *)
Lemma driveBy_keeps_meshed_witness :
  exists n, forall fuel, (n <= fuel)%nat ->
    exists h1 h gc gp,
      Gear.new fuel 20 3 20 None [] = Normal (0%nat, h1) /\
      Gear.addGear fuel 0%nat 10 0 h1 = Normal (1%nat, h) /\
      h !! 1%nat = Some gc /\ h !! 0%nat = Some gp /\ meshed gp gc /\
      exists k1 k2 gp' gc',
        Gear.driveBy 0%nat (PI / 2) h = Normal (tt, k1) /\
        Gear.driveBy 1%nat (PI / 2) k1 = Normal (tt, k2) /\
        k2 !! 0%nat = Some gp' /\ k2 !! 1%nat = Some gc' /\
        Gear.rotation gp'
        = Gear.rotation gp + PI / 2 * Gear.rotationSpeed gp /\
        Gear.rotation gc'
        = Gear.rotation gc + PI / 2 * Gear.rotationSpeed gc /\
        meshed gp' gc'.
Proof.
  destruct train_of_two as [n Hn]. exists n. intros fuel Hfuel.
  destruct (Hn fuel Hfuel)
    as (h1 & h & groot & gchild & Hnew & Hadd & Hreach & Hr & Hc & _ & Hp
        & _ & Hmesh & _).
  exists h1, h, gchild, groot. split; [exact Hnew|]. split; [exact Hadd|].
  split; [exact Hc|]. split; [exact Hr|]. split; [exact Hmesh|].
  apply (driveBy_keeps_meshed h 1%nat 0%nat gchild groot (PI / 2)
           Hreach Hc Hp Hr Hmesh).
Defined.

(** ** Rebuilding a gear, properties *)

Lemma reset_spec (h : Gear.Heap) (fuel : nat) (this : ref) (g : Gear.t)
    (mesh : Mesh) :
  h !! this = Some g ->
  Gear.createGeometry fuel
    (generateGearParams (Gear.teeth g) (Gear.mod_ g)
       (Params.pressureAngleDeg (Gear.parameters g))) = Normal mesh ->
  reset fuel this h
  = Normal (mesh,
            <[this := Gear.set_mesh mesh
                        (set_parameters
                           (generateGearParams (Gear.teeth g) (Gear.mod_ g)
                              (Params.pressureAngleDeg (Gear.parameters g)))
                           g)]> h).
Proof.
  intros Hg Hmesh. unfold reset, mbind, Gear.M_bind.
  rewrite (load_Some _ _ _ Hg). unfold Gear.store.
  rewrite (load_Some _ this _ (lookup_insert_same _ _ _ _ Hg)).
  unfold Gear.lift. cbn [Gear.parameters set_parameters]. rewrite Hmesh.
  rewrite (load_Some _ this _ (lookup_insert_same _ _ _ _ Hg)).
  rewrite list_insert_insert_eq. reflexivity.
Qed.

(** X26: [reset] on a gear of a train built with the class's calls
    returns (for valid teeth, module and pressure angle) a new mesh with
    one polygon per tooth, at the origin and unrotated, and makes it the
    gear's mesh: the rotation of the gear is 0 afterwards, and the mesh
    is no longer at the gear's [(x, y)] unless that is the origin.  The
    gear's position, angle, ratio, speed, links and parameters, and all
    other gears, are unchanged. *)
Theorem reset_forgets_rotation (h : Gear.Heap) (this : ref) (g : Gear.t) :
  reachable h -> h !! this = Some g ->
  valid_input (Gear.teeth g) (Gear.mod_ g)
    (Params.pressureAngleDeg (Gear.parameters g)) ->
  exists n, forall fuel, (n <= fuel)%nat ->
    exists shape h' g',
      reset fuel this h = Normal (mkMesh shape 0 0 0, h') /\
      List.length shape = Gear.teeth g /\
      h' !! this = Some g' /\
      Gear.mesh g' = mkMesh shape 0 0 0 /\
      Gear.rotation g' = 0 /\
      (synced g' <-> Gear.x g = 0 /\ Gear.y g = 0) /\
      (Gear.x g' = Gear.x g /\ Gear.y g' = Gear.y g /\
       Gear.angle g' = Gear.angle g /\
       Gear.ratio g' = Gear.ratio g /\
       Gear.rotationSpeed g' = Gear.rotationSpeed g /\
       Gear.teeth g' = Gear.teeth g /\
       Gear.mod_ g' = Gear.mod_ g /\
       Gear.parameters g' = Gear.parameters g /\
       Gear.childGears g' = Gear.childGears g /\
       Gear.pinion g' = Gear.pinion g) /\
      (forall other, other <> this -> h' !! other = h !! other).
Proof.
  intros Hreach Hg Hv.
  destruct (reachable_train_wf h Hreach) as [Hgear _].
  destruct (Hgear _ _ Hg) as (_ & Hpar & _).
  destruct (createGeometry_returns _ _ _ Hv) as [n Hn].
  exists n. intros fuel Hfuel. destruct (Hn fuel Hfuel) as (shape & Hmesh & Hlen).
  eexists shape, _, _.
  split; [apply (reset_spec _ _ _ _ _ Hg Hmesh)|].
  split; [exact Hlen|].
  split; [apply (lookup_insert_same _ _ _ _ Hg)|].
  split; [reflexivity|]. split; [reflexivity|].
  split; [unfold synced; simpl; intuition auto|].
  split; [|intros other Hne; apply list_lookup_insert_ne; congruence].
  repeat (split; [reflexivity|]).
  split; [simpl; symmetry; exact Hpar|]. split; reflexivity.
Qed.

(** X26 on the root that [new Gear(20, 3, 20)] leaves. *)
Lemma reset_forgets_rotation_witness :
  exists n, forall fuel, (n <= fuel)%nat ->
    exists root h g,
      Gear.new fuel 20 3 20 None [] = Normal (root, h) /\
      h !! root = Some g /\
      (exists n', forall fuel', (n' <= fuel')%nat ->
         exists shape h' g',
           reset fuel' root h = Normal (mkMesh shape 0 0 0, h') /\
           List.length shape = Gear.teeth g /\
           h' !! root = Some g' /\
           Gear.mesh g' = mkMesh shape 0 0 0 /\
           Gear.rotation g' = 0 /\
           (synced g' <-> Gear.x g = 0 /\ Gear.y g = 0) /\
           (Gear.x g' = Gear.x g /\ Gear.y g' = Gear.y g /\
            Gear.angle g' = Gear.angle g /\
            Gear.ratio g' = Gear.ratio g /\
            Gear.rotationSpeed g' = Gear.rotationSpeed g /\
            Gear.teeth g' = Gear.teeth g /\
            Gear.mod_ g' = Gear.mod_ g /\
            Gear.parameters g' = Gear.parameters g /\
            Gear.childGears g' = Gear.childGears g /\
            Gear.pinion g' = Gear.pinion g) /\
           (forall other, other <> root -> h' !! other = h !! other)).
Proof.
  destruct (new_root_returns [] 20 3 20 valid_input_20_3_20) as [n Hn].
  exists n. intros fuel Hfuel. destruct (Hn fuel Hfuel) as (shape & _ & Hrun).
  eexists _, _, _. split; [exact Hrun|]. split; [reflexivity|].
  apply reset_forgets_rotation.
  - apply rtc_once. eapply call_new; [|exact Hrun]. discriminate.
  - reflexivity.
  - unfold valid_input, degToRad; simpl. pose proof PI_RGT_0.
    split; [lia|]. split; lra.
Defined.

(** ** Moving the gears below a gear, properties *)

Section Subtrees.

Import Gear.

Variables (offsetX offsetY : R).

Implicit Types (h : list Gear.t) (g : Gear.t) (c p j gear : nat)
  (D : nat -> Prop).

Lemma shifted_lookup h h' D j :
  shifted offsetX offsetY D h h' ->
  h' !! j = h !! j \/
  exists gj, h !! j = Some gj /\ h' !! j = Some (moved offsetX offsetY gj).
Proof.
  intros [_ H]. destruct (H j) as [Hin Hout].
  destruct (Classical_Prop.classic (D j)) as [HD|HD]; [right; auto | left; auto].
Qed.

Lemma shifted_child_of h h' D c p :
  shifted offsetX offsetY D h h' -> child_of h' c p <-> child_of h c p.
Proof.
  intros Hs. unfold child_of.
  destruct (shifted_lookup _ _ _ p Hs) as [->|(gp & Hp & Hp')];
    [reflexivity|].
  rewrite Hp, Hp'. split.
  - intros (? & [= <-] & H). eauto.
  - intros (? & [= <-] & H). eauto.
Qed.

Lemma shifted_below h h' D gear j :
  shifted offsetX offsetY D h h' -> below h' gear j <-> below h gear j.
Proof.
  intros Hs. unfold below. split; intros Htc.
  - induction Htc as [a b H|a b d H _ IH].
    + apply tc_once. apply (shifted_child_of _ _ _ _ _ Hs), H.
    + eapply tc_l; [|exact IH]. apply (shifted_child_of _ _ _ _ _ Hs), H.
  - induction Htc as [a b H|a b d H _ IH].
    + apply tc_once. apply (shifted_child_of _ _ _ _ _ Hs), H.
    + eapply tc_l; [|exact IH]. apply (shifted_child_of _ _ _ _ _ Hs), H.
Qed.

Lemma shifted_is_Some h h' D j :
  shifted offsetX offsetY D h h' -> is_Some (h' !! j) <-> is_Some (h !! j).
Proof.
  intros [Hlen _]. rewrite !lookup_lt_is_Some, Hlen. reflexivity.
Qed.

Lemma shifted_refl h : shifted offsetX offsetY (fun _ => False) h h.
Proof. split; [reflexivity|]. intros j. split; [tauto | reflexivity]. Qed.

Lemma shifted_ext h h' D D' :
  (forall j, D j <-> D' j) ->
  shifted offsetX offsetY D h h' -> shifted offsetX offsetY D' h h'.
Proof.
  intros Heq [Hlen H]. split; [exact Hlen|]. intros j.
  destruct (H j) as [Hin Hout]. split.
  - intros HD. apply Hin, Heq, HD.
  - intros HD. apply Hout. rewrite Heq. exact HD.
Qed.

Lemma shifted_compose h h1 h2 D1 D2 :
  shifted offsetX offsetY D1 h h1 -> shifted offsetX offsetY D2 h1 h2 ->
  (forall j, D1 j -> ~ D2 j) ->
  shifted offsetX offsetY (fun j => D1 j \/ D2 j) h h2.
Proof.
  intros [Hlen1 H1] [Hlen2 H2] Hdisj. split; [congruence|]. intros j.
  destruct (H1 j) as [Hin1 Hout1], (H2 j) as [Hin2 Hout2]. split.
  - intros [HD|HD].
    + destruct (Hin1 HD) as (gj & Hj & Hj1). exists gj.
      split; [exact Hj|]. rewrite Hout2 by (apply Hdisj, HD). exact Hj1.
    + assert (HD1 : ~ D1 j) by (intros HD1; exact (Hdisj _ HD1 HD)).
      destruct (Hin2 HD) as (gj & Hj & Hj2). exists gj.
      split; [rewrite <- Hout1 by exact HD1; exact Hj | exact Hj2].
  - intros HD. rewrite Hout2, Hout1 by tauto. reflexivity.
Qed.

Lemma shifted_setPosition h j g :
  h !! j = Some g ->
  setPosition j (x g + offsetX) (y g + offsetY) h
  = Normal (tt, <[j := moved offsetX offsetY g]> h) /\
  shifted offsetX offsetY (fun i => i = j) h
    (<[j := moved offsetX offsetY g]> h).
Proof.
  intros Hg. split; [apply (setPosition_spec _ _ _ _ _ Hg)|].
  split; [apply length_insert|]. intros i. split.
  - intros ->. exists g. split; [exact Hg|].
    apply (lookup_insert_same _ _ _ _ Hg).
  - intros Hne. apply list_lookup_insert_ne. congruence.
Qed.

(** *** Trees *)

Lemma tree_wf_forest h : tree_wf h -> forest h.
Proof.
  intros [Hlt Hch]. split.
  - intros c p H. pose proof (Hch _ _ H) as Hp.
    split; [apply Hlt, Hp|]. destruct Hp as (g & Hg & _). eauto.
  - intros c p1 p2 H1 H2.
    destruct (Hch _ _ H1) as (g1 & Hg1 & Hp1).
    destruct (Hch _ _ H2) as (g2 & Hg2 & Hp2). congruence.
Qed.

Lemma forest_shifted h h' D :
  shifted offsetX offsetY D h h' -> forest h -> forest h'.
Proof.
  intros Hs [Hlt Huniq]. split.
  - intros c p H. apply (shifted_child_of _ _ _ _ _ Hs) in H.
    destruct (Hlt _ _ H) as [Hpc Hc]. split; [exact Hpc|].
    apply (shifted_is_Some _ _ _ _ Hs), Hc.
  - intros c p1 p2 H1 H2. apply (shifted_child_of _ _ _ _ _ Hs) in H1, H2.
    eauto.
Qed.

Lemma below_lt h gear j : forest h -> below h gear j -> (gear < j)%nat.
Proof.
  intros [Hlt _] Htc. unfold below in Htc.
  induction Htc as [a b H|a b d H _ IH].
  - apply Hlt, H.
  - apply Hlt in H. lia.
Qed.

Lemma ancestors_linear h j a b :
  forest h -> rtc (child_of h) j a -> rtc (child_of h) j b ->
  rtc (child_of h) a b \/ rtc (child_of h) b a.
Proof.
  intros [_ Huniq] Ha. revert b.
  induction Ha as [j|j y a Hjy Ha IH]; intros b Hb; [left; exact Hb|].
  destruct Hb as [|j y' b Hjy' Hb].
  - right. eapply rtc_l; eauto.
  - rewrite <- (Huniq _ _ _ Hjy Hjy') in Hb. apply IH, Hb.
Qed.

Lemma subtrees_disjoint h gear c1 c2 j :
  forest h -> child_of h c1 gear -> child_of h c2 gear -> c1 <> c2 ->
  rtc (child_of h) j c1 -> rtc (child_of h) j c2 -> False.
Proof.
  intros Hf H1 H2 Hne Hj1 Hj2.
  assert (Hno : forall a b, child_of h a gear -> child_of h b gear ->
                  a <> b -> ~ rtc (child_of h) a b).
  { intros a b Ha Hb Hab Hr. destruct Hr as [|a y b Hay Hr]; [congruence|].
    destruct Hf as [Hlt Huniq]. rewrite (Huniq _ _ _ Hay Ha) in Hr.
    apply rtc_tc in Hr as [<-|Htc].
    - apply Hlt in Hb. lia.
    - apply (below_lt _ _ _ (conj Hlt Huniq)) in Htc. apply Hlt in Hb. lia. }
  destruct (ancestors_linear _ _ _ _ Hf Hj1 Hj2) as [Hr|Hr].
  - exact (Hno _ _ H1 H2 Hne Hr).
  - apply (Hno _ _ H2 H1); [congruence | exact Hr].
Qed.

Lemma below_children h gear j :
  below h gear j <->
  exists c, child_of h c gear /\ rtc (child_of h) j c.
Proof.
  unfold below. split.
  - intros Htc. induction Htc as [a b H|a y b H _ IH].
    + exists a. split; [exact H | apply rtc_refl].
    + destruct IH as (c & Hc & Hr). exists c.
      split; [exact Hc | eapply rtc_l; eauto].
  - intros (c & Hc & Hr). eapply tc_rtc_l; [exact Hr | apply tc_once, Hc].
Qed.

End Subtrees.

(** ** Moving the gears below a gear, the recursion *)

Section Moving.

Import Gear.

Variable order : gset nat -> list nat.
Hypothesis Horder : visits_once order.
Variables (offsetX offsetY : R).

Implicit Types (h : list Gear.t) (g : Gear.t) (D : nat -> Prop).

Lemma forEach_nil (f : nat -> M unit) h : forEach f [] h = Normal (tt, h).
Proof. reflexivity. Qed.

Lemma forEach_cons (f : nat -> M unit) cg rest h h1 :
  f cg h = Normal (tt, h1) -> forEach f (cg :: rest) h = forEach f rest h1.
Proof.
  intros Hf. simpl. unfold mbind, M_bind. rewrite Hf. reflexivity.
Qed.

Lemma positionChildGears_S fuel gear h g :
  h !! gear = Some g ->
  positionChildGears order (S fuel) gear offsetX offsetY h
  = forEach
      (fun cg =>
         c ← load cg;
         setPosition cg (x c + offsetX) (y c + offsetY);;
         positionChildGears order fuel cg offsetX offsetY)
      (order (childGears g)) h.
Proof.
  intros Hg. simpl. unfold mbind, M_bind.
  rewrite (load_Some _ _ _ Hg). reflexivity.
Qed.

(** The loop over the child set: the gears moved so far are [D]; each
    member still to visit moves with everything below it. *)
Lemma forEach_moves fuel k h0 gear :
  (forall h cg, forest h -> is_Some (h !! cg) ->
     (List.length h - cg <= k)%nat ->
     exists h', positionChildGears order fuel cg offsetX offsetY h
                = Normal (tt, h') /\
                shifted offsetX offsetY (below h cg) h h') ->
  forest h0 -> (List.length h0 - gear <= S k)%nat ->
  forall members h D,
    shifted offsetX offsetY D h0 h ->
    NoDup members ->
    (forall cg, cg ∈ members -> child_of h0 cg gear) ->
    (forall cg j, cg ∈ members -> rtc (child_of h0) j cg -> ~ D j) ->
    exists h',
      forEach
        (fun cg =>
           c ← load cg;
           setPosition cg (x c + offsetX) (y c + offsetY);;
           positionChildGears order fuel cg offsetX offsetY)
        members h = Normal (tt, h') /\
      shifted offsetX offsetY
        (fun j => D j \/ exists cg, cg ∈ members /\ rtc (child_of h0) j cg)
        h0 h'.
Proof.
  intros IHk Hf Hlen members.
  induction members as [|cg rest IH]; intros h D Hs Hnd Hch Hfresh.
  - exists h. split; [apply forEach_nil|].
    eapply shifted_ext; [|exact Hs].
    intros j. split; [tauto|]. intros [HD|(cg & Hin & _)]; [exact HD|].
    inversion Hin.
  - apply NoDup_cons in Hnd as [Hnotin Hnd].
    assert (Hcg : child_of h0 cg gear) by (apply Hch; left).
    destruct Hf as [Hlt Huniq].
    destruct (Hlt _ _ Hcg) as [Hgt [g0 Hg0]].
    pose proof (conj Hlt Huniq : forest h0) as Hf.
    assert (HnD : ~ D cg) by (apply (Hfresh cg cg); [left | apply rtc_refl]).
    assert (Hg : h !! cg = Some g0).
    { destruct Hs as [_ Hs]. destruct (Hs cg) as [_ Hout].
      rewrite Hout by exact HnD. exact Hg0. }
    destruct (shifted_setPosition offsetX offsetY _ _ _ Hg) as [Hset Hs1].
    set (h1 := <[cg := moved offsetX offsetY g0]> h) in *.
    assert (Hs01 : shifted offsetX offsetY (fun j => D j \/ j = cg) h0 h1).
    { eapply shifted_compose; [exact Hs | exact Hs1|].
      intros j HD ->. exact (HnD HD). }
    destruct (IHk h1 cg) as (h2 & Hrun & Hs2).
    + eapply forest_shifted; [exact Hs01 | exact Hf].
    + apply (shifted_is_Some _ _ _ _ _ _ Hs01). eauto.
    + destruct Hs01 as [Hl _]. rewrite Hl. lia.
    + assert (Hs2' : shifted offsetX offsetY (below h0 cg) h1 h2).
      { eapply shifted_ext; [|exact Hs2].
        intros j. apply (shifted_below _ _ _ _ _ _ _ Hs01). }
      assert (Hs02 : shifted offsetX offsetY
                       (fun j => (D j \/ j = cg) \/ below h0 cg j) h0 h2).
      { eapply shifted_compose; [exact Hs01 | exact Hs2'|].
        intros j [HD| ->] Hb.
        - apply (Hfresh cg j); [left | apply tc_rtc, Hb | exact HD].
        - apply (below_lt _ _ _ Hf) in Hb. lia. }
      destruct (IH h2 _ Hs02 Hnd) as (h' & Hrest & Hs').
      * intros c' Hin. apply Hch. right. exact Hin.
      * intros c' j Hin Hr [[HD| ->]|Hb].
        -- apply (Hfresh c' j); [right; exact Hin | exact Hr | exact HD].
        -- assert (Hc' : child_of h0 c' gear) by (apply Hch; right; exact Hin).
           apply (subtrees_disjoint h0 gear cg c' cg Hf Hcg Hc');
             [ | apply rtc_refl | exact Hr].
           intros ->. exact (Hnotin Hin).
        -- assert (Hc' : child_of h0 c' gear) by (apply Hch; right; exact Hin).
           apply (subtrees_disjoint h0 gear cg c' j Hf Hcg Hc');
             [ | apply tc_rtc, Hb | exact Hr].
           intros ->. exact (Hnotin Hin).
      * exists h'. split.
        -- rewrite (forEach_cons _ _ _ _ h2); [exact Hrest|].
           unfold mbind, M_bind. rewrite (load_Some _ _ _ Hg).
           cbv beta iota. rewrite Hset. cbv beta iota. exact Hrun.
        -- eapply shifted_ext; [|exact Hs'].
           intros j. split.
           ++ intros [[[HD| ->]|Hb]|(c' & Hin & Hr)].
              ** left. exact HD.
              ** right. exists cg. split; [left | apply rtc_refl].
              ** right. exists cg. split; [left | apply tc_rtc, Hb].
              ** right. exists c'. split; [right; exact Hin | exact Hr].
           ++ intros [HD|(c' & Hin & Hr)]; [tauto|].
              apply elem_of_cons in Hin as [->|Hin].
              ** left. apply rtc_tc in Hr as [->|Htc]; [tauto|].
                 right. exact Htc.
              ** right. exists c'. split; [exact Hin | exact Hr].
Qed.

(** [positionChildGears] returns once the fuel exceeds the number of
    gears allocated after [gear], and has then moved exactly the gears
    below [gear]. *)
Lemma positionChildGears_moves k : forall fuel h gear,
  forest h -> is_Some (h !! gear) ->
  (List.length h - gear <= k)%nat -> (k <= fuel)%nat ->
  exists h', positionChildGears order fuel gear offsetX offsetY h
             = Normal (tt, h') /\
             shifted offsetX offsetY (below h gear) h h'.
Proof.
  induction k as [|k IHk]; intros fuel h gear Hf [g Hg] Hlen Hfuel.
  - apply lookup_lt_Some in Hg. lia.
  - destruct fuel as [|fuel]; [lia|].
    rewrite (positionChildGears_S _ _ _ _ Hg).
    destruct (Horder (childGears g)) as [Hnd Hmem].
    destruct (forEach_moves fuel k h gear) with
      (members := order (childGears g)) (h := h) (D := fun _ : nat => False)
      as (h' & Hrun & Hs).
    + intros h1 cg Hf1 Hcg Hl. apply IHk; [exact Hf1 | exact Hcg | exact Hl | lia].
    + exact Hf.
    + exact Hlen.
    + apply shifted_refl.
    + exact Hnd.
    + intros cg Hin. exists g. split; [exact Hg | apply Hmem, Hin].
    + tauto.
    + exists h'. split; [exact Hrun|].
      eapply shifted_ext; [|exact Hs].
      intros j. rewrite below_children. split.
      * intros [[]|(cg & Hin & Hr)]. exists cg. split; [|exact Hr].
        exists g. split; [exact Hg | apply Hmem, Hin].
      * intros (cg & (g' & Hg' & Hin) & Hr). right. exists cg.
        split; [|exact Hr]. apply Hmem. congruence.
Qed.

End Moving.

Lemma visits_once_elements : visits_once (elements : gset nat -> list nat).
Proof.
  intros s. split; [apply NoDup_elements|].
  intros c. apply elem_of_elements.
Qed.

(** X27.  In a train built with the constructor and the methods of the
    class, [positionChildGears gear offsetX offsetY] returns (the fuel
    need not exceed the number of gears), whatever the order in which
    [forEach] visits a child set once: every gear below [gear] (in its
    child set, or in the child set of a gear below it) has had
    [setPosition (x + offsetX) (y + offsetY)] applied exactly once, and
    [gear] itself and every gear not below it are as they were. *)
Theorem positionChildGears_moves_subtree
    (order : gset nat -> list nat) (h : list Gear.t) (gear : nat)
    (g : Gear.t) (offsetX offsetY : R) (fuel : nat) :
  reachable h -> visits_once order -> h !! gear = Some g ->
  (List.length h <= fuel)%nat ->
  exists h',
    positionChildGears order fuel gear offsetX offsetY h = Normal (tt, h') /\
    List.length h' = List.length h /\
    h' !! gear = Some g /\
    (forall j, below h gear j ->
       exists gj, h !! j = Some gj /\
                  h' !! j = Some (moved offsetX offsetY gj)) /\
    (forall j, ~ below h gear j -> h' !! j = h !! j).
Proof.
  intros Hr Horder Hg Hfuel.
  pose proof (tree_wf_forest h (reachable_tree_wf h Hr)) as Hf.
  destruct (positionChildGears_moves order Horder offsetX offsetY
              (List.length h) fuel h gear Hf ltac:(eauto) ltac:(lia) Hfuel)
    as (h' & Hrun & Hlen & Hs).
  exists h'. split; [exact Hrun|]. split; [exact Hlen|].
  assert (Hself : ~ below h gear gear).
  { intros Hb. apply (below_lt _ _ _ Hf) in Hb. lia. }
  split; [|split].
  - destruct (Hs gear) as [_ Hout]. rewrite Hout by exact Hself. exact Hg.
  - intros j Hb. destruct (Hs j) as [Hin _]. apply Hin, Hb.
  - intros j Hb. destruct (Hs j) as [_ Hout]. apply Hout, Hb.
Qed.

Lemma positionChildGears_moves_subtree_witness :
  exists n, forall fuel, (n <= fuel)%nat ->
    exists h1 h groot gchild h',
      Gear.new fuel 20 3 20 None [] = Normal (0%nat, h1) /\
      Gear.addGear fuel 0%nat 10 0 h1 = Normal (1%nat, h) /\
      h !! 0%nat = Some groot /\ h !! 1%nat = Some gchild /\
      positionChildGears elements (List.length h) 0%nat 5 7 h
      = Normal (tt, h') /\
      h' !! 0%nat = Some groot /\ h' !! 1%nat = Some (moved 5 7 gchild).
Proof.
  destruct train_of_two as [n Hn]. exists n. intros fuel Hfuel.
  destruct (Hn fuel Hfuel)
    as (h1 & h & groot & gchild & Hnew & Hadd & Hr & H0 & H1 & _ & _ & Hch & _).
  destruct (positionChildGears_moves_subtree elements h 0%nat groot 5 7
              (List.length h) Hr visits_once_elements H0 (le_n _))
    as (h' & Hrun & _ & Hroot & Hin & _).
  exists h1, h, groot, gchild, h'.
  split; [exact Hnew|]. split; [exact Hadd|]. split; [exact H0|].
  split; [exact H1|]. split; [exact Hrun|]. split; [exact Hroot|].
  destruct (Hin 1%nat (tc_once (child_of h) 1%nat 0%nat Hch))
    as (gj & Hj & Hj').
  rewrite Hj'. congruence.
Defined.
